(** * oceanify: dependency lookup, bundling, cache and precompile queue

    A shallow embedding of [lib/compileAll.js] ([findModule], [_bundle]) and
    of [lib/Cache.js] ([Cache], the precompile queue), with the properties
    the specification states about them.

    JavaScript objects live in an explicit store, because [findModule]
    copies nodes of the dependencies map into a second object and the
    bundler threads one [ids] array, one [route] array and one AST through
    its recursive calls. *)

From Stdlib Require Import String Ascii.
From stdpp Require Import base option list strings gmap.

Local Open Scope string_scope.
Local Open Scope list_scope.
Local Open Scope stdpp_scope.

(** ** Outcomes of JavaScript code *)

Inductive exn :=
| TypeError
| SyntaxError
| Error (msg : string).

(** [OutOfFuel] is an artefact of the embedding (a recursion bound was
    reached); it is never the result of a JavaScript run. *)
Inductive outcome (A : Type) :=
| Ok (a : A)
| Throw (e : exn)
| OutOfFuel.
Arguments Ok {A} a.
Arguments Throw {A} e.
Arguments OutOfFuel {A}.

#[global] Instance outcome_ret : MRet outcome := fun A a => Ok a.
#[global] Instance outcome_bind : MBind outcome := fun A B k m =>
  match m with
  | Ok a => k a
  | Throw e => Throw e
  | OutOfFuel => OutOfFuel
  end.

Definition is_Ok {A} (m : outcome A) : bool :=
  match m with
  | Ok _ => true
  | _ => false
  end.

(** ** Values, objects and the store *)

Module JS.

Abbreviation loc := nat (only parsing).

Inductive value :=
| VUndefined
| VNull
| VStr (s : string)
| VRef (l : loc).

(** An object is its list of own properties, in insertion order.  The
    store grows at its end: a new object gets the address [length h]. *)
Abbreviation object := (list (string * value)) (only parsing).
Abbreviation heap := (list (list (string * value))) (only parsing).

Definition truthy (v : value) : bool :=
  match v with
  | VUndefined | VNull => false
  | VStr s => negb (String.eqb s "")
  | VRef _ => true
  end.

Fixpoint lookup_prop (k : string) (o : object) : value :=
  match o with
  | [] => VUndefined
  | (k', v) :: o' => if String.eqb k k' then v else lookup_prop k o'
  end.

Fixpoint set_prop (k : string) (x : value) (o : object) : object :=
  match o with
  | [] => [(k, x)]
  | (k', v) :: o' =>
      if String.eqb k k' then (k, x) :: o' else (k', v) :: set_prop k x o'
  end.

(** The names every ordinary object answers to without having them: the
    properties of [Object.prototype]. *)
Definition Object_prototype_keys : list string :=
  ["constructor"; "hasOwnProperty"; "isPrototypeOf"; "propertyIsEnumerable";
   "toLocaleString"; "toString"; "valueOf"; "__proto__";
   "__defineGetter__"; "__defineSetter__"; "__lookupGetter__"; "__lookupSetter__"].

(** [v[k]] and [v.k].  Reading a property of [undefined] or [null] is a
    TypeError.  Only own properties are modelled: for a key among
    [Object_prototype_keys] that the object does not have, JavaScript
    answers with the inherited value where [get] answers [undefined], and
    what a primitive string inherits is left out as well.  A statement that
    rests on a key being absent says that the key is none of these. *)
Definition get (h : heap) (v : value) (k : string) : outcome value :=
  match v with
  | VUndefined | VNull => Throw TypeError
  | VStr _ => Ok VUndefined
  | VRef l =>
      match h !! l with
      | Some o => Ok (lookup_prop k o)
      | None => Ok VUndefined
      end
  end.

(** [v[k] = x] in strict mode. *)
Definition set (h : heap) (v : value) (k : string) (x : value) : outcome heap :=
  match v with
  | VRef l =>
      match h !! l with
      | Some o => Ok (<[l := set_prop k x o]> h)
      | None => Ok h
      end
  | _ => Throw TypeError
  end.

Definition alloc (h : heap) (o : object) : heap * value :=
  (h ++ [o], VRef (length h)).

#[global] Arguments get : simpl never.
#[global] Arguments set : simpl never.

(** ** JSON *)

Inductive json :=
| JNull
| JStr (s : string)
| JObj (ms : members)
with members :=
| MNil
| MCons (k : string) (j : json) (ms : members).

Scheme json_mind := Induction for json Sort Prop
  with members_mind := Induction for members Sort Prop.
Combined Scheme json_members_ind from json_mind, members_mind.

Fixpoint stringify_members (rec : value -> outcome (option json)) (o : object)
    : outcome members :=
  match o with
  | [] => Ok MNil
  | (k, v) :: o' =>
      r ← rec v;
      ms ← stringify_members rec o';
      Ok (match r with
          | Some j => MCons k j ms
          | None => ms
          end)
  end.

(** [JSON.stringify]: [undefined] has no text, a property holding
    [undefined] is left out, and a cyclic structure is a TypeError. *)
Fixpoint stringify (fuel : nat) (h : heap) (v : value) : outcome (option json) :=
  match v with
  | VUndefined => Ok None
  | VNull => Ok (Some JNull)
  | VStr s => Ok (Some (JStr s))
  | VRef l =>
      match fuel with
      | 0 => Throw TypeError
      | S fuel' =>
          match h !! l with
          | None => Throw TypeError
          | Some o =>
              ms ← stringify_members (stringify fuel' h) o;
              Ok (Some (JObj ms))
          end
      end
  end.

(** A chain of distinct objects is no longer than the store, so this bound
    is reached only on a cycle. *)
Definition JSON_stringify (h : heap) (v : value) : outcome (option json) :=
  stringify (length h) h v.

(** [JSON.parse] of the text of a JSON tree: every object is new. *)
Fixpoint parse (j : json) (h : heap) : heap * value :=
  match j with
  | JNull => (h, VNull)
  | JStr s => (h, VStr s)
  | JObj ms =>
      let '(h1, o) := parse_members ms h in
      alloc h1 o
  end
with parse_members (ms : members) (h : heap) : heap * object :=
  match ms with
  | MNil => (h, [])
  | MCons k j ms' =>
      let '(h1, v) := parse j h in
      let '(h2, o) := parse_members ms' h1 in
      (h2, (k, v) :: o)
  end.

(** [JSON.parse(JSON.stringify(v))] *)
Definition JSON_copy (h : heap) (v : value) : outcome (heap * value) :=
  r ← JSON_stringify h v;
  match r with
  | None => Throw SyntaxError
  | Some j => Ok (parse j h)
  end.

#[global] Arguments JSON_copy : simpl never.

(** *** Structure and sharing

    [denotes h v j]: read through the store [h], the value [v] is the JSON
    tree [j].  Two values are structurally equal when they denote the same
    tree. *)
Inductive denotes (h : heap) : value -> json -> Prop :=
| denotes_null : denotes h VNull JNull
| denotes_str s : denotes h (VStr s) (JStr s)
| denotes_obj l o ms :
    h !! l = Some o -> denotes_members h o ms -> denotes h (VRef l) (JObj ms)
with denotes_members (h : heap) : object -> members -> Prop :=
| denotes_nil : denotes_members h [] MNil
| denotes_skip k o ms :
    denotes_members h o ms -> denotes_members h ((k, VUndefined) :: o) ms
| denotes_cons k v j o ms :
    denotes h v j -> denotes_members h o ms ->
    denotes_members h ((k, v) :: o) (MCons k j ms).

Scheme denotes_mind := Induction for denotes Sort Prop
  with denotes_members_mind := Induction for denotes_members Sort Prop.

(** [reach h v l]: the object at [l] is [v] itself or is referenced,
    directly or through other objects, from [v]. *)
Inductive reach (h : heap) : value -> loc -> Prop :=
| reach_here l : reach h (VRef l) l
| reach_step l o k v l' :
    h !! l = Some o -> (k, v) ∈ o -> reach h v l' -> reach h (VRef l) l'.

(** No dangling reference: every reference points into the store. *)
Definition bounded (n : nat) (v : value) : bool :=
  match v with
  | VRef l => bool_decide (l < n)
  | _ => true
  end.

Definition closed (h : heap) : Prop :=
  forallb (forallb (fun kv : string * value => bounded (length h) kv.2)) h = true.

(** References at or above an address: what an object made after the
    store had [n] objects may point to when it shares nothing older. *)
Definition above (n : nat) (v : value) : Prop :=
  match v with
  | VRef l => n <= l
  | _ => True
  end.

Definition obj_above (n : nat) (o : object) : Prop :=
  forall k v, (k, v) ∈ o -> above n v.

End JS.
Import JS.

(** ** [findModule] of lib/compileAll.js *)

(** [route.splice(-2, 1)]: the start index is [max (length - 2) 0]. *)
Definition splice_m2_1 (route : list string) : list string :=
  let start := length route - 2 in
  take start route ++ drop (S start) route.

(** [route.reduce(function(obj, p) { return obj.dependencies[p] }, init)] *)
Fixpoint reduce (h : heap) (obj : value) (route : list string) : outcome value :=
  match route with
  | [] => Ok obj
  | p :: route' =>
      deps ← get h obj "dependencies";
      v ← get h deps p;
      reduce h v route'
  end.

Fixpoint findModule_loop (fuel : nat) (route : list string) (result : value)
    (dependenciesMap requiredMap : value) (h : heap) : outcome (heap * value) :=
  if truthy result then Ok (h, result) else
  match route with
  | [] => Ok (h, result)
  | name :: _ =>
      match fuel with
      | 0 => OutOfFuel
      | S fuel' =>
          let '(h1, init) := alloc h [("dependencies", dependenciesMap)] in
          result' ← reduce h1 init route;
          h2 ← (if truthy result' && truthy requiredMap then
                   entry ← get h1 dependenciesMap name;
                   '(h', copy) ← JSON_copy h1 entry;
                   set h' requiredMap name copy
                 else Ok h1);
          findModule_loop fuel' (splice_m2_1 route) result'
            dependenciesMap requiredMap h2
      end
  end.

(** Each round removes one segment, so [length route] rounds are enough. *)
Definition findModule (route : list string) (dependenciesMap requiredMap : value)
    (h : heap) : outcome (heap * value) :=
  findModule_loop (length route) route VNull dependenciesMap requiredMap h.

(** The routes [findModule] tries, in order: the route itself, then the
    route with its second-to-last segment dropped, and so on down to the
    last segment alone. *)
Fixpoint truncations_aux (n : nat) (route : list string) : list (list string) :=
  match n, route with
  | S n', _ :: _ => route :: truncations_aux n' (splice_m2_1 route)
  | _, _ => []
  end.

Definition truncations (route : list string) : list (list string) :=
  truncations_aux (length route) route.

(** One attempt, read in the caller's store: the nested lookups
    [dependenciesMap[p1].dependencies[p2]...]. *)
Definition attempt (h : heap) (dependenciesMap : value) (route : list string)
    : outcome value :=
  match route with
  | [] => Ok VUndefined
  | p :: route' => v ← get h dependenciesMap p; reduce h v route'
  end.

(** *** The lookup as the specification words it

    "Attempt to walk the full route as nested lookups in the
    DependenciesMap.  If unresolved, drop the second-to-last route segment
    and retry; repeat while the route still has segments to drop."  A walk
    that meets a missing segment is unresolved. *)
Fixpoint spec_walk (h : heap) (deps : value) (route : list string) : option value :=
  match route with
  | [] => None
  | p :: route' =>
      match get h deps p with
      | Ok v =>
          if truthy v then
            match route' with
            | [] => Some v
            | _ :: _ =>
                match get h v "dependencies" with
                | Ok deps' => spec_walk h deps' route'
                | _ => None
                end
            end
          else None
      | _ => None
      end
  end.

Fixpoint spec_findModule_aux (n : nat) (h : heap) (dependenciesMap : value)
    (route : list string) : option value :=
  match spec_walk h dependenciesMap route with
  | Some v => Some v
  | None =>
      match n with
      | S n' =>
          if bool_decide (2 <= length route) then
            spec_findModule_aux n' h dependenciesMap (splice_m2_1 route)
          else None
      | 0 => None
      end
  end.

(** [None] is the UnresolvedDependency signal. *)
Definition spec_findModule (h : heap) (dependenciesMap : value)
    (route : list string) : option value :=
  spec_findModule_aux (length route) h dependenciesMap route.

(** *** Sample dependency maps *)

Definition pkg_node (version : string) (deps : loc) : object :=
  [("version", VStr version); ("dir", VStr "/proj/node_modules");
   ("main", VStr "index.js"); ("dependencies", VRef deps)].

(** [a], [b] and [c] all hoisted to the top level:
    [{ a: {.. dependencies: {}}, b: {.. dependencies: {}}, c: {..} }];
    the last object is an empty RequiredMap. *)
Definition hoisted_store : heap :=
  [ [("a", VRef 1); ("b", VRef 3); ("c", VRef 5)];
    pkg_node "1.0.0" 2; [];
    pkg_node "2.0.0" 4; [];
    pkg_node "3.0.0" 6; [];
    [] ].

(** [b] installed below [a]: [{ a: {.. dependencies: { b: {..} }} }];
    the last object is an empty RequiredMap. *)
Definition nested_store : heap :=
  [ [("a", VRef 1)];
    pkg_node "1.0.0" 2; [("b", VRef 3)];
    pkg_node "2.0.0" 4; [];
    [] ].

Definition json_node (version : string) (deps : members) : json :=
  JObj (MCons "version" (JStr version)
       (MCons "dir" (JStr "/proj/node_modules")
       (MCons "main" (JStr "index.js")
       (MCons "dependencies" (JObj deps) MNil)))).


(** ** [_bundle] of lib/compileAll.js *)

(** *** Strings *)

(** [s.endsWith(suffix)], also [/suffix$/.test(s)] for a literal suffix *)
Definition ends_with (suffix s : string) : bool :=
  let n := String.length s in
  let m := String.length suffix in
  Nat.leb m n && String.eqb (substring (n - m) m s) suffix.

(** [s.charAt(0) === '.'] *)
Definition starts_with_dot (s : string) : bool :=
  match s with
  | String "." _ => true
  | _ => false
  end.

(** [s.replace(/\.js$/, '')] *)
Definition strip_js (s : string) : string :=
  if ends_with ".js" s then substring 0 (String.length s - 3) s else s.

Fixpoint count_slash (s : string) : nat :=
  match s with
  | EmptyString => 0
  | String "/" s' => S (count_slash s')
  | String _ s' => count_slash s'
  end.

(** *** Collaborators

    The result of [parseId] (lib/parseId.js). *)
Record Module_ := {
  mod_name : string;
  mod_version : string;
  mod_entry : string
}.

(** Modelled from the spec: lib/define.js is not among the sources.  "Wrap
    the source as a named, dependency-annotated definition": the statement
    [define(id, dependencies, function(require, exports, module) { factory })]
    together with the file name UglifyJS records for it. *)
Record definition := {
  def_id : string;
  def_dependencies : list string;
  def_factory : string;
  def_filename : string
}.

(** A statement of the aggregate: a wrapped module definition, or any
    other code (the loader, the bootstrap statements). *)
Inductive stmt :=
| SDefine (d : definition)
| SOther (code : string).

(** What the bundler asks of the file system, of the scanner and of
    Node's [path].  The file system does not change during a bundle. *)
Class BundleEnv := {
  (** lib/findComponent.js: the file under the first load path that has
      it, or [undefined] *)
  findComponent : string -> list string -> option string;
  (** [fs.readFile(fpath, 'utf8')] of a file [findComponent] found *)
  readFile : string -> string;
  (** [matchRequire.findAll] *)
  findAll : string -> list string;
  parseId : string -> Module_;
  (** the message of the error [UglifyJS.parse] raises on a source it
      rejects *)
  parse_error : string -> option string;
  (** what [util.format] puts for a [%s] that is given the array of load
      paths *)
  format_paths : list string -> string;
  path_join : list string -> string;
  path_dirname : string -> string;
  path_relative : string -> string -> string;
  path_resolve : string -> string -> string
}.

(** *** State

    [opts.ids], [opts.route] and [opts.toplevel] are objects: a nested call
    of [_bundle] receives the very arrays and the very AST of its caller,
    [ids.unshift], [route.push], [route.pop] update the arrays in place and
    [UglifyJS.parse(code, { toplevel })] appends the parsed statements to
    the body of the AST it is given (a new AST when given none).  They are
    threaded here as the state of one top-level invocation; [toplevel] is
    [None] until the first parse, which precedes every nested call.  [store]
    holds the dependencies map and the RequiredMap. *)
Record bundle_state := {
  ids : list string;
  route : list string;
  toplevel : option (list stmt);
  store : heap
}.

(** The remaining options, constant during one call of [_bundle]. *)
Record bundle_opts := {
  opt_paths : list string;
  opt_root : string;
  opt_dependenciesMap : value;
  opt_requiredMap : value;
  opt_dependencies : option (list string);
  opt_factory : option string
}.

Definition set_ids (x : list string) (st : bundle_state) : bundle_state :=
  {| ids := x; route := route st; toplevel := toplevel st; store := store st |}.
Definition set_route (x : list string) (st : bundle_state) : bundle_state :=
  {| ids := ids st; route := x; toplevel := toplevel st; store := store st |}.
Definition set_toplevel (x : option (list stmt)) (st : bundle_state) : bundle_state :=
  {| ids := ids st; route := route st; toplevel := x; store := store st |}.
Definition set_store (x : heap) (st : bundle_state) : bundle_state :=
  {| ids := ids st; route := route st; toplevel := toplevel st; store := x |}.

Definition body (st : bundle_state) : list stmt := default [] (toplevel st).

(** [UglifyJS.parse(define(id, dependencies, factory), { filename, toplevel })] *)
Definition UglifyJS_parse `{BundleEnv} (d : definition) (st : bundle_state)
    : outcome bundle_state :=
  match parse_error (def_factory d) with
  | Some msg => Throw (Error msg)
  | None => Ok (set_toplevel (Some (body st ++ [SDefine d])) st)
  end.

Definition truthy_string (s : option string) : bool :=
  match s with
  | Some s => negb (String.eqb s "")
  | None => false
  end.

(** [name.split('/').reduce(result => path.resolve(result, '..'), dir)] *)
Definition pkgBase_of `{BundleEnv} (name dir : string) : string :=
  Nat.iter (S (count_slash name)) (fun result => path_resolve result "..") dir.

(** *** The three closures of one call of [_bundle]

    [append_rec] and [bundle_rec] stand for the recursive calls. *)
Section Closure.
Context `{BundleEnv}.
Variable opts : bundle_opts.
Variable append_rec :
  string -> option (list string) -> option string -> bundle_state -> outcome bundle_state.
Variable bundle_rec : string -> bundle_opts -> bundle_state -> outcome bundle_state.

Definition appendModule (name : string) (st : bundle_state) : outcome bundle_state :=
  '(h, data) ← findModule (route st) (opt_dependenciesMap opts)
                 (opt_requiredMap opts) (store st);
  if negb (truthy data) then Throw (Error ("Cannot find module " +:+ name)) else
  version ← get h data "version";
  main ← get h data "main";
  dir ← get h data "dir";
  match version, main, dir with
  | VStr version, VStr main, VStr dir =>
      let id := path_join [name; version; strip_js main] in
      bundle_rec id
        {| opt_paths := [pkgBase_of name dir];
           opt_root := opt_root opts;
           opt_dependenciesMap := opt_dependenciesMap opts;
           opt_requiredMap := opt_requiredMap opts;
           opt_dependencies := None;
           opt_factory := None |}
        (set_store h st)
  | _, _, _ => Throw TypeError
  end.

(** The loop of [satisfy(mod)] over [mod.dependencies]. *)
Fixpoint satisfy (mod_ : Module_) (id : string) (dependencies : list string)
    (st : bundle_state) : outcome bundle_state :=
  match dependencies with
  | [] => Ok st
  | dep :: rest =>
      st' ← (if starts_with_dot dep then
               append_rec (path_join [path_dirname id; dep]) None None st
             else
               match findComponent (dep +:+ ".js") (opt_paths opts) with
               | Some _ =>
                   append_rec
                     (mod_name mod_ +:+ "/" +:+ mod_version mod_ +:+ "/" +:+ dep)
                     None None st
               | None =>
                   if truthy (opt_dependenciesMap opts) then
                     st1 ← appendModule dep (set_route (route st ++ [dep]) st);
                     Ok (set_route (removelast (route st1)) st1)
                   else Ok st
               end);
      satisfy mod_ id rest st'
  end.

Definition append_body (id : string) (dependencies : option (list string))
    (factory : option string) (st : bundle_state) : outcome bundle_state :=
  if bool_decide (id ∈ ids st) then Ok st else
  let st := set_ids (id :: ids st) st in
  let mod_ := parseId id in
  match opt_paths opts with
  | [] => Throw TypeError
  | p0 :: _ =>
      let fpath :=
        if ends_with "node_modules" p0
        then findComponent (mod_name mod_ +:+ "/" +:+ mod_entry mod_ +:+ ".js") (opt_paths opts)
        else findComponent (mod_entry mod_ +:+ ".js") (opt_paths opts) in
      let source :=
        if truthy_string factory then factory else readFile <$> fpath in
      match source with
      | None =>
          Throw (Error ("Cannot find source of " +:+ id +:+ " in "
                        +:+ format_paths (opt_paths opts)))
      | Some factory =>
          let dependencies := default (findAll factory) dependencies in
          let dependencies :=
            filter (fun dep => ends_with "heredoc" dep = false) dependencies in
          let filename :=
            match fpath with
            | Some fpath => path_relative (opt_root opts) fpath
            | None => mod_entry mod_
            end in
          st ← UglifyJS_parse
                 {| def_id := id; def_dependencies := dependencies;
                    def_factory := factory; def_filename := filename |} st;
          satisfy mod_ id dependencies st
      end
  end.

End Closure.

(** [append] of the call of [_bundle] with options [opts], and [_bundle]
    itself.  [fuel] bounds the depth of the recursion. *)
Fixpoint append `{BundleEnv} (fuel : nat) (opts : bundle_opts) (id : string)
    (dependencies : option (list string)) (factory : option string)
    (st : bundle_state) : outcome bundle_state :=
  match fuel with
  | 0 => OutOfFuel
  | S fuel' =>
      append_body opts (append fuel' opts) (_bundle fuel')
        id dependencies factory st
  end
with _bundle `{BundleEnv} (fuel : nat) (main : string) (opts : bundle_opts)
    (st : bundle_state) : outcome bundle_state :=
  match fuel with
  | 0 => OutOfFuel
  | S fuel' =>
      append fuel' opts main (opt_dependencies opts) (opt_factory opts) st
  end.

(** The wrapped definitions of an aggregate, in order. *)
Fixpoint definitions (ss : list stmt) : list definition :=
  match ss with
  | [] => []
  | SDefine d :: ss' => d :: definitions ss'
  | SOther _ :: ss' => definitions ss'
  end.

(** The aggregate holds one definition per included id, in the order in
    which the ids were included ([ids] lists them latest first). *)
Definition bundle_inv (st : bundle_state) : Prop :=
  def_id <$> definitions (body st) = reverse (ids st) /\ NoDup (ids st).

Definition count_definitions (id : string) (st : bundle_state) : nat :=
  length (filter (fun d => def_id d = id) (definitions (body st))).

(** [st'] comes from [st] by including new ids, each with its definition
    appended to the aggregate at the time it was included. *)
Definition extends (st st' : bundle_state) : Prop :=
  exists (new_ids : list string) (new_defs : list definition),
    ids st' = new_ids ++ ids st /\
    body st' = body st ++ (SDefine <$> new_defs) /\
    def_id <$> new_defs = reverse new_ids /\
    (NoDup (ids st) -> NoDup (ids st')).

(** *** A dependency chain inside one package

    A specifier that [satisfy] hands to [append]: a relative path, or the
    name of a sibling file on the load paths. *)
Definition resolves_to `{BundleEnv} (opts : bundle_opts) (id dep target : string) : Prop :=
  (starts_with_dot dep = true /\ target = path_join [path_dirname id; dep]) \/
  (starts_with_dot dep = false /\
   is_Some (findComponent (dep +:+ ".js") (opt_paths opts)) /\
   target = mod_name (parseId id) +:+ "/" +:+ mod_version (parseId id) +:+ "/" +:+ dep).

(** The file of module [id] is on the load paths, parses, and requires
    exactly [dependencies]. *)
Definition has_source `{BundleEnv} (opts : bundle_opts) (id : string) (d : definition) : Prop :=
  exists p0 ps fpath,
    opt_paths opts = p0 :: ps /\
    (if ends_with "node_modules" p0
     then findComponent (mod_name (parseId id) +:+ "/" +:+ mod_entry (parseId id) +:+ ".js")
            (opt_paths opts)
     else findComponent (mod_entry (parseId id) +:+ ".js") (opt_paths opts))
      = Some fpath /\
    parse_error (readFile fpath) = None /\
    d = {| def_id := id;
           def_dependencies :=
             filter (fun dep => ends_with "heredoc" dep = false) (findAll (readFile fpath));
           def_factory := readFile fpath;
           def_filename := path_relative (opt_root opts) fpath |}.

(** *** A sample project

    [/proj/components] holds [main.js], which requires [./lib/b], which
    requires [./c]; [home.js] requires the package [yen], installed in
    [/proj/node_modules/yen].  The collaborators are given by their answers
    on these files. *)
Fixpoint assoc {A B} `{EqDecision A} (k : A) (table : list (A * B)) : option B :=
  match table with
  | [] => None
  | (k', v) :: table' => if decide (k = k') then Some v else assoc k table'
  end.

Definition sample_files : list (string * string) :=
  [ ("/proj/components/main.js", "require('./lib/b')");
    ("/proj/components/lib/b.js", "require('./c')");
    ("/proj/components/lib/c.js", "exports.c = 1");
    ("/proj/components/home.js", "require('yen')");
    ("/proj/node_modules/yen/index.js", "module.exports = yen") ].

Definition sample_findComponent (name : string) (paths : list string) : option string :=
  head (filter (fun fpath => is_Some (assoc fpath sample_files))
          ((fun dir => dir +:+ "/" +:+ name) <$> paths)).

Definition sample_requires : list (string * list string) :=
  [ ("require('./lib/b')", ["./lib/b"]);
    ("require('./c')", ["./c"]);
    ("require('yen')", ["yen"]) ].

Definition sample_ids : list (string * Module_) :=
  [ ("app/1.0.0/main",
     {| mod_name := "app"; mod_version := "1.0.0"; mod_entry := "main" |});
    ("app/1.0.0/lib/b",
     {| mod_name := "app"; mod_version := "1.0.0"; mod_entry := "lib/b" |});
    ("app/1.0.0/lib/c",
     {| mod_name := "app"; mod_version := "1.0.0"; mod_entry := "lib/c" |});
    ("app/1.0.0/home",
     {| mod_name := "app"; mod_version := "1.0.0"; mod_entry := "home" |});
    ("yen/1.2.4/index",
     {| mod_name := "yen"; mod_version := "1.2.4"; mod_entry := "index" |}) ].

Definition sample_joins : list (list string * string) :=
  [ (["app/1.0.0"; "./lib/b"], "app/1.0.0/lib/b");
    (["app/1.0.0/lib"; "./c"], "app/1.0.0/lib/c");
    (["yen"; "1.2.4"; "index"], "yen/1.2.4/index") ].

Definition sample_dirnames : list (string * string) :=
  [ ("app/1.0.0/main", "app/1.0.0");
    ("app/1.0.0/home", "app/1.0.0");
    ("app/1.0.0/lib/b", "app/1.0.0/lib");
    ("app/1.0.0/lib/c", "app/1.0.0/lib") ].

Definition sample_relatives : list (string * string) :=
  [ ("/proj/components/main.js", "components/main.js");
    ("/proj/components/lib/b.js", "components/lib/b.js");
    ("/proj/components/lib/c.js", "components/lib/c.js");
    ("/proj/components/home.js", "components/home.js");
    ("/proj/node_modules/yen/index.js", "node_modules/yen/index.js") ].

#[global] Instance sample_env : BundleEnv := {|
  findComponent := sample_findComponent;
  readFile fpath := default "" (assoc fpath sample_files);
  findAll factory := default [] (assoc factory sample_requires);
  parseId id :=
    default {| mod_name := ""; mod_version := ""; mod_entry := id |}
      (assoc id sample_ids);
  parse_error _ := None;
  format_paths paths := String.concat "," paths;
  path_join parts := default "" (assoc parts sample_joins);
  path_dirname p := default "." (assoc p sample_dirnames);
  path_relative _ fpath := default fpath (assoc fpath sample_relatives);
  path_resolve dir _ :=
    if String.eqb dir "/proj/node_modules/yen" then "/proj/node_modules" else "/"
|}.

(** [{ yen: { version: "1.2.4", dir: "/proj/node_modules/yen",
    main: "index.js", dependencies: {} } }], and an empty RequiredMap at
    address 3. *)
Definition yen_store : heap :=
  [ [("yen", VRef 1)];
    [("version", VStr "1.2.4"); ("dir", VStr "/proj/node_modules/yen");
     ("main", VStr "index.js"); ("dependencies", VRef 2)];
    [];
    [] ].

Definition sample_opts : bundle_opts :=
  {| opt_paths := ["/proj/components"];
     opt_root := "/proj";
     opt_dependenciesMap := VRef 0;
     opt_requiredMap := VRef 3;
     opt_dependencies := None;
     opt_factory := None |}.

(** A fresh top-level call: no ids, an empty route, the loader as the
    aggregate so far. *)
Definition sample_state : bundle_state :=
  {| ids := []; route := []; toplevel := Some [SOther "loader.js"];
     store := yen_store |}.

Definition def_main : definition :=
  {| def_id := "app/1.0.0/main"; def_dependencies := ["./lib/b"];
     def_factory := "require('./lib/b')"; def_filename := "components/main.js" |}.
Definition def_b : definition :=
  {| def_id := "app/1.0.0/lib/b"; def_dependencies := ["./c"];
     def_factory := "require('./c')"; def_filename := "components/lib/b.js" |}.
Definition def_c : definition :=
  {| def_id := "app/1.0.0/lib/c"; def_dependencies := [];
     def_factory := "exports.c = 1"; def_filename := "components/lib/c.js" |}.
Definition def_home : definition :=
  {| def_id := "app/1.0.0/home"; def_dependencies := ["yen"];
     def_factory := "require('yen')"; def_filename := "components/home.js" |}.
Definition def_yen : definition :=
  {| def_id := "yen/1.2.4/index"; def_dependencies := [];
     def_factory := "module.exports = yen";
     def_filename := "node_modules/yen/index.js" |}.

(** The place, in an aggregate, of the definition of [id]. *)
Fixpoint position (id : string) (ss : list stmt) : option nat :=
  match ss with
  | [] => None
  | SDefine d :: ss' =>
      if String.eqb (def_id d) id then Some 0 else S <$> position id ss'
  | SOther _ :: ss' => S <$> position id ss'
  end.

(** ** [Cache] of lib/Cache.js *)

(** *** File names and the two regular expressions *)

Definition chars (s : string) : list ascii := list_ascii_of_string s.
Definition text (cs : list ascii) : string := string_of_list_ascii cs.

Definition in_range (lo hi c : ascii) : bool :=
  Nat.leb (nat_of_ascii lo) (nat_of_ascii c) && Nat.leb (nat_of_ascii c) (nat_of_ascii hi).

(** [\w] *)
Definition is_word (c : ascii) : bool :=
  in_range "a" "z" c || in_range "A" "Z" c || in_range "0" "9" c
  || Ascii.eqb c "_".

(** [[0-9a-f]] *)
Definition is_hex (c : ascii) : bool :=
  in_range "0" "9" c || in_range "a" "f" c.

Definition is_hex32 (s : string) : bool :=
  Nat.eqb (length (chars s)) 32 && forallb is_hex (chars s).

(** The longest run of word characters at the front of a list, and what
    follows it. *)
Fixpoint span_word (cs : list ascii) : list ascii * list ascii :=
  match cs with
  | c :: cs' =>
      if is_word c then let '(w, rest) := span_word cs' in (c :: w, rest)
      else ([], cs)
  | [] => ([], [])
  end.

(** The match of [RE_EXT = /(\.\w+)$/] in a name: what precedes it and the
    extension, dot included.  A word character is never a dot, so the
    extension is the run of word characters that ends the name, and it
    must be non-empty and follow a dot. *)
Definition split_ext (s : string) : option (list ascii * list ascii) :=
  let '(w, rest) := span_word (reverse (chars s)) in
  match w, rest with
  | _ :: _, "."%char :: stem => Some (reverse stem, "."%char :: reverse w)
  | _, _ => None
  end.

(** [name.replace(RE_EXT, ins + '$1')], for an [ins] without [$] *)
Definition replace_ext (ins : string) (name : string) : string :=
  match split_ext name with
  | Some (stem, ext) => text (stem ++ chars ins ++ ext)
  | None => name
  end.

(** One alternative of [/-[0-9a-f]{32}(\.(?:js|css))$/]: the name ends
    with a dash, 32 hexadecimal digits and [ext]. *)
Definition strip_before (ext : list ascii) (cs : list ascii) : option (list ascii) :=
  let n := length cs in
  let k := length ext in
  let pre := take (n - 33 - k) cs in
  let mid := take 33 (drop (n - 33 - k) cs) in
  let suf := drop (n - k) cs in
  if Nat.leb (33 + k) n
     && bool_decide (head mid = Some "-"%char)
     && forallb is_hex (tail mid)
     && bool_decide (suf = ext)
  then Some (pre ++ ext)
  else None.

(** [entry.replace(/-[0-9a-f]{32}(\.(?:js|css))$/, '$1')] *)
Definition strip_checksum (entry : string) : string :=
  match strip_before (chars ".js") (chars entry) with
  | Some cs => text cs
  | None =>
      match strip_before (chars ".css") (chars entry) with
      | Some cs => text cs
      | None => entry
      end
  end.

(** *** Paths and the file system

    A path is the list of its segments, so that [path.join] is
    concatenation, [path.dirname] drops the last segment and
    [path.basename] is the last segment.  An id is a relative path such as
    [yen/1.2.4/index.js]; [RE_EXT] cannot match across a slash, so
    [id.replace(RE_EXT, ...)] rewrites the last segment. *)
Abbreviation path := (list string) (only parsing).

Definition basename (p : path) : string := default "" (last p).
Definition dirname (p : path) : path := removelast p.

Fixpoint map_last (f : string -> string) (p : path) : path :=
  match p with
  | [] => []
  | [name] => [f name]
  | s :: p' => s :: map_last f p'
  end.

Inductive fnode :=
| File (content : string)
| Dir.

(** The root [[]] is a directory and is not stored. *)
Abbreviation filesystem := (gmap (list string) fnode) (only parsing).

Definition is_dir (fs : filesystem) (p : path) : bool :=
  bool_decide (p = []) ||
  match fs !! p with
  | Some Dir => true
  | _ => false
  end.

Definition is_file (fs : filesystem) (p : path) : bool :=
  negb (bool_decide (p = [])) &&
  match fs !! p with
  | Some (File _) => true
  | _ => false
  end.

(** lib/fs.js wraps Node's [fs]; a failing call throws.  A file holds
    bytes; a string written to it is stored as its UTF-8 bytes, and a
    string of the model is given by these bytes. *)
Definition fs_exists (fs : filesystem) (p : path) : bool :=
  is_dir fs p || is_file fs p.

Definition fs_readFile (fs : filesystem) (p : path) : outcome string :=
  if is_file fs p then
    match fs !! p with
    | Some (File content) => Ok content
    | _ => Throw (Error "EISDIR")
    end
  else if is_dir fs p then Throw (Error "EISDIR")
  else Throw (Error "ENOENT").

(** What [readFile(p, encoding)] hands back for the bytes of a file: a
    [Buffer] when no encoding is given, the string the bytes stand for when
    the encoding is UTF-8, and the bytes decoded otherwise. *)
Inductive file_data :=
| Text (s : string)
| Buffer (bytes : string)
| Decoded (encoding : string) (bytes : string).

Definition lower (c : ascii) : ascii :=
  if in_range "A" "Z" c then ascii_of_nat (nat_of_ascii c + 32) else c.

Definition to_lower (s : string) : string := text (map lower (chars s)).

(** The names of UTF-8, which Node compares without regard to case. *)
Definition is_utf8 (encoding : string) : bool :=
  bool_decide (to_lower encoding ∈ ["utf8"; "utf-8"]).

(** The other encodings of [Buffer]. *)
Definition is_encoding (encoding : string) : bool :=
  bool_decide (to_lower encoding ∈
    ["ucs2"; "ucs-2"; "utf16le"; "utf-16le"; "latin1"; "binary"; "base64";
     "hex"; "ascii"]).

(** [undefined] is [None]; a falsy encoding is no encoding, and an unknown
    one is refused before the file is opened. *)
Definition fs_readFile_as (fs : filesystem) (p : path) (encoding : option string)
    : outcome file_data :=
  if truthy_string encoding then
    let e := default "" encoding in
    if is_utf8 e then bytes ← fs_readFile fs p; Ok (Text bytes)
    else if is_encoding e then bytes ← fs_readFile fs p; Ok (Decoded e bytes)
    else Throw (Error ("Unknown encoding: " +:+ e))
  else bytes ← fs_readFile fs p; Ok (Buffer bytes).

Definition fs_writeFile (fs : filesystem) (p : path) (content : string)
    : outcome filesystem :=
  if is_dir fs p then Throw (Error "EISDIR")
  else if is_dir fs (dirname p) then Ok (<[p := File content]> fs)
  else Throw (Error "ENOENT").

Definition fs_unlink (fs : filesystem) (p : path) : outcome filesystem :=
  if is_file fs p then Ok (delete p fs)
  else if is_dir fs p then Throw (Error "EISDIR")
  else Throw (Error "ENOENT").

Definition child_of (dir : path) (p : path) : option string :=
  match last p with
  | Some name => if decide (removelast p = dir) then Some name else None
  | None => None
  end.

(** The names in a directory, in some order. *)
Definition fs_readdir (fs : filesystem) (dir : path) : outcome (list string) :=
  if is_dir fs dir then Ok (omap (fun e => child_of dir e.1) (map_to_list fs))
  else if is_file fs dir then Throw (Error "ENOTDIR")
  else Throw (Error "ENOENT").

(** lib/mkdirp.js: make the directory and the ancestors it lacks. *)
Fixpoint mkdirp_from (base rest : path) (fs : filesystem) : outcome filesystem :=
  match rest with
  | [] => Ok fs
  | s :: rest' =>
      let p := base ++ [s] in
      if is_file fs p then Throw (Error "EEXIST")
      else mkdirp_from p rest' (<[p := Dir]> fs)
  end.

Definition mkdirp (fs : filesystem) (dir : path) : outcome filesystem :=
  mkdirp_from [] dir fs.

(** Every stored entry lies in a directory. *)
Definition fs_wf (fs : filesystem) : Prop :=
  forall p, is_Some (fs !! p) -> is_dir fs (dirname p) = true.

(** *** The cache *)

(** [crypto.createHash('md5').update(source).digest('hex')] *)
Class Hash := md5_hex : string -> string.

Record Cache := {
  dest : path;
  encoding : option string
}.

Definition cache_name `{Hash} (id : path) (source : string) : path :=
  map_last (replace_ext ("-" +:+ md5_hex source)) id.

(** [undefined] is [None]. *)
Definition Cache_read `{Hash} (c : Cache) (id : path) (source : string)
    (fs : filesystem) : outcome (option file_data) :=
  let fpath := dest c ++ cache_name id source in
  if fs_exists fs fpath then
    content ← fs_readFile_as fs fpath (encoding c);
    Ok (Some content)
  else Ok None.

Fixpoint remove_entries (dir : path) (fname : string) (entries : list string)
    (fs : filesystem) : outcome filesystem :=
  match entries with
  | [] => Ok fs
  | entry :: entries' =>
      fs' ← (if String.eqb (strip_checksum entry) fname
             then fs_unlink fs (dir ++ [entry])
             else Ok fs);
      remove_entries dir fname entries' fs'
  end.

Definition Cache_remove (c : Cache) (id : path) (fs : filesystem)
    : outcome filesystem :=
  let fname := basename id in
  let dir := dest c ++ dirname id in
  if negb (fs_exists fs dir) then Ok fs else
  entries ← fs_readdir fs dir;
  remove_entries dir fname entries fs.

Definition Cache_write `{Hash} (c : Cache) (id : path) (source content : string)
    (fs : filesystem) : outcome filesystem :=
  let fpath := dest c ++ cache_name id source in
  fs ← Cache_remove c id fs;
  fs ← mkdirp fs (dirname fpath);
  fs_writeFile fs fpath content.

Definition Cache_writeFile (c : Cache) (id : path) (content : string)
    (fs : filesystem) : outcome filesystem :=
  let fpath := dest c ++ id in
  fs ← mkdirp fs (dirname fpath);
  fs_writeFile fs fpath content.

(** A checksum-suffixed artifact of the file name [fname]: the name with a
    dash and 32 hexadecimal digits put before its extension. *)
Definition is_artifact (fname name : string) : Prop :=
  exists h, is_hex32 h = true /\ name = replace_ext ("-" +:+ h) fname.

Definition has_ext (ext : string) (fname : string) : Prop :=
  exists stem, split_ext fname = Some (stem, chars ext).

(** *** A sample cache

    The MD5 digests of the two sources used below. *)
#[global] Instance sample_md5 : Hash := fun source =>
  if String.eqb source "a" then "0cc175b9c0f1b6a831c399e269772661"
  else if String.eqb source "b" then "92eb5ffee6ae2fec3ad71c777531578f"
  else "d41d8cd98f00b204e9800998ecf8427e".

Definition sample_cache : Cache := {| dest := ["cache"]; encoding := Some "utf8" |}.

(** The cache reads its files as UTF-8. *)
Definition utf8_cache (c : Cache) : Prop :=
  exists e, encoding c = Some e /\ is_utf8 e = true.

(** A cache made without [opts.encoding]. *)
Definition raw_cache : Cache := {| dest := ["cache"]; encoding := None |}.

(** *** The artifact as the specification words it

    "[<dest>/<id>-<checksum>.<ext>]": the id under [dest], with a dash and
    the checksum put before the extension of its last segment.  An id whose
    last segment has no extension has no place for them. *)
Definition spec_artifact (dest id : path) (checksum : string) : path :=
  dest ++ dirname id ++
  [ match split_ext (basename id) with
    | Some (stem, ext) => text (stem ++ "-"%char :: chars checksum ++ ext)
    | None => basename id
    end ].

Definition empty_disk : gmap (list string) fnode := ∅.

Definition artifact_a : string := "index-0cc175b9c0f1b6a831c399e269772661.jsx".
Definition artifact_b : string := "index-92eb5ffee6ae2fec3ad71c777531578f.jsx".

(** ** The precompile queue of lib/Cache.js *)

(** [s.replace(/^\.\//, '')] *)
Definition strip_dot_slash (s : string) : string :=
  match s with
  | String "." (String "/" s') => s'
  | _ => s
  end.

(** [s.replace(RE_EXT, '')] *)
Definition strip_ext (s : string) : string :=
  match split_ext s with
  | Some (stem, _) => text stem
  | None => s
  end.

(** [opts.system.modules]: name, then version, then the [main] of the
    package data ([None] when it has none). *)
Record precompile_opts := {
  opt_system : gmap string (gmap string (option string));
  popt_dependenciesMap : value
}.

(** What a queued job closes over. *)
Record job := {
  job_mod : Module_;
  job_dependenciesMap : value;
  job_dest : list string
}.

Definition mod_key (m : Module_) : string :=
  mod_name m +:+ "/" +:+ mod_version m.

Definition job_key (j : job) : string := mod_key (job_mod j).

(** The arguments of the child process, after the script name:
    [--id], [--dest], [--paths], [--source-root]. *)
Record spawn_args := {
  sp_id : string;
  sp_dest : list string;
  sp_paths : list string;
  sp_source_root : string
}.

(** What a job asks of its surroundings before it spawns. *)
Class PrecompileEnv := {
  (** lib/findModule.js: where the module is installed, or [undefined] *)
  findModule_path : Module_ -> value -> option (list string);
  (** [fs.exists] *)
  probe_exists : list string -> bool;
  (** [(yield lstat(p)).isSymbolicLink()]; [None] when [lstat] fails *)
  probe_symlink : list string -> option bool;
  (** [path.join] of the name, the version and the entry, which puts
      slashes between them and normalises the result *)
  id_join : list string -> string
}.

(** [while (fpath && !/node_modules$/.test(fpath)) fpath = path.dirname(fpath)],
    on the segments of [fpath] in reverse.  At the root [path.dirname]
    returns the root again, and the loop does not end: [None]. *)
Fixpoint climb (rev_fpath : list string) : option (list string) :=
  match rev_fpath with
  | [] => None
  | s :: up =>
      if ends_with "node_modules" s then Some (reverse rev_fpath) else climb up
  end.

(** The generator [precompile(mod, opts)] up to its [yield spawn(...)].
    A generator that returns has printed [printed] with [console.error];
    what it hands to [debug] is not output of the program and is left
    out. *)
Inductive job_start :=
| StartHang
| StartReturn (printed : list string)
| StartThrow
| StartSpawn (args : spawn_args).

Definition precompile_start `{PrecompileEnv} (j : job) : job_start :=
  let m := job_mod j in
  match findModule_path m (job_dependenciesMap j) with
  | None => StartReturn ["Failed to find module " +:+ mod_name m]
  | Some fpath =>
      match climb (reverse fpath) with
      | None => StartHang
      | Some fpath =>
          if negb (probe_exists fpath) then
            StartReturn ["Failed to find module " +:+ mod_name m]
          else
            match probe_symlink (fpath ++ [mod_name m]) with
            | None => StartThrow
            | Some true => StartReturn []
            | Some false =>
                StartSpawn
                  {| sp_id := id_join [mod_name m; mod_version m;
                                       strip_ext (mod_entry m)];
                     sp_dest := job_dest j;
                     sp_paths := fpath;
                     sp_source_root := "/" |}
            end
      end
  end.

(** *** The scheduler

    [precompiling] is the module-level array of in-flight identities.
    [precompileQueue] is a chain of promises, each made by
    [precompileQueue.then(onFulfilled, onRejected)] from the one before:
    [pending] lists the jobs whose handlers have not fired yet, [settled]
    tells how the promise before the first of them was settled ([true]:
    fulfilled, as [Promise.resolve()] is), and [activity] is the job whose
    promise the chain is waiting for.  [spawned] records the child
    processes started.  [log] records the messages that [console.error]
    printed from the format strings of the code; the stack trace that
    [onRejected] prints after its message is text of the runtime and is not
    recorded. *)
Inductive activity :=
| Idle
| Waiting (j : job)
| Hung (j : job).

Record sched := {
  precompiling : list string;
  settled : bool;
  current : activity;
  pending : list job;
  spawned : list spawn_args;
  log : list string
}.

Definition sched_init : sched :=
  {| precompiling := []; settled := true; current := Idle; pending := [];
     spawned := []; log := [] |}.

(** [Cache.prototype.precompile]; the exception, if any, goes to the
    caller, the changes made before it stay. *)
Definition Cache_precompile (c : Cache) (m : Module_) (o : precompile_opts)
    (st : sched) : sched * outcome unit :=
  if bool_decide (mod_key m ∈ precompiling st) then (st, Ok ()) else
  let st :=
    {| precompiling := precompiling st ++ [mod_key m]; settled := settled st;
       current := current st; pending := pending st; spawned := spawned st;
       log := log st |} in
  match opt_system o !! mod_name m with
  | None => (st, Throw TypeError)
  | Some versions =>
      match versions !! mod_version m with
      | None => (st, Throw TypeError)
      | Some data_main =>
          let main :=
            if truthy_string data_main
            then strip_js (strip_dot_slash (default "" data_main))
            else "index" in
          if negb (String.eqb (main +:+ ".js") (mod_entry m)) then (st, Ok ())
          else
            ({| precompiling := precompiling st; settled := settled st;
                current := current st;
                pending := pending st ++
                  [ {| job_mod := m;
                       job_dependenciesMap := popt_dependenciesMap o;
                       job_dest := dest c |} ];
                spawned := spawned st; log := log st |},
             Ok ())
      end
  end.

(** The next handler of the chain fires.  After a fulfilled promise it is
    [onFulfilled], which starts the job; after a rejected one it is
    [onRejected], which prints its message (and the stack of the error) and
    returns. *)
Definition tick `{PrecompileEnv} (st : sched) : sched :=
  match current st, pending st with
  | Idle, j :: rest =>
      if settled st then
        match precompile_start j with
        | StartHang =>
            {| precompiling := precompiling st; settled := settled st;
               current := Hung j; pending := rest;
               spawned := spawned st; log := log st |}
        | StartReturn printed =>
            {| precompiling := precompiling st; settled := true;
               current := Idle; pending := rest;
               spawned := spawned st; log := log st ++ printed |}
        | StartThrow =>
            {| precompiling := precompiling st; settled := false;
               current := Idle; pending := rest;
               spawned := spawned st; log := log st |}
        | StartSpawn args =>
            {| precompiling := precompiling st; settled := settled st;
               current := Waiting j; pending := rest;
               spawned := spawned st ++ [args]; log := log st |}
        end
      else
        {| precompiling := precompiling st; settled := true;
           current := Idle; pending := rest; spawned := spawned st;
           log := log st ++
             ["Failed to cache " +:+ mod_name (job_mod j) +:+ "@"
              +:+ mod_version (job_mod j)] |}
  | _, _ => st
  end.

(** The child process of the running job exits.  With code 0 the
    generator goes on to its last lines and takes the identity out of
    [precompiling]; with another code [spawn] rejects and the generator
    ends there. *)
Definition child_exit (code : Z) (st : sched) : sched :=
  match current st with
  | Waiting j =>
      if bool_decide (code = 0%Z) then
        {| precompiling := filter (fun id => id <> job_key j) (precompiling st);
           settled := true; current := Idle; pending := pending st;
           spawned := spawned st; log := log st |}
      else
        {| precompiling := precompiling st; settled := false; current := Idle;
           pending := pending st; spawned := spawned st; log := log st |}
  | _ => st
  end.

Inductive event :=
| EPrecompile (m : Module_) (o : precompile_opts)
| ETick
| EExit (code : Z).

Definition step `{PrecompileEnv} (c : Cache) (st : sched) (e : event) : sched :=
  match e with
  | EPrecompile m o => (Cache_precompile c m o st).1
  | ETick => tick st
  | EExit code => child_exit code st
  end.

Definition run `{PrecompileEnv} (c : Cache) (events : list event) (st : sched) : sched :=
  foldl (step c) st events.

(** The jobs enqueued and not yet completed. *)
Definition in_flight (st : sched) : list job :=
  match current st with
  | Idle => []
  | Waiting j | Hung j => [j]
  end ++ pending st.

(** The jobs in flight have distinct identities, all in the in-flight
    set. *)
Definition sched_inv (st : sched) : Prop :=
  NoDup (job_key <$> in_flight st) /\
  forall j, j ∈ in_flight st -> job_key j ∈ precompiling st.

(** *** A sample: two packages, both found, neither a symbolic link *)
#[global] Instance sample_precompile_env : PrecompileEnv := {|
  findModule_path m _ := Some ["proj"; "node_modules"; mod_name m];
  probe_exists _ := true;
  probe_symlink _ := Some false;
  id_join parts := String.concat "/" parts
|}.

Definition mod_yen : Module_ :=
  {| mod_name := "yen"; mod_version := "1.2.4"; mod_entry := "index.js" |}.
Definition mod_ez : Module_ :=
  {| mod_name := "ez-editor"; mod_version := "0.2.4"; mod_entry := "index.js" |}.

Definition sample_system : precompile_opts :=
  {| opt_system :=
       {[ "yen" := {[ "1.2.4" := Some "index.js" ]};
          "ez-editor" := {[ "0.2.4" := None ]} ]};
     popt_dependenciesMap := VRef 0 |}.

Definition spawn_of (m : Module_) : spawn_args :=
  {| sp_id := mod_name m +:+ "/" +:+ mod_version m +:+ "/index";
     sp_dest := ["cache"];
     sp_paths := ["proj"; "node_modules"];
     sp_source_root := "/" |}.

(** ** Definitions for further properties *)

(** No dependency of the definition names a [heredoc] pseudo-module. *)
Definition no_heredoc (d : definition) : Prop :=
  Forall (fun dep => ends_with "heredoc" dep = false) (def_dependencies d).

(** The sample project bundled without a dependencies map, as
    [compileComponent] does when [includeModules] is false. *)
Definition own_code_opts : bundle_opts :=
  {| opt_paths := ["/proj/components"];
     opt_root := "/proj";
     opt_dependenciesMap := VUndefined;
     opt_requiredMap := VUndefined;
     opt_dependencies := None;
     opt_factory := None |}.

(** A project of two files: [a.js] requires [./b] and [b.js] requires
    [./a]; [b.js] is on disk only when [b_on_disk]. *)
Definition two_file_env (b_on_disk : bool) : BundleEnv := {|
  findComponent name paths :=
    if String.eqb name "a.js" then Some "/proj/components/a.js"
    else if String.eqb name "b.js" && b_on_disk then Some "/proj/components/b.js"
    else None;
  readFile fpath :=
    if String.eqb fpath "/proj/components/a.js" then "require('./b')"
    else "require('./a')";
  findAll factory :=
    if String.eqb factory "require('./b')" then ["./b"] else ["./a"];
  parseId id :=
    {| mod_name := "app"; mod_version := "1.0.0";
       mod_entry := if String.eqb id "app/1.0.0/a" then "a" else "b" |};
  parse_error _ := None;
  format_paths paths := String.concat "," paths;
  path_join parts :=
    match parts with
    | [_; "./b"] => "app/1.0.0/b"
    | _ => "app/1.0.0/a"
    end;
  path_dirname _ := "app/1.0.0";
  path_relative _ fpath :=
    if String.eqb fpath "/proj/components/a.js" then "components/a.js"
    else "components/b.js";
  path_resolve dir _ := dir
|}.

Definition cycle_env : BundleEnv := two_file_env true.
Definition broken_env : BundleEnv := two_file_env false.

Definition def_cycle_a : definition :=
  {| def_id := "app/1.0.0/a"; def_dependencies := ["./b"];
     def_factory := "require('./b')"; def_filename := "components/a.js" |}.
Definition def_cycle_b : definition :=
  {| def_id := "app/1.0.0/b"; def_dependencies := ["./a"];
     def_factory := "require('./a')"; def_filename := "components/b.js" |}.

(** What a call leaves of the route and, without a dependencies map, of
    the store. *)
Definition keeps (dm : value) (st st' : bundle_state) : Prop :=
  route st' = route st /\ (truthy dm = false -> store st' = store st).

(** The aggregate of [st'] is the one of [st] followed by definitions
    that name no [heredoc] dependency. *)
Definition adds_clean (st st' : bundle_state) : Prop :=
  exists new_defs,
    body st' = body st ++ (SDefine <$> new_defs) /\ Forall no_heredoc new_defs.

(** A fresh call over a dependencies map without entries. *)
Definition empty_map_state : bundle_state :=
  {| ids := []; route := []; toplevel := None; store := [[]; []] |}.

Definition empty_map_opts : bundle_opts :=
  {| opt_paths := ["/proj/components"];
     opt_root := "/proj";
     opt_dependenciesMap := VRef 0;
     opt_requiredMap := VRef 1;
     opt_dependencies := None;
     opt_factory := None |}.

(** A cache directory that already holds the artifact of [index.js]
    compiled from the source ["a"], and an unrelated file. *)
Definition disk_with_artifact : gmap (list string) fnode :=
  <[["cache"; "yen"; "1.2.4"; "index-0cc175b9c0f1b6a831c399e269772661.js"]
      := File "compiled a"]>
  (<[["cache"; "yen"; "1.2.4"; "other.js"] := File "other"]>
  (<[["cache"; "yen"; "1.2.4"] := Dir]>
  (<[["cache"; "yen"] := Dir]> (<[["cache"] := Dir]> empty_disk)))).

(** ** [_compileFile] of lib/compileAll.js *)

Definition newline : string := String (ascii_of_nat 10) "".

(** [p + suffix] for a path written as a string: the suffix goes to the
    last segment (the empty path is the empty string). *)
Definition append_name (suffix : string) (p : list string) : list string :=
  match p with
  | [] => [suffix]
  | _ => map_last (fun name => name +:+ suffix) p
  end.

(** The two writes of [yield [writeFile(...), writeFile(...)]] go to
    different files; they are taken in the order of the array. *)
Definition _compileFile (id dest : list string) (js map : string)
    (fs : gmap (list string) fnode) : outcome (gmap (list string) fnode) :=
  let assetPath := dest ++ append_name ".js" id in
  fs ← mkdirp fs (dirname assetPath);
  fs ← fs_writeFile fs assetPath
         (js +:+ newline +:+ "//# sourceMappingURL=./" +:+ basename id +:+ ".js.map");
  fs_writeFile fs (append_name ".map" assetPath) map.

(** ** The precompile queue: identities that stay marked *)

(** [data.main ? data.main.replace(/^\.\//, '').replace(/\.js$/, '') : 'index'],
    the main file of a package as [Cache.precompile] computes it. *)
Definition main_of (data_main : option string) : string :=
  if truthy_string data_main
  then strip_js (strip_dot_slash (default "" data_main))
  else "index".

(** The identity [k] is marked in flight and no enqueued job carries it. *)
Definition stuck (k : string) (st : sched) : Prop :=
  k ∈ precompiling st /\ forall j, j ∈ in_flight st -> job_key j <> k.

(** A file of [yen] that is not its main file. *)
Definition mod_yen_util : Module_ :=
  {| mod_name := "yen"; mod_version := "1.2.4"; mod_entry := "lib/util.js" |}.

(** A package that [system.modules] does not list. *)
Definition mod_unlisted : Module_ :=
  {| mod_name := "jquery"; mod_version := "1.11.3"; mod_entry := "index.js" |}.

(** The loop [while (fpath && !/node_modules$/.test(fpath)) fpath =
    path.dirname(fpath)] round by round, on a path that [findModule]
    returned.  Such a path is a non-empty string and so is every
    [path.dirname] of it; [path.dirname] of the root is the root.  The
    result is [None] when the loop is still running after [rounds]
    rounds. *)
Definition climb_test (fpath : list string) : bool :=
  match last fpath with
  | Some s => negb (ends_with "node_modules" s)
  | None => true
  end.

Fixpoint climb_loop (rounds : nat) (fpath : list string) : option (list string) :=
  if climb_test fpath then
    match rounds with
    | 0 => None
    | S rounds' => climb_loop rounds' (dirname fpath)
    end
  else Some fpath.

(** What holds of the arguments of every child process: [--dest] is the
    folder of the cache, [--paths] is an existing directory whose name ends
    in [node_modules], [--source-root] is [/]. *)
Definition spawn_ok `{PrecompileEnv} (c : Cache) (a : spawn_args) : Prop :=
  sp_dest a = dest c /\
  sp_source_root a = "/" /\
  (exists s, last (sp_paths a) = Some s /\ ends_with "node_modules" s = true) /\
  probe_exists (sp_paths a) = true.

(** ** [walk] of [compileAll] in lib/compileAll.js *)

(** A call of [compileModule] made by [walk]: the package it was made
    for, the id and the load path handed over. *)
Record compile_call := {
  call_name : string;
  call_version : string;
  call_id : string;
  call_paths : string
}.

Definition call_key (c : compile_call) : string * string :=
  (call_name c, call_version c).

(** [doneModules] maps a name to the versions done; [calls] lists the
    calls of [compileModule] made so far.  What [compileModule] does to the
    file system is not looked at: it is a function of a [world] that may
    throw. *)
Record walk_state (W : Type) := {
  doneModules : gmap string (gset string);
  calls : list compile_call;
  world : W
}.
Arguments doneModules {W} _.
Arguments calls {W} _.
Arguments world {W} _.
Arguments Build_walk_state {W} _ _ _.

(** A value used as a property key. *)
Definition to_key (v : value) : string :=
  match v with
  | VUndefined => "undefined"
  | VNull => "null"
  | VStr s => s
  | VRef _ => "[object Object]"
  end.

(** [(mod.main || 'index').replace(/\.js$/, '')]; an object has no
    [replace]. *)
Definition main_name (main : value) : outcome string :=
  if truthy main then
    match main with
    | VStr s => Ok (strip_js s)
    | _ => Throw TypeError
    end
  else Ok (strip_js "index").

(** The body of [for (const name in deps)] over the properties of [deps].
    [doneModules[name] || (doneModules[name] = {})] leaves no trace of its
    own: an iteration that goes on after it either finds the version done,
    and then the name was there, or stores the version under the name.
    [path.resolve] and [path.join] throw a TypeError on an argument that is
    not a string.  [rec] stands for the recursive call. *)
Fixpoint walk_entries `{BundleEnv} {W} (compileModule : string -> string -> W -> outcome W)
    (rec : value -> walk_state W -> outcome (walk_state W))
    (h : heap) (entries : list (string * value)) (st : walk_state W)
    : outcome (walk_state W) :=
  match entries with
  | [] => Ok st
  | (name, mod_) :: rest =>
      let doneModule := default ∅ (doneModules st !! name) in
      main ← get h mod_ "main";
      main ← main_name main;
      dir ← get h mod_ "dir";
      pkgBase ← match dir with
                | VStr dir => Ok (pkgBase_of name dir)
                | _ => Throw TypeError
                end;
      version ← get h mod_ "version";
      st' ← (if bool_decide (to_key version ∈ doneModule) then Ok st else
             match version with
             | VStr version =>
                 let id := path_join [name; version; main] in
                 w ← compileModule id pkgBase (world st);
                 deps ← get h mod_ "dependencies";
                 rec deps
                   {| doneModules :=
                        <[name := {[version]} ∪ doneModule]> (doneModules st);
                      calls := calls st ++
                        [ {| call_name := name; call_version := version;
                             call_id := id; call_paths := pkgBase |} ];
                      world := w |}
             | _ => Throw TypeError
             end);
      walk_entries compileModule rec h rest st'
  end.

(** [walk(deps)].  [for ... in] over [undefined], [null] or the empty
    string runs no iteration; over another string it meets a character,
    whose [dir] is [undefined].  [fuel] bounds the depth of the map. *)
Fixpoint walk `{BundleEnv} {W} (compileModule : string -> string -> W -> outcome W)
    (fuel : nat) (h : heap) (deps : value) (st : walk_state W)
    : outcome (walk_state W) :=
  match deps with
  | VUndefined | VNull => Ok st
  | VStr s => if String.eqb s "" then Ok st else Throw TypeError
  | VRef l =>
      match fuel with
      | 0 => OutOfFuel
      | S fuel' =>
          walk_entries compileModule (walk compileModule fuel' h) h
            (default [] (h !! l)) st
      end
  end.

(** [const doneModules = {}] *)
Definition fresh_walk {W} (w : W) : walk_state W :=
  {| doneModules := ∅; calls := []; world := w |}.

Definition done_version {W} (st : walk_state W) (name version : string) : Prop :=
  version ∈ default ∅ (doneModules st !! name).

(** Every call made so far was for a package version of its own, and its
    version is marked done. *)
Definition walk_inv {W} (st : walk_state W) : Prop :=
  NoDup (call_key <$> calls st) /\
  forall c, c ∈ calls st -> done_version st (call_name c) (call_version c).

(** [st'] has done whatever [st] has, and is as well formed. *)
Definition walk_grows {W} (st st' : walk_state W) : Prop :=
  (forall name version, done_version st name version -> done_version st' name version) /\
  (walk_inv st -> walk_inv st').

(** [{ a: { version: "1.0.0", .., dependencies: { b: B } }, b: B' }] where
    [B] and [B'] are two copies of [b] at version [2.0.0]. *)
Definition shared_store : heap :=
  [ [("a", VRef 1); ("b", VRef 3)];
    pkg_node "1.0.0" 2; [("b", VRef 4)];
    pkg_node "2.0.0" 5; pkg_node "2.0.0" 5; [] ].

(** A [compileModule] that succeeds and counts its calls. *)
Definition sample_compileModule (id paths : string) (w : nat) : outcome nat :=
  Ok (S w).
(** * Properties *)

(** ** The store *)

Lemma bounded_mono n m v : n <= m -> bounded n v = true -> bounded m v = true.
Proof.
  destruct v; simpl; auto.
  intros Hle Hb. apply bool_decide_eq_true in Hb. apply bool_decide_eq_true. lia.
Qed.

Lemma bounded_ref n l : bounded n (VRef l) = true <-> l < n.
Proof. simpl. apply bool_decide_eq_true. Qed.

Lemma closed_lookup h l o k v :
  closed h -> h !! l = Some o -> (k, v) ∈ o -> bounded (length h) v = true.
Proof.
  unfold closed. intros Hc Hl Hin.
  rewrite forallb_forall in Hc.
  assert (Ho : In o h) by (apply list_elem_of_In; eapply list_elem_of_lookup_2; eauto).
  specialize (Hc o Ho). rewrite forallb_forall in Hc.
  apply (Hc (k, v)). by apply list_elem_of_In.
Qed.

Lemma closed_intro h :
  (forall o k v, o ∈ h -> (k, v) ∈ o -> bounded (length h) v = true) -> closed h.
Proof.
  intros H. unfold closed. apply forallb_forall. intros o Ho.
  apply forallb_forall. intros [k v] Hkv. simpl.
  eapply H; apply list_elem_of_In; eauto.
Qed.

Lemma lookup_prop_elem k o :
  lookup_prop k o = VUndefined \/ (k, lookup_prop k o) ∈ o.
Proof.
  induction o as [|[k' v] o IH]; simpl; [by left|].
  destruct (String.eqb_spec k k') as [->|Hne].
  - right. left.
  - destruct IH as [IH|IH]; [by left|right; by right].
Qed.

Lemma get_bounded h v k x :
  closed h -> get h v k = Ok x -> bounded (length h) x = true.
Proof.
  intros Hc. destruct v as [| |s|l]; unfold get; try discriminate.
  - intros [= <-]. done.
  - destruct (h !! l) as [o|] eqn:Hl; intros [= <-]; [|done].
    destruct (lookup_prop_elem k o) as [->|Hin]; [done|].
    eapply closed_lookup; eauto.
Qed.

Lemma get_app h ext v k :
  bounded (length h) v = true -> get (h ++ ext) v k = get h v k.
Proof.
  destruct v as [| |s|l]; auto.
  intros Hb. apply bounded_ref in Hb. unfold get.
  rewrite lookup_app_l by done. done.
Qed.

Lemma reduce_app h ext r : forall v,
  closed h -> bounded (length h) v = true ->
  reduce (h ++ ext) v r = reduce h v r.
Proof.
  induction r as [|p r IH]; intros v Hc Hb; simpl; [done|].
  rewrite get_app by done.
  destruct (get h v "dependencies") as [deps| |] eqn:Hd; simpl; try done.
  assert (Hbd := get_bounded _ _ _ _ Hc Hd).
  rewrite get_app by done.
  destruct (get h deps p) as [x| |] eqn:Hx; simpl; try done.
  apply IH; [done|]. eapply get_bounded; eauto.
Qed.

Lemma closed_snoc h o :
  closed h -> (forall k v, (k, v) ∈ o -> bounded (length h) v = true) ->
  closed (h ++ [o]).
Proof.
  intros Hc Ho. apply closed_intro. intros o' k v Hin Hkv.
  rewrite length_app. simpl.
  apply elem_of_app in Hin as [Hin|Hin].
  - apply list_elem_of_lookup in Hin as [i Hi].
    eapply bounded_mono; [|eapply closed_lookup; eauto]. lia.
  - apply list_elem_of_singleton in Hin as ->.
    eapply bounded_mono; [|eapply Ho; eauto]. lia.
Qed.

(** ** JSON round trip *)

Lemma stringify_members_sound h rec o ms :
  (forall v j, (exists k, (k, v) ∈ o) -> rec v = Ok (Some j) -> denotes h v j) ->
  (forall v, rec v = Ok None -> v = VUndefined) ->
  stringify_members rec o = Ok ms -> denotes_members h o ms.
Proof.
  intros Hsome Hnone. revert ms Hsome.
  induction o as [|[k v] o IH]; intros ms Hsome; simpl.
  - intros [= <-]. constructor.
  - destruct (rec v) as [r| |] eqn:Hr; simpl; try discriminate.
    destruct (stringify_members rec o) as [ms'| |] eqn:Hms; simpl; try discriminate.
    intros [= <-].
    assert (Hrest : denotes_members h o ms').
    { apply IH; [|done]. intros v' j [k' Hk']. apply Hsome. exists k'. by right. }
    destruct r as [j|].
    + constructor; [|done]. apply Hsome; [|done]. exists k. left.
    + apply Hnone in Hr as ->. by constructor.
Qed.

Lemma stringify_none f h v : stringify f h v = Ok None -> v = VUndefined.
Proof.
  destruct f, v as [| |s|l]; simpl; try done.
  destruct (h !! l); [|done].
  destruct (stringify_members _ _); simpl; done.
Qed.

Lemma stringify_sound f : forall h v j,
  stringify f h v = Ok (Some j) -> denotes h v j.
Proof.
  induction f as [|f IH]; intros h v j; destruct v as [| |s|l]; simpl;
    try discriminate; try (intros [= <-]; constructor).
  destruct (h !! l) as [o|] eqn:Hl; [|done].
  destruct (stringify_members (stringify f h) o) as [ms| |] eqn:Hms;
    simpl; try discriminate.
  intros [= <-]. econstructor; [done|].
  eapply stringify_members_sound; [| |done].
  - intros v j _. apply IH.
  - apply stringify_none.
Qed.

Lemma denotes_ext h h' v j :
  denotes h v j ->
  (forall l, reach h v l -> h' !! l = h !! l) ->
  denotes h' v j.
Proof.
  intros D. revert h'.
  induction D using denotes_mind with
    (P0 := fun o ms _ => forall h',
       (forall k v l, (k, v) ∈ o -> reach h v l -> h' !! l = h !! l) ->
       denotes_members h' o ms); intros h' Hag.
  - constructor.
  - constructor.
  - econstructor.
    + rewrite Hag; [done|constructor].
    + apply IHD. intros k v l' Hin Hr. apply Hag. econstructor; eauto.
  - constructor.
  - constructor. apply IHD. intros k' v l Hin. apply (Hag k'). by right.
  - constructor.
    + apply IHD. intros l. apply (Hag k). left.
    + apply IHD0. intros k' v' l Hin. apply (Hag k'). by right.
Qed.

Lemma denotes_app h ext v j : denotes h v j -> denotes (h ++ ext) v j.
Proof.
  intros D. induction D using denotes_mind with
    (P0 := fun o ms _ => denotes_members (h ++ ext) o ms);
    try (by constructor).
  econstructor; [|done]. by apply lookup_app_l_Some.
Qed.

Lemma denotes_members_app h ext o ms :
  denotes_members h o ms -> denotes_members (h ++ ext) o ms.
Proof.
  induction 1; constructor; auto using denotes_app.
Qed.

Lemma reach_closed h ext v l :
  closed h -> bounded (length h) v = true -> reach (h ++ ext) v l -> l < length h.
Proof.
  intros Hc Hb R. induction R as [l|l o k v l' Hl Hin R IH].
  - by apply bounded_ref.
  - apply IH. apply bounded_ref in Hb.
    rewrite lookup_app_l in Hl by done. eapply closed_lookup; eauto.
Qed.

Lemma denotes_restrict h ext v j :
  closed h -> bounded (length h) v = true ->
  denotes (h ++ ext) v j -> denotes h v j.
Proof.
  intros Hc Hb D. eapply denotes_ext; [done|].
  intros l R. symmetry. apply lookup_app_l. eapply reach_closed; eauto.
Qed.

Lemma reach_above n h v l :
  (forall l o, n <= l -> h !! l = Some o -> obj_above n o) ->
  above n v -> reach h v l -> n <= l.
Proof.
  intros Hh Hv R. induction R as [l|l o k v l' Hl Hin R IH]; [done|].
  apply IH. eapply Hh; eauto.
Qed.

Lemma parse_spec :
  (forall j h h' v n, n <= length h -> parse j h = (h', v) ->
     exists ext, h' = h ++ ext /\ Forall (obj_above n) ext /\ above n v /\
                 bounded (length h') v = true /\ denotes h' v j) /\
  (forall ms h h' o n, n <= length h -> parse_members ms h = (h', o) ->
     exists ext, h' = h ++ ext /\ Forall (obj_above n) ext /\ obj_above n o /\
                 (forall k v, (k, v) ∈ o -> bounded (length h') v = true) /\
                 denotes_members h' o ms).
Proof.
  apply json_members_ind.
  - intros h h' v n Hn [= <- <-]. exists []. rewrite app_nil_r.
    repeat split; [constructor|constructor].
  - intros s h h' v n Hn [= <- <-]. exists []. rewrite app_nil_r.
    repeat split; [constructor|constructor].
  - intros ms IH h h' v n Hn. simpl.
    destruct (parse_members ms h) as [h1 o] eqn:Hp.
    destruct (IH _ _ _ n Hn Hp) as (ext & -> & Hext & Ho & Hb & D).
    unfold alloc. intros [= <- <-].
    exists (ext ++ [o]). rewrite app_assoc. repeat split.
    + apply Forall_app. split; [done|]. by constructor.
    + simpl. rewrite length_app. lia.
    + apply bounded_ref. rewrite !length_app. simpl. lia.
    + econstructor.
      * apply list_lookup_middle. done.
      * by apply denotes_members_app.
  - intros h h' o n Hn [= <- <-]. exists []. rewrite app_nil_r.
    repeat split; [constructor|intros k v Hin; by apply elem_of_nil in Hin
                  |intros k v Hin; by apply elem_of_nil in Hin|constructor].
  - intros k j IHj ms IHms h h' o n Hn. simpl.
    destruct (parse j h) as [h1 v] eqn:Hj.
    destruct (parse_members ms h1) as [h2 o'] eqn:Hms.
    intros [= <- <-].
    destruct (IHj _ _ _ n Hn Hj) as (e1 & -> & He1 & Hv & Hbv & Dv).
    assert (Hn' : n <= length (h ++ e1)) by (rewrite length_app; lia).
    destruct (IHms _ _ _ n Hn' Hms) as (e2 & -> & He2 & Ho & Hbo & Do).
    exists (e1 ++ e2). rewrite app_assoc. repeat split.
    + apply Forall_app. done.
    + intros k' v' Hin. apply elem_of_cons in Hin as [[= -> ->]|Hin]; [done|].
      eapply Ho; eauto.
    + intros k' v' Hin. apply elem_of_cons in Hin as [[= -> ->]|Hin].
      * eapply bounded_mono; [|done]. rewrite !length_app. lia.
      * eapply Hbo; eauto.
    + constructor; [|done]. by apply denotes_app.
Qed.

(** ** [findModule] *)

Lemma lookup_set_prop_eq k x o : lookup_prop k (set_prop k x o) = x.
Proof.
  induction o as [|[k' v] o IH]; simpl.
  - by rewrite String.eqb_refl.
  - destruct (String.eqb_spec k k') as [->|Hne]; simpl.
    + by rewrite String.eqb_refl.
    + destruct (String.eqb_spec k k'); [done|]. apply IH.
Qed.

Lemma lookup_set_prop_ne k k' x o :
  k <> k' -> lookup_prop k' (set_prop k x o) = lookup_prop k' o.
Proof.
  intros Hne. induction o as [|[k0 v] o IH]; simpl.
  - destruct (String.eqb_spec k' k); [congruence|done].
  - destruct (String.eqb_spec k k0) as [->|Hne0]; simpl.
    + destruct (String.eqb_spec k' k0); [congruence|done].
    + destruct (String.eqb_spec k' k0); [done|apply IH].
Qed.

Lemma attempt_app h ext dm r :
  closed h -> bounded (length h) dm = true ->
  attempt (h ++ ext) dm r = attempt h dm r.
Proof.
  intros Hc Hb. destruct r as [|p r]; simpl; [done|].
  rewrite get_app by done.
  destruct (get h dm p) as [v| |] eqn:Hv; simpl; try done.
  apply reduce_app; [done|]. eapply get_bounded; eauto.
Qed.

Lemma get_alloc h o k : get (h ++ [o]) (VRef (length h)) k = Ok (lookup_prop k o).
Proof. unfold get. by rewrite list_lookup_middle. Qed.

Lemma reduce_init h dm r :
  closed h -> bounded (length h) dm = true -> r <> [] ->
  reduce (h ++ [[("dependencies", dm)]]) (VRef (length h)) r = attempt h dm r.
Proof.
  intros Hc Hb Hr. destruct r as [|p r]; [done|]. simpl.
  rewrite get_alloc. simpl.
  rewrite get_app by done.
  destruct (get h dm p) as [v| |] eqn:Hv; simpl; try done.
  apply reduce_app; [done|]. eapply get_bounded; eauto.
Qed.

Lemma length_splice_m2_1 route :
  route <> [] -> S (length (splice_m2_1 route)) = length route.
Proof.
  intros Hr. unfold splice_m2_1.
  assert (0 < length route) by (destruct route; simpl; [done|lia]).
  rewrite length_app, length_take, length_drop. lia.
Qed.

Lemma truncations_unfold route :
  route <> [] -> truncations route = route :: truncations (splice_m2_1 route).
Proof.
  intros Hr. unfold truncations.
  rewrite <- (length_splice_m2_1 route Hr).
  destruct route; [done|]. reflexivity.
Qed.

Lemma findModule_loop_truthy fuel route result dm rm h :
  truthy result = true ->
  findModule_loop fuel route result dm rm h = Ok (h, result).
Proof. intros Ht. destruct fuel; simpl; by rewrite Ht. Qed.

(** What a successful copy step leaves behind, relative to the store [h]
    in which the round started. *)
Lemma copy_step h d s name entry h2 :
  closed h -> d < length h -> s < length h ->
  get h (VRef d) name = Ok entry ->
  ('(h', copy) ← JSON_copy h entry; set h' (VRef s) name copy) = Ok h2 ->
  exists copy j,
    get h2 (VRef s) name = Ok copy /\
    denotes h entry j /\ denotes h2 copy j /\
    (forall l, reach h2 copy l -> length h <= l) /\
    (forall l, l < length h -> l <> s -> h2 !! l = h !! l) /\
    (forall k, k <> name -> get h2 (VRef s) k = get h (VRef s) k).
Proof.
  intros Hc Hd Hs He. unfold JSON_copy, JSON_stringify.
  destruct (stringify (length h) h entry) as [[j|]| |] eqn:Hj; simpl; try done.
  destruct (parse j h) as [hp copy] eqn:Hp. simpl.
  destruct (proj1 parse_spec j h hp copy (length h) (le_n _) Hp)
    as (ext & -> & Hext & Hab & Hb & D).
  destruct (h !! s) as [o|] eqn:Ho; [|apply lookup_ge_None in Ho; lia].
  unfold set. rewrite (lookup_app_l_Some h ext s o Ho). intros [= <-].
  assert (Hfresh : forall l o', length h <= l ->
            <[s:=set_prop name copy o]> (h ++ ext) !! l = Some o' ->
            obj_above (length h) o').
  { intros l o' Hl. rewrite list_lookup_insert_ne by lia.
    rewrite lookup_app_r by done. intros Hin.
    eapply Forall_forall in Hext; [done|]. eapply list_elem_of_lookup_2; eauto. }
  exists copy, j. repeat split.
  - unfold get. rewrite list_lookup_insert_eq.
    + by rewrite lookup_set_prop_eq.
    + rewrite length_app. lia.
  - by apply stringify_sound in Hj.
  - eapply denotes_ext; [done|]. intros l R.
    apply list_lookup_insert_ne.
    assert (length h <= l); [|lia].
    eapply (reach_above (length h) (h ++ ext)); [|done|done].
    intros l0 o0 Hl0 Hin. rewrite lookup_app_r in Hin by done.
    eapply Forall_forall in Hext; [done|]. eapply list_elem_of_lookup_2; eauto.
  - intros l R. eapply reach_above; eauto.
  - intros l Hl Hne. rewrite list_lookup_insert_ne by done.
    by apply lookup_app_l.
  - intros k Hne. unfold get. rewrite list_lookup_insert_eq, ?Ho.
    + by rewrite lookup_set_prop_ne.
    + rewrite length_app. lia.
Qed.

Lemma findModule_loop_success fuel : forall route result0 h d s h' result,
  closed h -> d < length h -> s < length h ->
  truthy result0 = false ->
  findModule_loop fuel route result0 (VRef d) (VRef s) h = Ok (h', result) ->
  truthy result = true ->
  exists r name entry copy j,
    r ∈ truncations route /\ head r = Some name /\
    attempt h (VRef d) r = Ok result /\
    get h (VRef d) name = Ok entry /\
    get h' (VRef s) name = Ok copy /\
    denotes h entry j /\ denotes h' copy j /\
    (forall l, reach h' copy l -> length h <= l) /\
    (forall l, l < length h -> l <> s -> h' !! l = h !! l) /\
    (forall k, k <> name -> get h' (VRef s) k = get h (VRef s) k).
Proof.
  induction fuel as [|fuel IH]; intros route result0 h d s h' result Hc Hd Hs H0;
    simpl; rewrite H0.
  { destruct route; [|done]. intros [= <- <-]. congruence. }
  destruct route as [|name rt] eqn:Hroute; [intros [= <- <-]; congruence|].
  rewrite <- Hroute.
  assert (Hne : route <> []) by (subst; done).
  assert (Hbd : bounded (length h) (VRef d) = true) by by apply bounded_ref.
  rewrite reduce_init by done.
  destruct (attempt h (VRef d) route) as [result'| |] eqn:Hatt; simpl; try done.
  set (h1 := h ++ [[("dependencies", VRef d)]]).
  assert (Hc1 : closed h1).
  { apply closed_snoc; [done|]. intros k v Hin.
    apply list_elem_of_singleton in Hin as [= -> ->]. done. }
  assert (Hlen1 : length h1 = S (length h)).
  { unfold h1. rewrite length_app. simpl. lia. }
  destruct (truthy result') eqn:Ht; simpl.
  - (* this attempt resolves: copy the top-level entry, then leave the loop *)
    destruct (get h1 (VRef d) name) as [entry| |] eqn:He; simpl; try done.
    destruct ('(h'0, copy) ← JSON_copy h1 entry; set h'0 (VRef s) name copy)
      as [h2| |] eqn:Hcopy; simpl; try done.
    rewrite findModule_loop_truthy by done. intros [= <- <-] _.
    destruct (copy_step h1 d s name entry h2) as (copy & j & Hg & D1 & D2 & Hr & Hf & Hk);
      [done|lia|lia|done|done|].
    assert (He' : get h (VRef d) name = Ok entry).
    { unfold h1 in He. by rewrite get_app in He. }
    exists route, name, entry, copy, j. repeat split; try done.
    + rewrite truncations_unfold by done. left.
    + by subst route.
    + eapply denotes_restrict; [done| |exact D1]. eapply get_bounded; eauto.
    + intros l R. apply Hr in R. lia.
    + intros l Hl Hls. rewrite Hf by lia. by apply lookup_app_l.
    + intros k Hkn. rewrite Hk by done. unfold h1. apply get_app.
      by apply bounded_ref.
  - (* unresolved: drop a segment and retry *)
    intros Hloop Hres.
    assert (Hd1 : d < length h1) by lia.
    assert (Hs1 : s < length h1) by lia.
    destruct (IH _ _ _ _ _ _ _ Hc1 Hd1 Hs1 Ht Hloop Hres)
      as (r & nm & entry & copy & j & Hin & Hhd & Ha & He & Hg & D1 & D2 & Hr & Hf & Hk).
    exists r, nm, entry, copy, j. repeat split; try done.
    + rewrite truncations_unfold by done. by right.
    + unfold h1 in Ha. by rewrite attempt_app in Ha.
    + unfold h1 in He. by rewrite get_app in He.
    + eapply denotes_restrict; [done| |exact D1].
      unfold h1 in He. rewrite get_app in He by done. eapply get_bounded; eauto.
    + intros l R. apply Hr in R. lia.
    + intros l Hl Hls. rewrite Hf by lia. by apply lookup_app_l.
    + intros k Hkn. rewrite Hk by done. unfold h1. apply get_app.
      by apply bounded_ref.
Qed.

(** C10: [findModule] is not total.  When the first segment of a route of
    two or more segments is not a key of the dependencies map, the walk
    reads [undefined.dependencies] and the call ends in a TypeError; it
    returns neither a falsy result nor any other signal. *)
Theorem findModule_TypeError_missing_segment h d o p q rest requiredMap :
  h !! d = Some o ->
  lookup_prop p o = VUndefined ->
  findModule (p :: q :: rest) (VRef d) requiredMap h = Throw TypeError.
Proof.
  intros Hd Hp.
  assert (Hg : forall ext, get (h ++ ext) (VRef d) p = Ok VUndefined).
  { intros ext. unfold get. by rewrite (lookup_app_l_Some _ _ _ _ Hd), Hp. }
  unfold findModule. simpl. rewrite get_alloc. simpl. rewrite Hg. reflexivity.
Qed.

Lemma findModule_TypeError_missing_segment_witness :
  findModule ["zz"; "c"] (VRef 0) (VRef 7) hoisted_store = Throw TypeError.
Proof.
  apply (findModule_TypeError_missing_segment hoisted_store 0
           [("a", VRef 1); ("b", VRef 3); ("c", VRef 5)]); reflexivity.
Defined.

(** C2, at the input where the code departs from it.  With [a], [b] and
    [c] all hoisted to the top level and the route [a, b, c], the lookup as
    specified drops segments until [c] is found at the top level, the node a
    direct lookup of [c] returns.  The code stops in the first attempt:
    [a.dependencies.b] is [undefined] and reading its [dependencies]
    throws. *)
Theorem findModule_hoisted_route_throws :
  findModule ["a"; "b"; "c"] (VRef 0) VUndefined hoisted_store = Throw TypeError /\
  spec_findModule hoisted_store (VRef 0) ["a"; "b"; "c"] = Some (VRef 5) /\
  get hoisted_store (VRef 0) "c" = Ok (VRef 5).
Proof. repeat split; reflexivity. Qed.

(** C3, as stated, fails: for the route [a, b] with [b] installed below
    [a], the resolved node is [b], but the RequiredMap gets, under the key
    [a], a copy of the whole top-level entry of [a]; it gets nothing under
    [b], and the stored tree differs from the resolved node. *)
Lemma findModule_sink_holds_ancestor :
  match findModule ["a"; "b"] (VRef 0) (VRef 5) nested_store with
  | Ok (h', result) =>
      result = VRef 3 /\
      JSON_stringify h' result = Ok (Some (json_node "2.0.0" MNil)) /\
      (copy ← get h' (VRef 5) "a"; JSON_stringify h' copy) =
        Ok (Some (json_node "1.0.0" (MCons "b" (json_node "2.0.0" MNil) MNil))) /\
      get h' (VRef 5) "b" = Ok VUndefined /\
      json_node "1.0.0" (MCons "b" (json_node "2.0.0" MNil) MNil)
        <> json_node "2.0.0" MNil
  | _ => False
  end.
Proof. vm_compute. repeat split; discriminate. Qed.

(** C3, amended.  When [findModule] succeeds and a RequiredMap was given,
    the attempt that resolved walked some truncation [r] of the route; the
    RequiredMap then holds, under the first segment [name] of [r], a deep
    copy of the top-level entry [dependenciesMap[name]] (which is the
    resolved node only when [r] is a single segment).  The copy denotes the
    same JSON tree as that entry, every object it is made of was created by
    the call, and the call changed no older object but the RequiredMap,
    where it changed no other key. *)
Theorem findModule_stores_copy h route d s h' result :
  closed h -> d < length h -> s < length h ->
  findModule route (VRef d) (VRef s) h = Ok (h', result) ->
  truthy result = true ->
  exists r name entry copy j,
    r ∈ truncations route /\ head r = Some name /\
    attempt h (VRef d) r = Ok result /\
    get h (VRef d) name = Ok entry /\
    get h' (VRef s) name = Ok copy /\
    denotes h entry j /\ denotes h' copy j /\
    (forall l, reach h' copy l -> length h <= l) /\
    (forall l, l < length h -> l <> s -> h' !! l = h !! l) /\
    (forall k, k <> name -> get h' (VRef s) k = get h (VRef s) k).
Proof.
  intros Hc Hd Hs Hf Ht. unfold findModule in Hf.
  exact (findModule_loop_success _ _ VNull _ _ _ _ _ Hc Hd Hs eq_refl Hf Ht).
Qed.

Lemma findModule_stores_copy_witness :
  exists h' result,
    findModule ["a"; "b"] (VRef 0) (VRef 5) nested_store = Ok (h', result) /\
    exists r name entry copy j,
      r ∈ truncations ["a"; "b"] /\ head r = Some name /\
      attempt nested_store (VRef 0) r = Ok result /\
      get nested_store (VRef 0) name = Ok entry /\
      get h' (VRef 5) name = Ok copy /\
      denotes nested_store entry j /\ denotes h' copy j /\
      (forall l, reach h' copy l -> length nested_store <= l) /\
      (forall l, l < length nested_store -> l <> 5 -> h' !! l = nested_store !! l) /\
      (forall k, k <> name -> get h' (VRef 5) k = get nested_store (VRef 5) k).
Proof.
  eexists _, _. split; [vm_compute; reflexivity|].
  apply (findModule_stores_copy nested_store ["a"; "b"] 0 5);
    [reflexivity | simpl; lia | simpl; lia | reflexivity | reflexivity].
Defined.

(** *** Agreement with the specified lookup whenever the code returns *)

Lemma attempt_spec_walk h r : forall dm v,
  r <> [] -> attempt h dm r = Ok v ->
  spec_walk h dm r = if truthy v then Some v else None.
Proof.
  induction r as [|p r IH]; intros dm v Hne; [done|]. simpl.
  destruct (get h dm p) as [v1| |] eqn:Hv1; simpl; try done.
  destruct r as [|p' r].
  - simpl. intros [= <-]. done.
  - change (reduce h v1 (p' :: r))
      with (deps ← get h v1 "dependencies"; attempt h deps (p' :: r)).
    destruct (get h v1 "dependencies") as [deps| |] eqn:Hdeps; simpl; try done.
    intros Ha. destruct (truthy v1) eqn:Ht1.
    + by apply IH.
    + destruct v1 as [| |s|l]; try done.
      unfold get in Hdeps. injection Hdeps as <-. done.
Qed.

Lemma spec_walk_app h ext r : forall dm,
  closed h -> bounded (length h) dm = true ->
  spec_walk (h ++ ext) dm r = spec_walk h dm r.
Proof.
  induction r as [|p r IH]; intros dm Hc Hb; [done|]. simpl.
  rewrite get_app by done.
  destruct (get h dm p) as [v| |] eqn:Hv; try done.
  destruct (truthy v); [|done]. destruct r as [|p' r]; [done|].
  assert (Hbv : bounded (length h) v = true) by (eapply get_bounded; eauto).
  rewrite get_app by done.
  destruct (get h v "dependencies") as [deps| |] eqn:Hd; try done.
  apply IH; [done|]. eapply get_bounded; eauto.
Qed.

Lemma spec_findModule_aux_app n h ext dm : forall route,
  closed h -> bounded (length h) dm = true ->
  spec_findModule_aux n (h ++ ext) dm route = spec_findModule_aux n h dm route.
Proof.
  induction n as [|n IH]; intros route Hc Hb; simpl;
    rewrite spec_walk_app by done; [done|].
  destruct (spec_walk h dm route); [done|].
  case_bool_decide; [|done]. by apply IH.
Qed.

Lemma findModule_loop_spec fuel : forall route result0 h d rm h' v,
  closed h -> d < length h ->
  truthy result0 = false ->
  findModule_loop fuel route result0 (VRef d) rm h = Ok (h', v) ->
  spec_findModule_aux fuel h (VRef d) route = if truthy v then Some v else None.
Proof.
  induction fuel as [|fuel IH]; intros route result0 h d rm h' v Hc Hd H0;
    simpl; rewrite H0.
  { destruct route; [|done]. intros [= <- <-]. by rewrite H0. }
  destruct route as [|name rt] eqn:Hroute; [intros [= <- <-]; by rewrite H0|].
  rewrite <- Hroute.
  assert (Hne : route <> []) by (subst; done).
  assert (Hbd : bounded (length h) (VRef d) = true) by by apply bounded_ref.
  rewrite reduce_init by done.
  destruct (attempt h (VRef d) route) as [result'| |] eqn:Hatt; simpl; try done.
  rewrite (attempt_spec_walk _ _ _ _ Hne Hatt).
  destruct (truthy result') eqn:Ht; simpl.
  - match goal with
    | |- mbind _ ?m = _ -> _ => destruct m as [h2| |]; simpl; try done
    end.
    rewrite findModule_loop_truthy by done. intros [= <- <-]. by rewrite Ht.
  - intros Hloop. case_bool_decide as Hlen.
    + rewrite <- (spec_findModule_aux_app _ h [[("dependencies", VRef d)]])
        by done.
      eapply IH; [| |exact Ht|exact Hloop].
      * apply closed_snoc; [done|]. intros k x Hin.
        apply list_elem_of_singleton in Hin as [= -> ->]. done.
      * rewrite length_app. simpl. lia.
    + assert (Hs : splice_m2_1 route = []).
      { pose proof (length_splice_m2_1 route Hne) as Hl.
        destruct (splice_m2_1 route); [done|]. simpl in Hl.
        subst route. simpl in *. lia. }
      rewrite Hs in Hloop.
      destruct fuel; simpl in Hloop; rewrite Ht in Hloop;
        injection Hloop as <- <-; by rewrite Ht.
Qed.

(** Whenever [findModule] returns at all, it returns what the specified
    lookup finds (a falsy result standing for "unresolved"). *)
Lemma findModule_agrees_with_spec h route d requiredMap h' v :
  closed h -> d < length h ->
  findModule route (VRef d) requiredMap h = Ok (h', v) ->
  spec_findModule h (VRef d) route = if truthy v then Some v else None.
Proof.
  intros Hc Hd Hf. unfold spec_findModule.
  exact (findModule_loop_spec _ _ VNull _ _ _ _ _ Hc Hd eq_refl Hf).
Qed.

(** ** The bundler *)

Lemma extends_refl st : extends st st.
Proof. exists [], []. simpl. by rewrite app_nil_r. Qed.

Lemma extends_trans st1 st2 st3 : extends st1 st2 -> extends st2 st3 -> extends st1 st3.
Proof.
  intros (i1 & d1 & Hi1 & Hb1 & Hd1 & Hn1) (i2 & d2 & Hi2 & Hb2 & Hd2 & Hn2).
  exists (i2 ++ i1), (d1 ++ d2). repeat split.
  - by rewrite Hi2, Hi1, app_assoc.
  - by rewrite Hb2, Hb1, fmap_app, app_assoc.
  - by rewrite fmap_app, reverse_app, Hd1, Hd2.
  - auto.
Qed.

Lemma extends_same st st' :
  ids st' = ids st -> body st' = body st -> extends st st'.
Proof.
  intros Hi Hb. exists [], []. simpl. rewrite app_nil_r, Hi. done.
Qed.

(** One inclusion: the id in front of [ids], its definition at the end of
    the aggregate. *)
Lemma extends_include st d :
  def_id d ∉ ids st ->
  extends st (set_toplevel (Some (body st ++ [SDefine d]))
                (set_ids (def_id d :: ids st) st)).
Proof.
  intros Hnew. exists [def_id d], [d]. repeat split.
  intros Hnd. simpl. by constructor.
Qed.

Lemma definitions_app xs ys : definitions (xs ++ ys) = definitions xs ++ definitions ys.
Proof.
  induction xs as [|[d|c] xs IH]; simpl; [done| |done]. by rewrite IH.
Qed.

Lemma definitions_SDefine ds : definitions (SDefine <$> ds) = ds.
Proof. induction ds as [|d ds IH]; [done|]. rewrite fmap_cons. simpl. by rewrite IH. Qed.

Lemma bundle_inv_extends st st' : bundle_inv st -> extends st st' -> bundle_inv st'.
Proof.
  intros [Hdefs Hnd] (new_ids & new_defs & Hi & Hb & Hd & Hn). split; [|auto].
  rewrite Hb, definitions_app, definitions_SDefine, fmap_app, Hdefs, Hd, Hi.
  by rewrite reverse_app.
Qed.

Lemma extends_ids st st' id : extends st st' -> id ∈ ids st -> id ∈ ids st'.
Proof.
  intros (new_ids & new_defs & Hi & _) Hin. rewrite Hi. apply elem_of_app. by right.
Qed.

Section ClosureProps.
Context `{BundleEnv}.
Variable opts : bundle_opts.
Variable append_rec :
  string -> option (list string) -> option string -> bundle_state -> outcome bundle_state.
Variable bundle_rec : string -> bundle_opts -> bundle_state -> outcome bundle_state.
Hypothesis append_rec_extends : forall id deps factory st st',
  append_rec id deps factory st = Ok st' -> extends st st'.
Hypothesis bundle_rec_extends : forall main opts' st st',
  bundle_rec main opts' st = Ok st' -> extends st st'.

Lemma appendModule_extends name st st' :
  appendModule opts bundle_rec name st = Ok st' -> extends st st'.
Proof.
  unfold appendModule.
  destruct (findModule _ _ _ _) as [[h data]| |]; simpl; try done.
  destruct (truthy data); simpl; [|done].
  destruct (get h data "version") as [version| |]; simpl; try done.
  destruct (get h data "main") as [main| |]; simpl; try done.
  destruct (get h data "dir") as [dir| |]; simpl; try done.
  destruct version, main, dir; try done.
  intros Hb. apply bundle_rec_extends in Hb.
  eapply extends_trans; [|exact Hb]. by apply extends_same.
Qed.

Lemma satisfy_extends mod_ id deps : forall st st',
  satisfy opts append_rec bundle_rec mod_ id deps st = Ok st' -> extends st st'.
Proof.
  induction deps as [|dep deps IH]; intros st st'; simpl.
  { intros [= <-]. apply extends_refl. }
  match goal with
  | |- mbind _ ?m = _ -> _ => destruct m as [st1| |] eqn:Hstep; simpl; try done
  end.
  intros Hrest. apply IH in Hrest.
  eapply extends_trans; [|exact Hrest]. clear Hrest.
  destruct (starts_with_dot dep); [by eapply append_rec_extends|].
  destruct (findComponent _ _); [by eapply append_rec_extends|].
  destruct (truthy _); [|injection Hstep as <-; apply extends_refl].
  destruct (appendModule _ _ _ _) as [st2| |] eqn:Hm; simpl in Hstep; try done.
  injection Hstep as <-. apply appendModule_extends in Hm.
  eapply extends_trans; [|eapply extends_trans; [exact Hm|]]; by apply extends_same.
Qed.

(** [append]: nothing for an id already included; otherwise the id and
    its definition first, then whatever its dependencies bring. *)
Lemma append_body_spec id deps factory st st' :
  append_body opts append_rec bundle_rec id deps factory st = Ok st' ->
  (id ∈ ids st /\ st' = st) \/
  ((id ∉ ids st) /\ exists d,
     def_id d = id /\
     extends (set_toplevel (Some (body st ++ [SDefine d])) (set_ids (id :: ids st) st)) st').
Proof.
  unfold append_body. case_bool_decide as Hin.
  { intros [= <-]. by left. }
  destruct (opt_paths opts) as [|p0 ps]; [done|].
  match goal with
  | |- match ?src with _ => _ end = _ -> _ => destruct src as [text|]; [|done]
  end.
  unfold UglifyJS_parse. simpl.
  destruct (parse_error text); simpl; [done|].
  intros Hs. apply satisfy_extends in Hs.
  right. split; [done|]. eexists. split; [|exact Hs]. done.
Qed.

Lemma append_body_extends id deps factory st st' :
  append_body opts append_rec bundle_rec id deps factory st = Ok st' ->
  extends st st' /\ id ∈ ids st'.
Proof.
  intros Ha. apply append_body_spec in Ha as [[Hin ->]|(Hnew & d & <- & Hext)].
  - split; [apply extends_refl|done].
  - split.
    + eapply extends_trans; [|exact Hext]. by apply extends_include.
    + eapply extends_ids; [exact Hext|]. simpl. left.
Qed.

End ClosureProps.

Lemma append_bundle_extends `{BundleEnv} fuel :
  (forall opts id deps factory st st',
     append fuel opts id deps factory st = Ok st' -> extends st st') /\
  (forall main opts st st',
     _bundle fuel main opts st = Ok st' -> extends st st').
Proof.
  induction fuel as [|fuel [IHa IHb]]; [split; intros; done|]. split.
  - intros opts id deps factory st st' Ha. simpl in Ha.
    eapply append_body_extends; [| |exact Ha]; eauto.
  - intros main opts st st' Hb. simpl in Hb. eauto.
Qed.

Lemma filter_eq_absent (l : list string) x :
  x ∉ l -> filter (fun y => y = x) l = [].
Proof.
  induction l as [|y l IH]; intros Hx; [done|].
  apply not_elem_of_cons in Hx as [Hne Hx].
  rewrite filter_cons. case_decide; [congruence|auto].
Qed.

Lemma NoDup_count_one (l : list string) x :
  NoDup l -> x ∈ l -> length (filter (fun y => y = x) l) = 1.
Proof.
  induction 1 as [|y l Hy Hnd IH]; intros Hin; [by apply elem_of_nil in Hin|].
  rewrite filter_cons. case_decide as Heq.
  - subst y. simpl. by rewrite filter_eq_absent.
  - apply IH. apply elem_of_cons in Hin as [->|Hin]; done.
Qed.

Lemma count_definitions_ids id ds :
  length (filter (fun d => def_id d = id) ds) =
  length (filter (fun y => y = id) (def_id <$> ds)).
Proof.
  induction ds as [|d ds IH]; [done|].
  rewrite fmap_cons, !filter_cons. repeat case_decide; simpl; congruence.
Qed.

Lemma bundle_inv_count st id :
  bundle_inv st -> id ∈ ids st -> count_definitions id st = 1.
Proof.
  intros [Hdefs Hnd] Hin. unfold count_definitions.
  rewrite count_definitions_ids, Hdefs.
  apply NoDup_count_one; [by rewrite reverse_Permutation|by apply elem_of_reverse].
Qed.

Lemma append_included_noop `{BundleEnv} fuel opts id deps factory st :
  id ∈ ids st -> append (S fuel) opts id deps factory st = Ok st.
Proof. intros Hin. simpl. unfold append_body. by rewrite bool_decide_eq_true_2. Qed.

Lemma append_extends `{BundleEnv} fuel opts id deps factory st st' :
  append fuel opts id deps factory st = Ok st' -> extends st st' /\ id ∈ ids st'.
Proof.
  destruct fuel as [|fuel]; [done|]. simpl. intros Ha.
  destruct (append_bundle_extends fuel) as [IHa IHb].
  eapply append_body_extends; [| |exact Ha]; eauto.
Qed.

(** C4: [append] is idempotent per id.  After [append] has returned for
    [id], the aggregate holds exactly one definition of [id]; appending
    [id] again, under any options and with any arguments, changes nothing;
    and whatever is appended later, the aggregate keeps exactly one
    definition of [id]. *)
Theorem append_idempotent `{BundleEnv} fuel opts id deps factory st st' :
  bundle_inv st ->
  append fuel opts id deps factory st = Ok st' ->
  count_definitions id st' = 1 /\
  (forall fuel2 opts2 deps2 factory2,
     append (S fuel2) opts2 id deps2 factory2 st' = Ok st') /\
  (forall fuel3 opts3 id3 deps3 factory3 st'',
     append fuel3 opts3 id3 deps3 factory3 st' = Ok st'' ->
     count_definitions id st'' = 1).
Proof.
  intros Hinv Ha. apply append_extends in Ha as [Hext Hin].
  assert (Hinv' := bundle_inv_extends _ _ Hinv Hext).
  repeat split.
  - by apply bundle_inv_count.
  - intros. by apply append_included_noop.
  - intros fuel3 opts3 id3 deps3 factory3 st'' Ha3.
    apply append_extends in Ha3 as [Hext3 _].
    apply bundle_inv_count; [by eapply bundle_inv_extends|by eapply extends_ids].
Qed.

Lemma append_idempotent_witness :
  exists st',
    append 10 sample_opts "app/1.0.0/main" None None sample_state = Ok st' /\
    count_definitions "app/1.0.0/main" st' = 1 /\
    (forall fuel2 opts2 deps2 factory2,
       append (S fuel2) opts2 "app/1.0.0/main" deps2 factory2 st' = Ok st') /\
    (forall fuel3 opts3 id3 deps3 factory3 st'',
       append fuel3 opts3 id3 deps3 factory3 st' = Ok st'' ->
       count_definitions "app/1.0.0/main" st'' = 1).
Proof.
  eexists. split; [vm_compute; reflexivity|].
  apply (append_idempotent 10 sample_opts "app/1.0.0/main" None None sample_state).
  - split; [reflexivity|constructor].
  - vm_compute. reflexivity.
Defined.

(** *** Order of the aggregate *)

Lemma bind_Ok_r {A} (m : outcome A) : (x ← m; Ok x) = m.
Proof. by destruct m. Qed.

Lemma append_source `{BundleEnv} fuel opts id d st :
  has_source opts id d -> id ∉ ids st ->
  append (S fuel) opts id None None st =
  satisfy opts (append fuel opts) (_bundle fuel) (parseId id) id (def_dependencies d)
    (set_toplevel (Some (body st ++ [SDefine d])) (set_ids (id :: ids st) st)).
Proof.
  intros (p0 & ps & fpath & Hp & Hf & Hpe & ->) Hnew. simpl.
  unfold append_body. rewrite bool_decide_eq_false_2 by done.
  rewrite Hp in *. simpl. rewrite Hf. simpl.
  unfold UglifyJS_parse. simpl. rewrite Hpe. reflexivity.
Qed.

Lemma satisfy_single `{BundleEnv} opts arec brec id dep target st :
  resolves_to opts id dep target ->
  satisfy opts arec brec (parseId id) id [dep] st = arec target None None st.
Proof.
  intros [[Hdot ->]|(Hdot & [f Hf] & ->)]; simpl; rewrite Hdot, ?Hf;
    apply bind_Ok_r.
Qed.

(** Every [append] of an id not yet included puts the definition of that
    id into the aggregate before the definitions of all the modules it
    goes on to include. *)
Lemma append_emits_dependent_first `{BundleEnv} fuel opts id deps factory st st' :
  append fuel opts id deps factory st = Ok st' ->
  id ∉ ids st ->
  exists d later_ids later_defs,
    def_id d = id /\
    ids st' = later_ids ++ id :: ids st /\
    body st' = body st ++ SDefine d :: (SDefine <$> later_defs) /\
    def_id <$> later_defs = reverse later_ids.
Proof.
  destruct fuel as [|fuel]; [done|]. simpl. intros Ha Hnew.
  destruct (append_bundle_extends fuel) as [IHa IHb].
  apply append_body_spec in Ha as [[Hin _]|(_ & d & Hd & Hext)]; eauto; [done|].
  destruct Hext as (later_ids & later_defs & Hi & Hb & Hdefs & _).
  exists d, later_ids, later_defs. unfold body in *. simpl in *.
  rewrite Hi, Hb, <- app_assoc. done.
Qed.

(** C1, amended: the aggregate lists dependents first.  For a chain
    A -> B -> C of relative or same-package specifiers whose three modules
    are not yet included, [_bundle] succeeds, appends the definitions of A,
    B and C to the aggregate in this order, and leaves C, B, A in front of
    [ids]. *)
Theorem bundle_chain_order `{BundleEnv} opts A B C dA dB dC depB depC st fuel :
  opt_dependencies opts = None -> opt_factory opts = None ->
  has_source opts A dA -> def_dependencies dA = [depB] -> resolves_to opts A depB B ->
  has_source opts B dB -> def_dependencies dB = [depC] -> resolves_to opts B depC C ->
  has_source opts C dC -> def_dependencies dC = [] ->
  A <> B -> B <> C -> A <> C ->
  A ∉ ids st -> B ∉ ids st -> C ∉ ids st ->
  exists st',
    _bundle (4 + fuel) A opts st = Ok st' /\
    body st' = body st ++ [SDefine dA; SDefine dB; SDefine dC] /\
    ids st' = C :: B :: A :: ids st.
Proof.
  intros Hdeps Hfac HA HdA HAB HB HdB HBC HC HdC Hab Hbc Hac HAn HBn HCn.
  change (4 + fuel) with (S (S (S (S fuel)))).
  cbn [_bundle]. rewrite Hdeps, Hfac.
  rewrite (append_source _ _ _ _ _ HA HAn), HdA.
  rewrite (satisfy_single _ _ _ _ _ _ _ HAB).
  rewrite (append_source _ _ _ _ _ HB), HdB.
  2:{ simpl. apply not_elem_of_cons. done. }
  rewrite (satisfy_single _ _ _ _ _ _ _ HBC).
  rewrite (append_source _ _ _ _ _ HC), HdC.
  2:{ simpl. rewrite !not_elem_of_cons. done. }
  eexists. split; [reflexivity|]. unfold body. simpl. rewrite <- !app_assoc. done.
Qed.

Lemma bundle_chain_order_witness :
  exists st',
    _bundle (4 + 0) "app/1.0.0/main" sample_opts sample_state = Ok st' /\
    body st' = body sample_state ++ [SDefine def_main; SDefine def_b; SDefine def_c] /\
    ids st' = "app/1.0.0/lib/c" :: "app/1.0.0/lib/b" :: "app/1.0.0/main"
                :: ids sample_state.
Proof.
  apply (bundle_chain_order sample_opts
           "app/1.0.0/main" "app/1.0.0/lib/b" "app/1.0.0/lib/c"
           def_main def_b def_c "./lib/b" "./c" sample_state 0);
    try reflexivity; try discriminate;
    try (exists "/proj/components", []; eexists; repeat split; reflexivity);
    try (left; split; reflexivity);
    try (simpl; apply not_elem_of_nil).
Defined.

(** C1, as stated, fails: [main.js] requires [./lib/b], which requires
    [./c]; bundling [main] puts the definition of [main] right after the
    loader, then that of [lib/b], then that of [lib/c].  The dependency
    [lib/c] comes after its dependent [lib/b], and [lib/b] after [main]. *)
Lemma bundle_chain_dependency_last :
  match _bundle 4 "app/1.0.0/main" sample_opts sample_state with
  | Ok st' =>
      toplevel st' =
        Some [SOther "loader.js"; SDefine def_main; SDefine def_b; SDefine def_c] /\
      position "app/1.0.0/main" (body st') = Some 1 /\
      position "app/1.0.0/lib/b" (body st') = Some 2 /\
      position "app/1.0.0/lib/c" (body st') = Some 3
  | _ => False
  end.
Proof. vm_compute. repeat split. Qed.

(** The example of the specification: a component that requires the
    package [yen].  The definition of the component comes first, that of
    [yen/1.2.4/index] second; the RequiredMap gets a copy of the entry of
    [yen]; the route is empty again. *)
Lemma bundle_package_example :
  match _bundle 6 "app/1.0.0/home" sample_opts sample_state with
  | Ok st' =>
      toplevel st' = Some [SOther "loader.js"; SDefine def_home; SDefine def_yen] /\
      ids st' = ["yen/1.2.4/index"; "app/1.0.0/home"] /\
      route st' = [] /\
      (copy ← get (store st') (VRef 3) "yen"; JSON_stringify (store st') copy) =
      (entry ← get yen_store (VRef 0) "yen"; JSON_stringify yen_store entry)
  | _ => False
  end.
Proof. vm_compute. repeat split. Qed.

(** ** The cache *)

Lemma is_dir_nil_inv (fs : gmap (list string) fnode) p :
  is_dir fs p = false -> p <> [].
Proof.
  unfold is_dir. case_bool_decide; [done|]. done.
Qed.

Lemma fs_writeFile_ok (fs fs' : gmap (list string) fnode) p content :
  fs_writeFile fs p content = Ok fs' ->
  p <> [] /\ fs' = <[p := File content]> fs.
Proof.
  unfold fs_writeFile. destruct (is_dir fs p) eqn:Hd; [done|].
  destruct (is_dir fs (dirname p)); [|done]. intros [= <-].
  split; [by eapply is_dir_nil_inv|done].
Qed.

Lemma is_file_insert (fs : gmap (list string) fnode) p content :
  p <> [] -> is_file (<[p := File content]> fs) p = true.
Proof.
  intros Hp. unfold is_file. rewrite lookup_insert_eq.
  by rewrite bool_decide_eq_false_2.
Qed.

(** *** File names *)

Lemma text_chars s : text (chars s) = s.
Proof. apply string_of_list_ascii_of_string. Qed.

Lemma chars_text cs : chars (text cs) = cs.
Proof. apply list_ascii_of_string_of_list_ascii. Qed.

Lemma chars_append s1 s2 : chars (s1 +:+ s2) = chars s1 ++ chars s2.
Proof. induction s1 as [|c s1 IH]; simpl; [done|]. unfold chars in *. simpl. by rewrite IH. Qed.

Lemma span_word_app cs w rest : span_word cs = (w, rest) -> cs = w ++ rest.
Proof.
  revert w rest. induction cs as [|c cs IH]; intros w rest; simpl.
  - by intros [= <- <-].
  - destruct (is_word c); [|by intros [= <- <-]].
    destruct (span_word cs) as [w' rest']. intros [= <- <-].
    simpl. f_equal. by apply IH.
Qed.

Lemma split_ext_chars s stem ext :
  split_ext s = Some (stem, ext) -> chars s = stem ++ ext.
Proof.
  unfold split_ext. destruct (span_word (reverse (chars s))) as [w rest] eqn:Hs.
  apply span_word_app in Hs.
  destruct w as [|c w]; [done|]. destruct rest as [|d rest]; [done|].
  destruct (decide (d = "."%char)) as [->|Hd].
  - intros [= <- <-].
    rewrite <- (reverse_involutive (chars s)), Hs.
    rewrite reverse_app, reverse_cons, <- app_assoc. done.
  - intros Hm. exfalso. revert Hm.
    destruct d as [[] [] [] [] [] [] [] []]; try done.
Qed.

Lemma strip_before_artifact ext stem h :
  length h = 32 -> forallb is_hex h = true ->
  strip_before ext (stem ++ "-"%char :: h ++ ext) = Some (stem ++ ext).
Proof.
  intros Hlen Hhex. unfold strip_before.
  assert (Hn : length (stem ++ "-"%char :: h ++ ext) = length stem + 33 + length ext).
  { rewrite length_app. simpl. rewrite length_app. lia. }
  rewrite Hn.
  replace (length stem + 33 + length ext - 33 - length ext) with (length stem) by lia.
  replace (length stem + 33 + length ext - length ext)
    with (length (stem ++ "-"%char :: h)) by (rewrite length_app; simpl; lia).
  rewrite take_app_length, drop_app_length.
  replace (stem ++ "-"%char :: h ++ ext) with ((stem ++ "-"%char :: h) ++ ext)
    by (by rewrite <- app_assoc).
  rewrite drop_app_length.
  change ("-"%char :: h ++ ext) with (("-"%char :: h) ++ ext).
  rewrite take_app_length' by (simpl; lia).
  simpl head. simpl tail. rewrite Hhex.
  rewrite !bool_decide_eq_true_2 by done.
  replace (Nat.leb (33 + length ext) (length stem + 33 + length ext)) with true
    by (symmetry; apply Nat.leb_le; lia).
  done.
Qed.

Lemma strip_before_other_suffix ext ext' pre :
  length ext' = S (length ext) -> tail ext' <> ext ->
  strip_before ext (pre ++ ext') = None.
Proof.
  intros Hlen Hne. unfold strip_before.
  replace (drop (length (pre ++ ext') - length ext) (pre ++ ext')) with (tail ext').
  - rewrite (bool_decide_eq_false_2 (tail ext' = ext)) by done.
    by rewrite andb_false_r.
  - destruct ext' as [|c ext']; [done|]. simpl in *.
    replace (length (pre ++ c :: ext') - length ext) with (length (pre ++ [c])).
    + replace (pre ++ c :: ext') with ((pre ++ [c]) ++ ext') by (by rewrite <- app_assoc).
      by rewrite drop_app_length.
    + rewrite !length_app. simpl. lia.
Qed.

(** On the names [Cache.write] makes for a [.js] or [.css] file, the
    expression of [Cache.remove] undoes the one of [Cache.write]. *)
Lemma strip_checksum_artifact fname name :
  has_ext ".js" fname \/ has_ext ".css" fname ->
  is_artifact fname name ->
  strip_checksum name = fname.
Proof.
  intros Hext (h & Hh & ->).
  apply andb_true_iff in Hh as [Hlen Hhex]. apply Nat.eqb_eq in Hlen.
  unfold strip_checksum, replace_ext.
  destruct Hext as [[stem Hs]|[stem Hs]]; rewrite Hs, chars_text, chars_append;
    change (chars "-") with ["-"%char]; simpl app;
    pose proof (split_ext_chars _ _ _ Hs) as Hc.
  - rewrite strip_before_artifact by done.
    transitivity (text (chars fname)); [by rewrite Hc|apply text_chars].
  - rewrite app_comm_cons, app_assoc.
    rewrite (strip_before_other_suffix (chars ".js") (chars ".css")) by done.
    rewrite <- app_assoc, <- app_comm_cons.
    rewrite strip_before_artifact by done.
    transitivity (text (chars fname)); [by rewrite Hc|apply text_chars].
Qed.

(** *** The file system *)

Lemma child_of_spec dir p name : child_of dir p = Some name <-> p = dir ++ [name].
Proof.
  unfold child_of. split.
  - destruct (last p) as [n|] eqn:Hl; [|done].
    apply last_Some in Hl as [l' ->]. rewrite removelast_last.
    case_decide; [|done]. by intros [= <-]; subst.
  - intros ->. rewrite last_snoc, removelast_last. by rewrite decide_True.
Qed.

Lemma fs_readdir_elem (fs : gmap (list string) fnode) dir entries name :
  fs_readdir fs dir = Ok entries ->
  name ∈ entries <-> is_Some (fs !! (dir ++ [name])).
Proof.
  unfold fs_readdir. destruct (is_dir fs dir); [|by destruct (is_file fs dir)].
  intros [= <-]. rewrite list_elem_of_omap. split.
  - intros ([p x] & Hin & Hc). apply elem_of_map_to_list in Hin.
    apply child_of_spec in Hc. simpl in Hc. subst p. by exists x.
  - intros [x Hx]. exists (dir ++ [name], x). split.
    + by apply elem_of_map_to_list.
    + by apply child_of_spec.
Qed.

Lemma fs_unlink_ok (fs fs' : gmap (list string) fnode) p :
  fs_unlink fs p = Ok fs' -> fs' = delete p fs.
Proof.
  unfold fs_unlink. destruct (is_file fs p); [by intros [= <-]|].
  by destruct (is_dir fs p).
Qed.

Lemma remove_entries_spec dir fname entries : forall fs fs' : gmap (list string) fnode,
  remove_entries dir fname entries fs = Ok fs' ->
  (forall name, name ∈ entries -> strip_checksum name = fname ->
                fs' !! (dir ++ [name]) = None) /\
  (forall p, (forall name, name ∈ entries -> strip_checksum name = fname ->
                           p <> dir ++ [name]) ->
             fs' !! p = fs !! p) /\
  (forall p, fs' !! p = None \/ fs' !! p = fs !! p).
Proof.
  induction entries as [|entry entries IH]; intros fs fs'; simpl.
  { intros [= <-]. repeat split; [by intros name Hin; apply elem_of_nil in Hin|by right]. }
  destruct (String.eqb_spec (strip_checksum entry) fname) as [Heq|Hne].
  - destruct (fs_unlink fs (dir ++ [entry])) as [fs1| |] eqn:Hu; simpl; try done.
    apply fs_unlink_ok in Hu as ->. intros Hr.
    destruct (IH _ _ Hr) as (Ha & Hb & Hc). repeat split.
    + intros name Hin Hs. apply elem_of_cons in Hin as [->|Hin]; [|by apply Ha].
      destruct (Hc (dir ++ [entry])) as [->| ->]; [done|apply lookup_delete_eq].
    + intros p Hp. rewrite Hb.
      * apply lookup_delete_ne. intros <-. by eapply (Hp entry); [left|..].
      * intros name Hin. apply Hp. by right.
    + intros p. destruct (Hc p) as [->| ->]; [by left|].
      destruct (decide (p = dir ++ [entry])) as [->|Hp].
      * left. apply lookup_delete_eq.
      * right. by apply lookup_delete_ne.
  - simpl. intros Hr. destruct (IH _ _ Hr) as (Ha & Hb & Hc). repeat split.
    + intros name Hin Hs. apply elem_of_cons in Hin as [->|Hin]; [done|by apply Ha].
    + intros p Hp. apply Hb. intros name Hin. apply Hp. by right.
    + done.
Qed.

Lemma mkdirp_from_spec rest : forall base (fs fs' : gmap (list string) fnode),
  mkdirp_from base rest fs = Ok fs' ->
  forall p, fs' !! p = fs !! p \/ fs' !! p = Some Dir.
Proof.
  induction rest as [|s rest IH]; intros base fs fs'; simpl.
  { intros [= <-] p. by left. }
  destruct (is_file fs (base ++ [s])); [done|]. intros Hm p.
  destruct (IH _ _ _ Hm p) as [->| ->]; [|by right].
  destruct (decide (base ++ [s] = p)) as [<-|Hp].
  - right. apply lookup_insert_eq.
  - left. by apply lookup_insert_ne.
Qed.

Lemma mkdirp_is_file (fs fs' : gmap (list string) fnode) dir p :
  mkdirp fs dir = Ok fs' -> is_file fs' p = true -> is_file fs p = true.
Proof.
  intros Hm. unfold is_file.
  destruct (mkdirp_from_spec _ _ _ _ Hm p) as [->| ->]; [done|].
  by rewrite andb_false_r.
Qed.

Lemma Cache_remove_spec (c : Cache) (id : list string) (fs fs' : gmap (list string) fnode) :
  Cache_remove c id fs = Ok fs' ->
  (fs_exists fs (dest c ++ dirname id) = false -> fs' = fs) /\
  (fs_exists fs (dest c ++ dirname id) = true ->
     (forall name, strip_checksum name = basename id ->
                   fs' !! (dest c ++ dirname id ++ [name]) = None) /\
     (forall p, (forall name, strip_checksum name = basename id ->
                              p <> dest c ++ dirname id ++ [name]) ->
                fs' !! p = fs !! p)).
Proof.
  unfold Cache_remove. destruct (fs_exists fs _) eqn:He; simpl.
  2:{ intros [= <-]. split; done. }
  destruct (fs_readdir fs _) as [entries| |] eqn:Hd; simpl; try done.
  intros Hr. apply remove_entries_spec in Hr as (Ha & Hb & Hc).
  split; [done|]. intros _. split.
  - intros name Hs. rewrite app_assoc.
    destruct (fs !! ((dest c ++ dirname id) ++ [name])) as [x|] eqn:Hx.
    + apply Ha; [|done]. eapply fs_readdir_elem; eauto.
    + destruct (Hc ((dest c ++ dirname id) ++ [name])) as [->| ->]; done.
  - intros p Hp. apply Hb. intros name _ Hs. rewrite <- app_assoc. by apply Hp.
Qed.

Lemma path_split (id : list string) : id <> [] -> id = dirname id ++ [basename id].
Proof.
  intros Hne. destruct id as [|s id] using rev_ind; [done|].
  unfold dirname, basename. by rewrite removelast_last, last_snoc.
Qed.

Lemma map_last_snoc f (p : list string) n : map_last f (p ++ [n]) = p ++ [f n].
Proof.
  induction p as [|s p IH]; [done|]. simpl. rewrite IH.
  by destruct (p ++ [n]) eqn:Hp; [destruct p|].
Qed.

Lemma cache_name_split `{Hash} (id : list string) source :
  id <> [] ->
  cache_name id source
  = dirname id ++ [replace_ext ("-" +:+ md5_hex source) (basename id)].
Proof.
  intros Hne. unfold cache_name. rewrite (path_split id Hne) at 1.
  apply map_last_snoc.
Qed.

Lemma fs_exists_absent (fs : gmap (list string) fnode) p :
  p <> [] -> fs !! p = None -> fs_exists fs p = false.
Proof.
  intros Hne Hp. unfold fs_exists, is_dir, is_file.
  by rewrite Hp, bool_decide_eq_false_2.
Qed.

Lemma cache_name_artifact `{Hash} (c : Cache) (id : list string) (source : string) :
  id <> [] ->
  dest c ++ cache_name id source = spec_artifact (dest c) id (md5_hex source).
Proof.
  intros Hid. rewrite (cache_name_split id source Hid).
  unfold spec_artifact, replace_ext.
  destruct (split_ext (basename id)) as [[stem ext]|]; [|done].
  by rewrite chars_append.
Qed.

Lemma spec_artifact_not_root (base id : list string) (checksum : string) :
  spec_artifact base id checksum <> [].
Proof.
  unfold spec_artifact. intros Heq. apply (f_equal length) in Heq.
  rewrite !length_app in Heq. simpl in Heq. lia.
Qed.

Lemma fs_readFile_as_utf8 (c : Cache) (fs : gmap (list string) fnode)
    (p : list string) (x : string) :
  utf8_cache c -> p <> [] -> fs !! p = Some (File x) ->
  fs_readFile_as fs p (encoding c) = Ok (Text x).
Proof.
  intros (e & -> & Hu) Hp Hx. unfold fs_readFile_as.
  assert (Ht : truthy_string (Some e) = true) by (by destruct e).
  rewrite Ht. simpl. rewrite Hu. unfold fs_readFile, is_file.
  by rewrite Hx, bool_decide_eq_false_2.
Qed.

Lemma Cache_read_artifact `{Hash} (c : Cache) (id : list string) (source : string)
    (fs : gmap (list string) fnode) :
  id <> [] ->
  (fs !! spec_artifact (dest c) id (md5_hex source) = None ->
   Cache_read c id source fs = Ok None) /\
  (forall x, utf8_cache c ->
     fs !! spec_artifact (dest c) id (md5_hex source) = Some (File x) ->
     Cache_read c id source fs = Ok (Some (Text x))).
Proof.
  intros Hid. unfold Cache_read. rewrite (cache_name_artifact c id source Hid).
  pose proof (spec_artifact_not_root (dest c) id (md5_hex source)) as Hne. split.
  - intros Hno. by rewrite fs_exists_absent.
  - intros x Hu Hx. unfold fs_exists at 1, is_file.
    rewrite Hx, bool_decide_eq_false_2 by done. rewrite orb_true_r.
    by rewrite (fs_readFile_as_utf8 c fs _ x).
Qed.

(** C5, for a cache that reads UTF-8.  [write(id, s1, c1)] leaves [c1]
    in the file [<dest>/<id>-<checksum of s1>.<ext>] (in [<dest>/<id>] when
    the id has no extension), and a [read(id, s1)] after it returns the
    string [c1].  On any disk, [read(id, s2)] looks at the file named with
    the checksum of [s2] and at nothing else: it returns [undefined],
    without throwing, when there is nothing at that path, and the text of
    the file when there is one. *)
Theorem cache_write_read `{Hash} (c : Cache) (id : list string) (s1 c1 : string)
    (fs fs' : gmap (list string) fnode) :
  id <> [] ->
  utf8_cache c ->
  Cache_write c id s1 c1 fs = Ok fs' ->
  fs' !! spec_artifact (dest c) id (md5_hex s1) = Some (File c1) /\
  Cache_read c id s1 fs' = Ok (Some (Text c1)) /\
  (forall (disk : gmap (list string) fnode) (s2 : string),
     disk !! spec_artifact (dest c) id (md5_hex s2) = None ->
     Cache_read c id s2 disk = Ok None) /\
  (forall (disk : gmap (list string) fnode) (s2 x : string),
     disk !! spec_artifact (dest c) id (md5_hex s2) = Some (File x) ->
     Cache_read c id s2 disk = Ok (Some (Text x))).
Proof.
  intros Hid Hu Hw. unfold Cache_write in Hw.
  destruct (Cache_remove c id fs) as [fs1| |]; simpl in Hw; try done.
  destruct (mkdirp fs1 _) as [fs2| |]; simpl in Hw; try done.
  apply fs_writeFile_ok in Hw as [Hne ->].
  rewrite (cache_name_artifact c id s1 Hid).
  assert (Hthere : <[spec_artifact (dest c) id (md5_hex s1) := File c1]> fs2
                     !! spec_artifact (dest c) id (md5_hex s1) = Some (File c1))
    by apply lookup_insert_eq.
  split; [done|]. split; [|split].
  - by apply (Cache_read_artifact c id s1 _ Hid).
  - intros disk s2. by apply (Cache_read_artifact c id s2 disk Hid).
  - intros disk s2 x. by apply (Cache_read_artifact c id s2 disk Hid).
Qed.

Lemma cache_write_read_witness :
  exists fs' : gmap (list string) fnode,
    Cache_write sample_cache ["yen"; "1.2.4"; "index.js"] "a" "compiled" empty_disk
      = Ok fs' /\
    fs' !! ["cache"; "yen"; "1.2.4"; "index-0cc175b9c0f1b6a831c399e269772661.js"]
      = Some (File "compiled") /\
    Cache_read sample_cache ["yen"; "1.2.4"; "index.js"] "a" fs'
      = Ok (Some (Text "compiled")) /\
    Cache_read sample_cache ["yen"; "1.2.4"; "index.js"] "b" fs' = Ok None.
Proof.
  assert (Hok : is_Ok (Cache_write sample_cache ["yen"; "1.2.4"; "index.js"] "a"
                         "compiled" empty_disk) = true)
    by (vm_compute; reflexivity).
  assert (Hb : match Cache_write sample_cache ["yen"; "1.2.4"; "index.js"] "a"
                       "compiled" empty_disk with
               | Ok fs' =>
                   fs' !! spec_artifact (dest sample_cache) ["yen"; "1.2.4"; "index.js"]
                            (md5_hex "b")
               | _ => None
               end = None)
    by (vm_compute; reflexivity).
  destruct (Cache_write sample_cache ["yen"; "1.2.4"; "index.js"] "a" "compiled"
              empty_disk) as [fs'| |] eqn:E; try discriminate Hok.
  destruct (cache_write_read sample_cache ["yen"; "1.2.4"; "index.js"] "a" "compiled"
              empty_disk fs') as (Hfile & Hread & Hnone & _).
  - discriminate.
  - exists "utf8". split; reflexivity.
  - exact E.
  - exists fs'. split; [reflexivity|]. split; [exact Hfile|]. split; [exact Hread|].
    exact (Hnone fs' "b" Hb).
Defined.

(** C5, as stated, fails for a cache made without [opts.encoding]: the
    write leaves the same file, but [readFile(fpath, undefined)] hands back
    a [Buffer] of its bytes, and [read] returns that, not the string
    written. *)
Lemma cache_read_without_encoding_returns_buffer :
  match Cache_write raw_cache ["yen"; "1.2.4"; "index.js"] "a" "compiled" empty_disk with
  | Ok fs' =>
      fs' !! ["cache"; "yen"; "1.2.4"; "index-0cc175b9c0f1b6a831c399e269772661.js"]
        = Some (File "compiled") /\
      Cache_read raw_cache ["yen"; "1.2.4"; "index.js"] "a" fs'
        = Ok (Some (Buffer "compiled")) /\
      Cache_read raw_cache ["yen"; "1.2.4"; "index.js"] "a" fs'
        <> Ok (Some (Text "compiled"))
  | _ => False
  end.
Proof. vm_compute. repeat split. discriminate. Qed.

(** C6, amended.  [Cache.remove(id)] does nothing when the directory of
    [id] is absent; otherwise it deletes the entries of that directory
    whose name equals the base name of [id] once a dash and 32 hexadecimal
    digits standing before a final [.js] or [.css] are stripped, and
    leaves every other entry alone.  Consequently, after a successful
    [Cache.write] of an id whose extension is [.js] or [.css], at most one
    checksum-suffixed artifact of that id is a file in its directory. *)
Theorem cache_remove_single_artifact `{Hash} (c : Cache) (id : list string)
    (fs : gmap (list string) fnode) :
  (forall fs', Cache_remove c id fs = Ok fs' ->
     (fs_exists fs (dest c ++ dirname id) = false -> fs' = fs) /\
     (fs_exists fs (dest c ++ dirname id) = true ->
        (forall name, strip_checksum name = basename id ->
                      fs' !! (dest c ++ dirname id ++ [name]) = None) /\
        (forall p, (forall name, strip_checksum name = basename id ->
                                 p <> dest c ++ dirname id ++ [name]) ->
                   fs' !! p = fs !! p))) /\
  (forall source content fs',
     fs_wf fs ->
     has_ext ".js" (basename id) \/ has_ext ".css" (basename id) ->
     Cache_write c id source content fs = Ok fs' ->
     forall n1 n2,
       is_artifact (basename id) n1 -> is_artifact (basename id) n2 ->
       is_file fs' (dest c ++ dirname id ++ [n1]) = true ->
       is_file fs' (dest c ++ dirname id ++ [n2]) = true ->
       n1 = n2).
Proof.
  split; [intros fs'; apply Cache_remove_spec|].
  intros source content fs' Hwf Hext Hw.
  unfold Cache_write in Hw.
  destruct (Cache_remove c id fs) as [fs1| |] eqn:Hr; simpl in Hw; try done.
  destruct (mkdirp fs1 _) as [fs2| |] eqn:Hm; simpl in Hw; try done.
  apply fs_writeFile_ok in Hw as [Hne ->].
  apply Cache_remove_spec in Hr as [Habsent Hpresent].
  assert (Hnew : forall n, is_artifact (basename id) n ->
            is_file (<[dest c ++ cache_name id source := File content]> fs2)
              (dest c ++ dirname id ++ [n]) = true ->
            dest c ++ dirname id ++ [n] = dest c ++ cache_name id source).
  { intros n Ha Hf.
    destruct (decide (dest c ++ dirname id ++ [n] = dest c ++ cache_name id source))
      as [|Hp]; [done|exfalso].
    unfold is_file in Hf. rewrite lookup_insert_ne in Hf by done.
    assert (Hf1 : is_file fs1 (dest c ++ dirname id ++ [n]) = true)
      by (eapply mkdirp_is_file; eauto).
    unfold is_file in Hf1. apply andb_true_iff in Hf1 as [_ Hf1].
    destruct (fs_exists fs (dest c ++ dirname id)) eqn:He.
    - destruct (Hpresent eq_refl) as [Hgone _].
      rewrite (Hgone n) in Hf1; [done|].
      by apply strip_checksum_artifact.
    - rewrite (Habsent eq_refl) in Hf1.
      assert (Hs : is_Some (fs !! (dest c ++ dirname id ++ [n])))
        by (destruct (fs !! (dest c ++ dirname id ++ [n])); [eauto|done]).
      apply Hwf in Hs. unfold dirname at 1 in Hs.
      rewrite app_assoc, removelast_last in Hs.
      unfold fs_exists in He. by rewrite Hs in He. }
  intros n1 n2 Ha1 Ha2 Hf1 Hf2.
  apply Hnew in Hf1; [|done]. apply Hnew in Hf2; [|done].
  rewrite <- Hf2 in Hf1. rewrite !app_assoc in Hf1.
  by apply app_inj_tail in Hf1 as [_ ?].
Qed.

Lemma cache_remove_single_artifact_witness :
  exists fs' : gmap (list string) fnode,
    Cache_write sample_cache ["yen"; "1.2.4"; "index.js"] "b" "compiled b"
      (<[["cache"; "yen"; "1.2.4"; "index-0cc175b9c0f1b6a831c399e269772661.js"]
           := File "compiled a"]>
       (<[["cache"; "yen"; "1.2.4"] := Dir]>
       (<[["cache"; "yen"] := Dir]> (<[["cache"] := Dir]> empty_disk))))
      = Ok fs' /\
    forall n1 n2,
      is_artifact "index.js" n1 -> is_artifact "index.js" n2 ->
      is_file fs' (["cache"; "yen"; "1.2.4"] ++ [n1]) = true ->
      is_file fs' (["cache"; "yen"; "1.2.4"] ++ [n2]) = true ->
      n1 = n2.
Proof.
  set (fs0 :=
    <[["cache"; "yen"; "1.2.4"; "index-0cc175b9c0f1b6a831c399e269772661.js"]
        := File "compiled a"]>
    (<[["cache"; "yen"; "1.2.4"] := Dir]>
    (<[["cache"; "yen"] := Dir]> (<[["cache"] := Dir]> empty_disk)))).
  assert (Hok : is_Ok (Cache_write sample_cache ["yen"; "1.2.4"; "index.js"] "b"
                         "compiled b" fs0) = true)
    by (vm_compute; reflexivity).
  destruct (Cache_write sample_cache ["yen"; "1.2.4"; "index.js"] "b" "compiled b" fs0)
    as [fs'| |] eqn:E; try discriminate Hok.
  exists fs'. split; [reflexivity|].
  refine (proj2 (cache_remove_single_artifact sample_cache ["yen"; "1.2.4"; "index.js"] fs0)
            "b" "compiled b" fs' _ _ E).
  - intros p [x Hx]. unfold dirname. unfold fs0, empty_disk in Hx.
    repeat (apply lookup_insert_Some in Hx as [[<- _]|[_ Hx]]; [reflexivity|]).
    by rewrite lookup_empty in Hx.
  - left. eexists. reflexivity.
Defined.

(** C6, as stated, fails: for an id with another extension, here
    [index.jsx], [Cache.write] names the artifact with the checksum before
    [.jsx], but [Cache.remove] only recognises a checksum before [.js] or
    [.css].  A second write from a different source leaves the artifact of
    the first in place: two checksum-suffixed artifacts of the id are on
    disk. *)
Lemma cache_two_artifacts_jsx :
  is_artifact "index.jsx" artifact_a /\
  is_artifact "index.jsx" artifact_b /\
  artifact_a <> artifact_b /\
  strip_checksum artifact_a = artifact_a /\
  match
    fs ← Cache_write sample_cache ["yen"; "1.2.4"; "index.jsx"] "a" "compiled a" empty_disk;
    Cache_write sample_cache ["yen"; "1.2.4"; "index.jsx"] "b" "compiled b" fs
  with
  | Ok fs' =>
      is_file fs' ["cache"; "yen"; "1.2.4"; artifact_a] = true /\
      is_file fs' ["cache"; "yen"; "1.2.4"; artifact_b] = true
  | _ => False
  end.
Proof.
  split; [|split; [|split; [|split]]].
  - exists "0cc175b9c0f1b6a831c399e269772661". split; reflexivity.
  - exists "92eb5ffee6ae2fec3ad71c777531578f". split; reflexivity.
  - discriminate.
  - reflexivity.
  - vm_compute. split; reflexivity.
Qed.

(** ** The precompile queue *)

Lemma sched_inv_init : sched_inv sched_init.
Proof.
  split; [constructor|]. intros j Hj. by apply elem_of_nil in Hj.
Qed.

Lemma Cache_precompile_in_flight c m o st :
  mod_key m ∈ precompiling st -> Cache_precompile c m o st = (st, Ok ()).
Proof. intros Hin. unfold Cache_precompile. by rewrite bool_decide_eq_true_2. Qed.

Lemma sched_inv_precompile c m o st :
  sched_inv st -> sched_inv (Cache_precompile c m o st).1.
Proof.
  intros [Hnd Hsub]. unfold Cache_precompile.
  case_bool_decide as Hin; [done|].
  assert (Hkeep : sched_inv
    {| precompiling := precompiling st ++ [mod_key m]; settled := settled st;
       current := current st; pending := pending st; spawned := spawned st;
       log := log st |}).
  { split; [done|]. intros j Hj. simpl. apply elem_of_app. left. by apply Hsub. }
  destruct (opt_system o !! mod_name m) as [versions|]; [|done].
  destruct (versions !! mod_version m) as [data_main|]; [|done].
  destruct (negb _); [done|]. simpl.
  unfold sched_inv, in_flight. simpl. rewrite app_assoc.
  change (match current st with
          | Idle => []
          | Waiting j | Hung j => [j]
          end ++ pending st) with (in_flight st).
  split.
  - rewrite fmap_app. apply NoDup_app. split; [done|]. split.
    + intros k Hk Hk'. apply list_elem_of_singleton in Hk' as ->.
      apply list_elem_of_fmap in Hk as (j & Hj & Hjin). apply Hin.
      change (mod_key m) with (job_key {| job_mod := m;
        job_dependenciesMap := popt_dependenciesMap o; job_dest := dest c |}).
      rewrite Hj. by apply Hsub.
    + apply NoDup_singleton.
  - intros j Hj. apply elem_of_app. apply elem_of_app in Hj as [Hj|Hj].
    + left. by apply Hsub.
    + right. apply list_elem_of_singleton in Hj as ->. by apply list_elem_of_singleton.
Qed.

Lemma sched_inv_shrink st st' :
  sched_inv st ->
  in_flight st' ⊆ in_flight st ->
  NoDup (job_key <$> in_flight st') ->
  precompiling st' = precompiling st ->
  sched_inv st'.
Proof.
  intros [Hnd Hsub] Hin Hnd' Hp. split; [done|].
  intros j Hj. rewrite Hp. apply Hsub. by apply Hin.
Qed.

Lemma sched_inv_tick `{PrecompileEnv} st : sched_inv st -> sched_inv (tick st).
Proof.
  intros Hinv. unfold tick.
  destruct (current st) eqn:Hc; try done.
  destruct (pending st) as [|j rest] eqn:Hp; [done|].
  assert (Hfl : in_flight st = j :: rest) by (unfold in_flight; by rewrite Hc, Hp).
  destruct Hinv as [Hnd Hsub]. rewrite Hfl in Hnd, Hsub.
  rewrite fmap_cons in Hnd. apply NoDup_cons in Hnd as [Hj Hrest].
  assert (Hsame : sched_inv
    {| precompiling := precompiling st; settled := settled st; current := Hung j;
       pending := rest; spawned := spawned st; log := log st |} /\
    forall b a s l, sched_inv
    {| precompiling := precompiling st; settled := b; current := a;
       pending := rest; spawned := s; log := l |} \/ a <> Idle).
  { split.
    - split; [by constructor|done].
    - intros b [] s l; [left|by right|by right].
      split; [done|]. intros j' Hj'. apply Hsub. by right. }
  destruct Hsame as [Hhung Hidle].
  destruct (settled st).
  - destruct (precompile_start j).
    + done.
    + by destruct (Hidle true Idle (spawned st) (log st ++ printed)).
    + by destruct (Hidle false Idle (spawned st) (log st)).
    + split; [by constructor|done].
  - by destruct (Hidle true Idle (spawned st)
        (log st ++ ["Failed to cache " +:+ mod_name (job_mod j) +:+ "@"
                    +:+ mod_version (job_mod j)])).
Qed.

Lemma sched_inv_child_exit code st : sched_inv st -> sched_inv (child_exit code st).
Proof.
  intros [Hnd Hsub]. unfold child_exit.
  destruct (current st) as [|j|j] eqn:Hc; try done.
  assert (Hfl : in_flight st = j :: pending st) by (unfold in_flight; by rewrite Hc).
  rewrite Hfl in Hnd, Hsub.
  rewrite fmap_cons in Hnd. apply NoDup_cons in Hnd as [Hj Hrest].
  case_bool_decide.
  - split; [done|]. intros j' Hj'. simpl in *.
    apply list_elem_of_filter. split.
    + intros Heq. apply Hj. rewrite <- Heq. by apply list_elem_of_fmap_2.
    + apply Hsub. by right.
  - split; [done|]. intros j' Hj'. apply Hsub. by right.
Qed.

Lemma sched_inv_run `{PrecompileEnv} c events :
  sched_inv (run c events sched_init).
Proof.
  induction events as [|e events IH] using rev_ind; [apply sched_inv_init|].
  unfold run in *. rewrite foldl_app. simpl.
  destruct e; simpl.
  - by apply sched_inv_precompile.
  - by apply sched_inv_tick.
  - by apply sched_inv_child_exit.
Qed.

(** C7: a call of [Cache.precompile] for an identity that is in the
    in-flight set changes nothing and enqueues nothing; and whatever calls,
    handler firings and process exits have happened, the jobs enqueued and
    not yet completed have pairwise distinct identities, all of them in the
    in-flight set. *)
Theorem precompile_in_flight_once `{PrecompileEnv} (c : Cache) :
  (forall st m o,
     mod_key m ∈ precompiling st -> Cache_precompile c m o st = (st, Ok ())) /\
  (forall events,
     NoDup (job_key <$> in_flight (run c events sched_init)) /\
     forall j, j ∈ in_flight (run c events sched_init) ->
               job_key j ∈ precompiling (run c events sched_init)).
Proof.
  split.
  - intros st m o. apply Cache_precompile_in_flight.
  - intros events. apply sched_inv_run.
Qed.

Lemma precompile_in_flight_once_witness :
  Cache_precompile sample_cache mod_yen sample_system
    (run sample_cache [EPrecompile mod_yen sample_system; ETick] sched_init)
  = (run sample_cache [EPrecompile mod_yen sample_system; ETick] sched_init, Ok ()).
Proof.
  apply (proj1 (precompile_in_flight_once sample_cache)).
  vm_compute. apply list_elem_of_singleton. reflexivity.
Defined.

(** After a rejected promise the handler that fires is [onRejected]: the
    job it was registered with is dropped without being started. *)
Lemma tick_after_rejection_drops_job `{PrecompileEnv} st j rest :
  current st = Idle -> settled st = false -> pending st = j :: rest ->
  spawned (tick st) = spawned st /\
  pending (tick st) = rest /\
  current (tick st) = Idle /\
  precompiling (tick st) = precompiling st.
Proof. intros Hc Hs Hp. unfold tick. by rewrite Hc, Hp, Hs. Qed.

(** C8, where the code departs from it.  When the child process of a job
    exits with a non-zero code, the job is over but its identity stays in
    the in-flight set, so a later call of [Cache.precompile] for the same
    identity enqueues nothing: one process was spawned in all.  After an
    exit with code 0 the identity is removed and the later call spawns a
    second process. *)
Theorem precompile_failure_keeps_identity :
  let failed :=
    run sample_cache [EPrecompile mod_yen sample_system; ETick; EExit 1] sched_init in
  let succeeded :=
    run sample_cache [EPrecompile mod_yen sample_system; ETick; EExit 0] sched_init in
  current failed = Idle /\ pending failed = [] /\
  precompiling failed = ["yen/1.2.4"] /\
  spawned (run sample_cache [EPrecompile mod_yen sample_system; ETick] failed)
    = [spawn_of mod_yen] /\
  precompiling succeeded = [] /\
  spawned (run sample_cache [EPrecompile mod_yen sample_system; ETick] succeeded)
    = [spawn_of mod_yen; spawn_of mod_yen].
Proof. vm_compute. repeat split. Qed.

(** C9, where the code departs from it.  Two jobs are enqueued, for [yen]
    and then for [ez-editor].  The process of the first exits with code 1.
    The next handler to fire is the [onRejected] of the second job: it
    prints "Failed to cache ez-editor@0.2.4" and the compilation of
    [ez-editor] is never started.  Only one process was spawned, and the
    queue is empty. *)
Theorem precompile_failure_skips_next_job :
  let st :=
    run sample_cache
      [EPrecompile mod_yen sample_system; EPrecompile mod_ez sample_system;
       ETick; EExit 1; ETick; ETick] sched_init in
  spawned st = [spawn_of mod_yen] /\
  pending st = [] /\ current st = Idle /\
  log st = ["Failed to cache ez-editor@0.2.4"] /\
  precompiling st = ["yen/1.2.4"; "ez-editor/0.2.4"].
Proof. vm_compute. repeat split. Qed.

(** * Further properties of the code *)

(** ** [findModule] *)

Lemma get_not_OutOfFuel h v k : get h v k <> OutOfFuel.
Proof. unfold get. destruct v as [| |s|l]; try done. by destruct (h !! l). Qed.

Lemma reduce_not_OutOfFuel h r : forall v, reduce h v r <> OutOfFuel.
Proof.
  induction r as [|p r IH]; intros v; simpl; [done|].
  pose proof (get_not_OutOfFuel h v "dependencies") as H1.
  destruct (get h v "dependencies") as [deps| |]; simpl; try done.
  pose proof (get_not_OutOfFuel h deps p) as H2.
  destruct (get h deps p) as [x| |]; simpl; done.
Qed.

Lemma stringify_members_not_OutOfFuel rec o :
  (forall v, rec v <> OutOfFuel) -> stringify_members rec o <> OutOfFuel.
Proof.
  intros Hrec. induction o as [|[k v] o IH]; simpl; [done|].
  pose proof (Hrec v). destruct (rec v); simpl; try done.
  destruct (stringify_members rec o); simpl; done.
Qed.

Lemma stringify_not_OutOfFuel fuel : forall h v, stringify fuel h v <> OutOfFuel.
Proof.
  induction fuel as [|fuel IH]; intros h v; destruct v as [| |s|l]; simpl; try done.
  destruct (h !! l) as [o|]; [|done].
  pose proof (stringify_members_not_OutOfFuel (stringify fuel h) o (IH h)).
  destruct (stringify_members _ o); simpl; done.
Qed.

Lemma copy_set_not_OutOfFuel h entry rm name :
  ('(h', copy) ← JSON_copy h entry; set h' rm name copy) <> OutOfFuel.
Proof.
  unfold JSON_copy, JSON_stringify.
  pose proof (stringify_not_OutOfFuel (length h) h entry).
  destruct (stringify _ h entry) as [[j|]| |]; simpl; try done.
  destruct (parse j h) as [h' copy]. simpl. unfold set.
  destruct rm as [| |s|l]; try done. by destruct (h' !! l).
Qed.

Lemma findModule_loop_not_OutOfFuel fuel : forall route result dm rm h,
  length route <= fuel -> findModule_loop fuel route result dm rm h <> OutOfFuel.
Proof.
  induction fuel as [|fuel IH]; intros route result dm rm h Hlen; simpl;
    destruct (truthy result); try done; destruct route as [|name rt] eqn:Hr;
    try done; [simpl in Hlen; lia|].
  rewrite <- Hr.
  pose proof (reduce_not_OutOfFuel (h ++ [[("dependencies", dm)]]) route (VRef (length h))).
  destruct (reduce _ _ route) as [result'| |]; simpl; try done.
  assert (Hroute : route <> []) by (subst; done).
  pose proof (length_splice_m2_1 route Hroute) as Hs.
  assert (Hlen' : length (splice_m2_1 route) <= fuel) by (subst route; simpl in *; lia).
  destruct (truthy result' && truthy rm); simpl.
  - pose proof (get_not_OutOfFuel (h ++ [[("dependencies", dm)]]) dm name).
    destruct (get _ dm name) as [entry| |]; simpl; try done.
    pose proof (copy_set_not_OutOfFuel (h ++ [[("dependencies", dm)]]) entry rm name) as Hc.
    destruct (mbind _ (JSON_copy _ entry)) as [h2| |]; simpl; try done.
    by apply IH.
  - by apply IH.
Qed.

(** X1: the loop of [findModule] ends.  Every round removes one segment
    of the route, so the call returns or throws within [route.length]
    rounds, whatever the route, the maps and the store. *)
Theorem findModule_terminates route dependenciesMap requiredMap h :
  findModule route dependenciesMap requiredMap h <> OutOfFuel.
Proof. unfold findModule. by apply findModule_loop_not_OutOfFuel. Qed.

Lemma findModule_loop_unresolved fuel : forall route result0 dm rm h h' v,
  truthy result0 = false ->
  findModule_loop fuel route result0 dm rm h = Ok (h', v) ->
  truthy v = false ->
  exists temporaries,
    h' = h ++ temporaries /\
    Forall (fun o => o = [("dependencies", dm)]) temporaries.
Proof.
  induction fuel as [|fuel IH]; intros route result0 dm rm h h' v H0; simpl;
    rewrite H0.
  { destruct route; [|done]. intros [= <- <-] _. exists []. by rewrite app_nil_r. }
  destruct route as [|name rt] eqn:Hr.
  { intros [= <- <-] _. exists []. by rewrite app_nil_r. }
  rewrite <- Hr.
  destruct (reduce _ _ route) as [result'| |]; simpl; try done.
  destruct (truthy result') eqn:Ht; simpl.
  - match goal with
    | |- mbind _ ?m = _ -> _ => destruct m as [h2| |]; simpl; try done
    end.
    rewrite findModule_loop_truthy by done. intros [= <- <-] Hv. congruence.
  - intros Hloop Hv.
    destruct (IH _ _ _ _ _ _ _ Ht Hloop Hv) as (tmp & -> & Htmp).
    exists ([("dependencies", dm)] :: tmp). split; [by rewrite <- app_assoc|].
    by constructor.
Qed.

(** X2: when [findModule] returns without having resolved the route (a
    falsy result), it has changed no object: the store it leaves is the
    store it was given followed by the temporary [{ dependencies:
    dependenciesMap }] objects of its attempts.  In particular the
    RequiredMap is untouched. *)
Theorem findModule_unresolved_changes_nothing route dependenciesMap requiredMap h h' v :
  findModule route dependenciesMap requiredMap h = Ok (h', v) ->
  truthy v = false ->
  exists temporaries,
    h' = h ++ temporaries /\
    Forall (fun o => o = [("dependencies", dependenciesMap)]) temporaries.
Proof.
  intros Hf Hv. unfold findModule in Hf.
  exact (findModule_loop_unresolved _ _ VNull _ _ _ _ _ eq_refl Hf Hv).
Qed.

Lemma findModule_unresolved_changes_nothing_witness :
  exists h' v temporaries,
    findModule ["zz"] (VRef 0) (VRef 7) hoisted_store = Ok (h', v) /\
    h' = hoisted_store ++ temporaries /\
    Forall (fun o => o = [("dependencies", VRef 0)]) temporaries.
Proof.
  destruct (findModule_unresolved_changes_nothing ["zz"] (VRef 0) (VRef 7) hoisted_store
              (hoisted_store ++ [[("dependencies", VRef 0)]]) VUndefined)
    as (tmp & Hh & Htmp); [reflexivity|reflexivity|].
  exists (hoisted_store ++ [[("dependencies", VRef 0)]]), VUndefined, tmp.
  split; [reflexivity|]. split; assumption.
Defined.

(** X3: an exception in the first attempt ends the call: when the walk
    of the whole route throws, [findModule] throws the same exception and
    tries no shorter route. *)
Theorem findModule_first_attempt_throws h route d requiredMap e :
  closed h -> d < length h ->
  attempt h (VRef d) route = Throw e ->
  findModule route (VRef d) requiredMap h = Throw e.
Proof.
  intros Hc Hd Ha.
  assert (Hne : route <> []) by (intros ->; discriminate Ha).
  unfold findModule.
  destruct (length route) as [|n] eqn:Hl; [by destruct route|].
  simpl. destruct route as [|name rt] eqn:Hr; [done|]. rewrite <- Hr in *.
  rewrite reduce_init by (done || by apply bounded_ref). by rewrite Ha.
Qed.

Lemma findModule_first_attempt_throws_witness :
  findModule ["a"; "b"; "c"] (VRef 0) (VRef 7) hoisted_store = Throw TypeError.
Proof.
  apply (findModule_first_attempt_throws hoisted_store ["a"; "b"; "c"] 0 (VRef 7));
    [reflexivity | simpl; lia | reflexivity].
Defined.

(** X4: whenever [findModule] returns, its result is the one the route
    truncation finds: the first truthy value among the nested lookups
    along the route, along the route without its second-to-last segment,
    and so on; and a falsy result when none of them resolves. *)
Theorem findModule_result_is_first_resolving_truncation h route d requiredMap h' v :
  closed h -> d < length h ->
  findModule route (VRef d) requiredMap h = Ok (h', v) ->
  spec_findModule h (VRef d) route = if truthy v then Some v else None.
Proof. apply findModule_agrees_with_spec. Qed.

Lemma findModule_result_is_first_resolving_truncation_witness :
  exists h',
    findModule ["a"; "c"] (VRef 0) VUndefined hoisted_store = Ok (h', VRef 5) /\
    spec_findModule hoisted_store (VRef 0) ["a"; "c"] = Some (VRef 5).
Proof.
  eexists. split; [reflexivity|].
  eapply (findModule_result_is_first_resolving_truncation hoisted_store ["a"; "c"] 0
            VUndefined _ (VRef 5)); [reflexivity | simpl; lia | reflexivity].
Defined.

(** ** [_bundle] *)

Lemma keeps_refl dm st : keeps dm st st.
Proof. by split. Qed.

Lemma keeps_trans dm st1 st2 st3 : keeps dm st1 st2 -> keeps dm st2 st3 -> keeps dm st1 st3.
Proof.
  intros [Hr1 Hs1] [Hr2 Hs2]. split; [congruence|].
  intros Hdm. rewrite Hs2, Hs1; done.
Qed.

Section ClosureKeeps.
Context `{BundleEnv}.
Variable opts : bundle_opts.
Variable append_rec :
  string -> option (list string) -> option string -> bundle_state -> outcome bundle_state.
Variable bundle_rec : string -> bundle_opts -> bundle_state -> outcome bundle_state.
Hypothesis append_rec_keeps : forall id deps factory st st',
  append_rec id deps factory st = Ok st' -> keeps (opt_dependenciesMap opts) st st'.
Hypothesis bundle_rec_keeps : forall main opts' st st',
  bundle_rec main opts' st = Ok st' -> route st' = route st.

Lemma appendModule_route name st st' :
  appendModule opts bundle_rec name st = Ok st' -> route st' = route st.
Proof.
  unfold appendModule.
  destruct (findModule _ _ _ _) as [[h data]| |]; simpl; try done.
  destruct (truthy data); simpl; [|done].
  destruct (get h data "version") as [version| |]; simpl; try done.
  destruct (get h data "main") as [main| |]; simpl; try done.
  destruct (get h data "dir") as [dir| |]; simpl; try done.
  destruct version, main, dir; try done.
  intros Hb. by apply bundle_rec_keeps in Hb.
Qed.

Lemma satisfy_keeps mod_ id deps : forall st st',
  satisfy opts append_rec bundle_rec mod_ id deps st = Ok st' ->
  keeps (opt_dependenciesMap opts) st st'.
Proof.
  induction deps as [|dep deps IH]; intros st st'; simpl.
  { intros [= <-]. apply keeps_refl. }
  match goal with
  | |- mbind _ ?m = _ -> _ => destruct m as [st1| |] eqn:Hstep; simpl; try done
  end.
  intros Hrest. apply IH in Hrest.
  eapply keeps_trans; [|exact Hrest]. clear Hrest.
  destruct (starts_with_dot dep); [by eapply append_rec_keeps|].
  destruct (findComponent _ _); [by eapply append_rec_keeps|].
  destruct (truthy (opt_dependenciesMap opts)) eqn:Hdm;
    [|injection Hstep as <-; apply keeps_refl].
  destruct (appendModule _ _ _ _) as [st2| |] eqn:Hm; simpl in Hstep; try done.
  injection Hstep as <-. apply appendModule_route in Hm.
  split; [|intros; congruence].
  simpl in *. rewrite Hm. apply removelast_last.
Qed.

Lemma append_body_keeps id deps factory st st' :
  append_body opts append_rec bundle_rec id deps factory st = Ok st' ->
  keeps (opt_dependenciesMap opts) st st'.
Proof.
  unfold append_body. case_bool_decide as Hin.
  { intros [= <-]. apply keeps_refl. }
  destruct (opt_paths opts) as [|p0 ps]; [done|].
  match goal with
  | |- match ?src with _ => _ end = _ -> _ => destruct src as [text|]; [|done]
  end.
  unfold UglifyJS_parse. simpl.
  destruct (parse_error text); simpl; [done|].
  intros Hs. apply satisfy_keeps in Hs. exact Hs.
Qed.

End ClosureKeeps.

Lemma append_bundle_keeps `{BundleEnv} fuel :
  (forall opts id deps factory st st',
     append fuel opts id deps factory st = Ok st' ->
     keeps (opt_dependenciesMap opts) st st') /\
  (forall main opts st st',
     _bundle fuel main opts st = Ok st' ->
     keeps (opt_dependenciesMap opts) st st').
Proof.
  induction fuel as [|fuel [IHa IHb]]; [split; intros; done|]. split.
  - intros opts id deps factory st st' Ha. simpl in Ha.
    eapply append_body_keeps; [| |exact Ha]; [eauto|].
    intros main opts' st0 st0' Hb. by apply IHb in Hb as [? _].
  - intros main opts st st' Hb. simpl in Hb. eauto.
Qed.

(** X5: the route is a stack.  Whatever a successful [_bundle] pushed
    while descending into packages it has popped again: the route array is
    the same after the call as before. *)
Theorem bundle_restores_route `{BundleEnv} fuel main opts st st' :
  _bundle fuel main opts st = Ok st' -> route st' = route st.
Proof. intros Hb. by apply (append_bundle_keeps fuel) in Hb as [? _]. Qed.

Lemma bundle_restores_route_witness :
  exists st',
    _bundle 6 "app/1.0.0/home" sample_opts sample_state = Ok st' /\
    route st' = route sample_state.
Proof.
  assert (Hok : is_Ok (_bundle 6 "app/1.0.0/home" sample_opts sample_state) = true)
    by (vm_compute; reflexivity).
  destruct (_bundle 6 "app/1.0.0/home" sample_opts sample_state) as [st'| |] eqn:E;
    try discriminate Hok.
  exists st'. split; [reflexivity|].
  exact (bundle_restores_route 6 "app/1.0.0/home" sample_opts sample_state st' E).
Defined.

(** X6: own-code-only mode.  Called without a dependencies map, a
    successful [_bundle] never looks a package up: the store, and with it
    any RequiredMap, is left exactly as it was (a specifier that is neither
    relative nor a sibling file is skipped). *)
Theorem bundle_without_map_keeps_store `{BundleEnv} fuel main opts st st' :
  truthy (opt_dependenciesMap opts) = false ->
  _bundle fuel main opts st = Ok st' ->
  store st' = store st.
Proof. intros Hdm Hb. apply (append_bundle_keeps fuel) in Hb as [_ Hs]. auto. Qed.

Lemma bundle_without_map_keeps_store_witness :
  exists st',
    _bundle 6 "app/1.0.0/home" own_code_opts sample_state = Ok st' /\
    store st' = store sample_state /\
    body st' = body sample_state ++ [SDefine def_home].
Proof.
  assert (Hok : is_Ok (_bundle 6 "app/1.0.0/home" own_code_opts sample_state) = true)
    by (vm_compute; reflexivity).
  destruct (_bundle 6 "app/1.0.0/home" own_code_opts sample_state) as [st'| |] eqn:E;
    try discriminate Hok.
  exists st'. split; [reflexivity|]. split.
  - exact (bundle_without_map_keeps_store 6 "app/1.0.0/home" own_code_opts
             sample_state st' eq_refl E).
  - vm_compute in E. by injection E as <-.
Defined.

(** X7: dependents first, in general.  An [append] of an id that is not
    yet included puts the definition of that id into the aggregate right
    after what was there, and the definitions of all the modules it goes on
    to include (relative files, sibling files and packages alike) after
    it; [ids] receives the same ids in the opposite order. *)
Theorem append_definition_precedes_dependencies `{BundleEnv}
    fuel opts id deps factory st st' :
  append fuel opts id deps factory st = Ok st' ->
  id ∉ ids st ->
  exists d later_ids later_defs,
    def_id d = id /\
    ids st' = later_ids ++ id :: ids st /\
    body st' = body st ++ SDefine d :: (SDefine <$> later_defs) /\
    def_id <$> later_defs = reverse later_ids.
Proof. apply append_emits_dependent_first. Qed.

Lemma append_definition_precedes_dependencies_witness :
  exists st' d later_ids later_defs,
    append 6 sample_opts "app/1.0.0/home" None None sample_state = Ok st' /\
    def_id d = "app/1.0.0/home" /\
    ids st' = later_ids ++ "app/1.0.0/home" :: ids sample_state /\
    body st' = body sample_state ++ SDefine d :: (SDefine <$> later_defs) /\
    def_id <$> later_defs = reverse later_ids.
Proof.
  assert (Hok : is_Ok (append 6 sample_opts "app/1.0.0/home" None None sample_state) = true)
    by (vm_compute; reflexivity).
  destruct (append 6 sample_opts "app/1.0.0/home" None None sample_state)
    as [st'| |] eqn:E; try discriminate Hok.
  destruct (append_definition_precedes_dependencies 6 sample_opts "app/1.0.0/home"
              None None sample_state st' E) as (d & li & ld & H1 & H2 & H3 & H4).
  { simpl. apply not_elem_of_nil. }
  exists st', d, li, ld. auto.
Defined.

Lemma adds_clean_refl st : adds_clean st st.
Proof. exists []. simpl. by rewrite app_nil_r. Qed.

Lemma adds_clean_trans st1 st2 st3 :
  adds_clean st1 st2 -> adds_clean st2 st3 -> adds_clean st1 st3.
Proof.
  intros (d1 & Hb1 & Hc1) (d2 & Hb2 & Hc2). exists (d1 ++ d2). split.
  - by rewrite Hb2, Hb1, fmap_app, app_assoc.
  - by apply Forall_app.
Qed.

Lemma adds_clean_same st st' : body st' = body st -> adds_clean st st'.
Proof. intros Hb. exists []. simpl. by rewrite app_nil_r. Qed.

Section ClosureClean.
Context `{BundleEnv}.
Variable opts : bundle_opts.
Variable append_rec :
  string -> option (list string) -> option string -> bundle_state -> outcome bundle_state.
Variable bundle_rec : string -> bundle_opts -> bundle_state -> outcome bundle_state.
Hypothesis append_rec_clean : forall id deps factory st st',
  append_rec id deps factory st = Ok st' -> adds_clean st st'.
Hypothesis bundle_rec_clean : forall main opts' st st',
  bundle_rec main opts' st = Ok st' -> adds_clean st st'.

Lemma appendModule_clean name st st' :
  appendModule opts bundle_rec name st = Ok st' -> adds_clean st st'.
Proof.
  unfold appendModule.
  destruct (findModule _ _ _ _) as [[h data]| |]; simpl; try done.
  destruct (truthy data); simpl; [|done].
  destruct (get h data "version") as [version| |]; simpl; try done.
  destruct (get h data "main") as [main| |]; simpl; try done.
  destruct (get h data "dir") as [dir| |]; simpl; try done.
  destruct version, main, dir; try done.
  intros Hb. apply bundle_rec_clean in Hb.
  eapply adds_clean_trans; [|exact Hb]. by apply adds_clean_same.
Qed.

Lemma satisfy_clean mod_ id deps : forall st st',
  satisfy opts append_rec bundle_rec mod_ id deps st = Ok st' -> adds_clean st st'.
Proof.
  induction deps as [|dep deps IH]; intros st st'; simpl.
  { intros [= <-]. apply adds_clean_refl. }
  match goal with
  | |- mbind _ ?m = _ -> _ => destruct m as [st1| |] eqn:Hstep; simpl; try done
  end.
  intros Hrest. apply IH in Hrest.
  eapply adds_clean_trans; [|exact Hrest]. clear Hrest.
  destruct (starts_with_dot dep); [by eapply append_rec_clean|].
  destruct (findComponent _ _); [by eapply append_rec_clean|].
  destruct (truthy _); [|injection Hstep as <-; apply adds_clean_refl].
  destruct (appendModule _ _ _ _) as [st2| |] eqn:Hm; simpl in Hstep; try done.
  injection Hstep as <-. apply appendModule_clean in Hm.
  eapply adds_clean_trans; [|eapply adds_clean_trans; [exact Hm|]];
    by apply adds_clean_same.
Qed.

Lemma append_body_clean id deps factory st st' :
  append_body opts append_rec bundle_rec id deps factory st = Ok st' ->
  adds_clean st st'.
Proof.
  unfold append_body. case_bool_decide as Hin.
  { intros [= <-]. apply adds_clean_refl. }
  destruct (opt_paths opts) as [|p0 ps]; [done|].
  match goal with
  | |- match ?src with _ => _ end = _ -> _ => destruct src as [text|]; [|done]
  end.
  unfold UglifyJS_parse. simpl.
  destruct (parse_error text); simpl; [done|].
  intros Hs. apply satisfy_clean in Hs.
  eapply adds_clean_trans; [|exact Hs].
  eexists [_]. split; [reflexivity|]. constructor; [|constructor].
  unfold no_heredoc. simpl. apply Forall_forall. intros dep Hdep.
  by apply list_elem_of_filter in Hdep as [? _].
Qed.

End ClosureClean.

Lemma append_bundle_clean `{BundleEnv} fuel :
  (forall opts id deps factory st st',
     append fuel opts id deps factory st = Ok st' -> adds_clean st st') /\
  (forall main opts st st',
     _bundle fuel main opts st = Ok st' -> adds_clean st st').
Proof.
  induction fuel as [|fuel [IHa IHb]]; [split; intros; done|]. split.
  - intros opts id deps factory st st' Ha. simpl in Ha.
    eapply append_body_clean; [| |exact Ha]; eauto.
  - intros main opts st st' Hb. simpl in Hb. eauto.
Qed.

(** X8: no definition that [_bundle] adds lists a dependency whose name
    ends in [heredoc], whether the dependencies were scanned from the
    source or handed in by the caller; what was in the aggregate stays in
    front, unchanged. *)
Theorem bundle_drops_heredoc `{BundleEnv} fuel main opts st st' :
  _bundle fuel main opts st = Ok st' ->
  exists new_defs,
    body st' = body st ++ (SDefine <$> new_defs) /\
    Forall (fun d => Forall (fun dep => ends_with "heredoc" dep = false)
                       (def_dependencies d)) new_defs.
Proof. intros Hb. by apply (append_bundle_clean fuel) in Hb. Qed.

Lemma bundle_drops_heredoc_witness :
  exists st' new_defs,
    _bundle 3 "app/1.0.0/home"
      {| opt_paths := ["/proj/components"]; opt_root := "/proj";
         opt_dependenciesMap := VUndefined; opt_requiredMap := VUndefined;
         opt_dependencies := Some ["heredoc"; "./heredoc"; "yen"];
         opt_factory := Some "heredoc(function() {})" |}
      sample_state = Ok st' /\
    body st' = body sample_state ++ (SDefine <$> new_defs) /\
    Forall (fun d => Forall (fun dep => ends_with "heredoc" dep = false)
                       (def_dependencies d)) new_defs.
Proof.
  match goal with
  | |- exists st' _, ?run = _ /\ _ =>
      assert (Hok : is_Ok run = true) by (vm_compute; reflexivity);
      destruct run as [st'| |] eqn:E; try discriminate Hok
  end.
  destruct (bundle_drops_heredoc _ _ _ _ _ E) as (new_defs & Hb & Hc).
  exists st', new_defs. auto.
Defined.

(** X9: a cycle ends.  When A requires B and B requires A (relative or
    same-package specifiers), [_bundle] of A succeeds: it appends the
    definition of A, then that of B, and the requirement of A by B finds A
    among the included ids and adds nothing. *)
Theorem bundle_cycle_terminates `{BundleEnv} opts A B dA dB depB depA st fuel :
  opt_dependencies opts = None -> opt_factory opts = None ->
  has_source opts A dA -> def_dependencies dA = [depB] -> resolves_to opts A depB B ->
  has_source opts B dB -> def_dependencies dB = [depA] -> resolves_to opts B depA A ->
  A <> B -> A ∉ ids st -> B ∉ ids st ->
  exists st',
    _bundle (4 + fuel) A opts st = Ok st' /\
    body st' = body st ++ [SDefine dA; SDefine dB] /\
    ids st' = B :: A :: ids st.
Proof.
  intros Hdeps Hfac HA HdA HAB HB HdB HBA Hab HAn HBn.
  change (4 + fuel) with (S (S (S (S fuel)))).
  cbn [_bundle]. rewrite Hdeps, Hfac.
  rewrite (append_source _ _ _ _ _ HA HAn), HdA.
  rewrite (satisfy_single _ _ _ _ _ _ _ HAB).
  rewrite (append_source _ _ _ _ _ HB), HdB.
  2:{ simpl. apply not_elem_of_cons. done. }
  rewrite (satisfy_single _ _ _ _ _ _ _ HBA).
  rewrite append_included_noop.
  2:{ simpl. right. left. }
  eexists. split; [reflexivity|]. unfold body. simpl. rewrite <- !app_assoc. done.
Qed.

Lemma bundle_cycle_terminates_witness :
  exists st',
    @_bundle cycle_env (4 + 0) "app/1.0.0/a" sample_opts sample_state = Ok st' /\
    body st' = body sample_state ++ [SDefine def_cycle_a; SDefine def_cycle_b] /\
    ids st' = "app/1.0.0/b" :: "app/1.0.0/a" :: ids sample_state.
Proof.
  apply (@bundle_cycle_terminates cycle_env sample_opts
           "app/1.0.0/a" "app/1.0.0/b" def_cycle_a def_cycle_b "./b" "./a"
           sample_state 0);
    try reflexivity; try discriminate;
    try (exists "/proj/components", []; eexists; repeat split; reflexivity);
    try (left; split; reflexivity);
    try (simpl; apply not_elem_of_nil).
Defined.

Lemma findModule_top_level_absent h d o dep requiredMap :
  h !! d = Some o -> lookup_prop dep o = VUndefined ->
  findModule [dep] (VRef d) requiredMap h
  = Ok (h ++ [[("dependencies", VRef d)]], VUndefined).
Proof.
  intros Hd Ho. unfold findModule. simpl. rewrite get_alloc. simpl.
  unfold get. by rewrite (lookup_app_l_Some _ _ _ _ Hd), Ho.
Qed.

(** X10: an unknown package stops the bundle.  When a module of the
    entry package requires a name that is neither a relative path nor a
    sibling file, and the dependencies map neither has this key nor
    inherits it from [Object.prototype], a top-level [_bundle] throws
    "Cannot find module <name>". *)
Theorem bundle_unknown_package_throws `{BundleEnv} opts A dA dep st d o fuel :
  opt_dependencies opts = None -> opt_factory opts = None ->
  has_source opts A dA -> def_dependencies dA = [dep] ->
  starts_with_dot dep = false ->
  findComponent (dep +:+ ".js") (opt_paths opts) = None ->
  opt_dependenciesMap opts = VRef d ->
  store st !! d = Some o -> lookup_prop dep o = VUndefined ->
  dep ∉ Object_prototype_keys ->
  route st = [] -> A ∉ ids st ->
  _bundle (2 + fuel) A opts st = Throw (Error ("Cannot find module " +:+ dep)).
Proof.
  intros Hdeps Hfac HA HdA Hdot Hsib Hdm Hd Ho _ Hroute HAn.
  change (2 + fuel) with (S (S fuel)).
  cbn [_bundle]. rewrite Hdeps, Hfac.
  rewrite (append_source _ _ _ _ _ HA HAn), HdA.
  simpl. rewrite Hdot, Hsib, Hdm. simpl.
  unfold appendModule. simpl. rewrite Hroute, Hdm. simpl.
  by rewrite (findModule_top_level_absent _ _ _ _ _ Hd Ho).
Qed.

Lemma bundle_unknown_package_throws_witness :
  _bundle (2 + 0) "app/1.0.0/home" empty_map_opts empty_map_state
  = Throw (Error "Cannot find module yen").
Proof.
  apply (bundle_unknown_package_throws empty_map_opts "app/1.0.0/home" def_home "yen"
           empty_map_state 0 [] 0);
    try reflexivity;
    try (exists "/proj/components", []; eexists; repeat split; reflexivity);
    try (simpl; apply not_elem_of_nil).
  unfold Object_prototype_keys. intros Hin.
  repeat (apply elem_of_cons in Hin as [Hin|Hin]; [discriminate Hin|]).
  by apply elem_of_nil in Hin.
Defined.

(** X11: a missing source stops the bundle.  When A requires B and the
    file of B is on none of the load paths, [_bundle] of A throws the
    error whose message is "Cannot find source of B in " followed by the
    load paths as [util.format] prints them. *)
Theorem bundle_missing_dependency_source_throws `{BundleEnv} opts A B dA depB st p0 ps fuel :
  opt_dependencies opts = None -> opt_factory opts = None ->
  has_source opts A dA -> def_dependencies dA = [depB] -> resolves_to opts A depB B ->
  opt_paths opts = p0 :: ps ->
  (if ends_with "node_modules" p0
   then findComponent (mod_name (parseId B) +:+ "/" +:+ mod_entry (parseId B) +:+ ".js")
          (opt_paths opts)
   else findComponent (mod_entry (parseId B) +:+ ".js") (opt_paths opts)) = None ->
  A <> B -> A ∉ ids st -> B ∉ ids st ->
  _bundle (3 + fuel) A opts st
  = Throw (Error ("Cannot find source of " +:+ B +:+ " in "
                  +:+ format_paths (opt_paths opts))).
Proof.
  intros Hdeps Hfac HA HdA HAB Hp HB Hab HAn HBn.
  change (3 + fuel) with (S (S (S fuel))).
  cbn [_bundle]. rewrite Hdeps, Hfac.
  rewrite (append_source _ _ _ _ _ HA HAn), HdA.
  rewrite (satisfy_single _ _ _ _ _ _ _ HAB).
  cbn [append]. unfold append_body.
  rewrite bool_decide_eq_false_2 by (simpl; apply not_elem_of_cons; done).
  rewrite Hp in *. simpl. by rewrite HB.
Qed.

Lemma bundle_missing_dependency_source_throws_witness :
  @_bundle broken_env (3 + 0) "app/1.0.0/a" sample_opts sample_state
  = Throw (Error "Cannot find source of app/1.0.0/b in /proj/components").
Proof.
  apply (@bundle_missing_dependency_source_throws broken_env sample_opts
           "app/1.0.0/a" "app/1.0.0/b" def_cycle_a "./b" sample_state
           "/proj/components" [] 0);
    try reflexivity; try discriminate;
    try (exists "/proj/components", []; eexists; repeat split; reflexivity);
    try (left; split; reflexivity);
    try (simpl; apply not_elem_of_nil).
Defined.

(** ** The cache *)

(** X12: the two regular expressions of the cache agree on [.js] and
    [.css] names.  Putting a dash and 32 hexadecimal digits before the
    extension, as [read] and [write] do with [RE_EXT], and then stripping
    them, as [remove] does, gives the name back. *)
Theorem strip_checksum_undoes_replace_ext fname h :
  has_ext ".js" fname \/ has_ext ".css" fname ->
  is_hex32 h = true ->
  strip_checksum (replace_ext ("-" +:+ h) fname) = fname.
Proof.
  intros Hext Hh. apply strip_checksum_artifact; [done|]. by exists h.
Qed.

Lemma strip_checksum_undoes_replace_ext_witness :
  strip_checksum (replace_ext ("-" +:+ "0cc175b9c0f1b6a831c399e269772661") "app.min.css")
  = "app.min.css".
Proof.
  apply (strip_checksum_undoes_replace_ext "app.min.css"
           "0cc175b9c0f1b6a831c399e269772661").
  - right. eexists. reflexivity.
  - reflexivity.
Defined.

Lemma text_inj cs1 cs2 : text cs1 = text cs2 -> cs1 = cs2.
Proof. intros Ht. by rewrite <- (chars_text cs1), <- (chars_text cs2), Ht. Qed.

Lemma chars_inj s1 s2 : chars s1 = chars s2 -> s1 = s2.
Proof. intros Hc. by rewrite <- (text_chars s1), <- (text_chars s2), Hc. Qed.

Lemma replace_ext_inj fname stem ext h1 h2 :
  split_ext fname = Some (stem, ext) ->
  replace_ext ("-" +:+ h1) fname = replace_ext ("-" +:+ h2) fname -> h1 = h2.
Proof.
  intros Hs. unfold replace_ext. rewrite Hs. intros Ht.
  apply text_inj, app_inv_head in Ht. apply app_inv_tail in Ht.
  apply chars_inj in Ht. by injection Ht.
Qed.

Lemma mkdirp_from_deep rest : forall base (fs fs' : gmap (list string) fnode) p,
  mkdirp_from base rest fs = Ok fs' ->
  length base + length rest < length p ->
  fs' !! p = fs !! p.
Proof.
  induction rest as [|s rest IH]; intros base fs fs' p; simpl.
  { by intros [= <-]. }
  destruct (is_file fs (base ++ [s])); [done|]. intros Hm Hlen.
  rewrite (IH _ _ _ p Hm) by (rewrite length_app; simpl; lia).
  apply lookup_insert_ne. intros <-. rewrite length_app in Hlen. simpl in Hlen. lia.
Qed.

Lemma mkdirp_from_keeps_files rest : forall base (fs fs' : gmap (list string) fnode) p x,
  mkdirp_from base rest fs = Ok fs' ->
  p <> [] -> fs !! p = Some (File x) -> fs' !! p = Some (File x).
Proof.
  induction rest as [|s rest IH]; intros base fs fs' p x; simpl.
  { by intros [= <-]. }
  destruct (is_file fs (base ++ [s])) eqn:Hf; [done|]. intros Hm Hne Hp.
  apply (IH _ _ _ p x Hm Hne). rewrite lookup_insert_ne; [done|].
  intros <-. unfold is_file in Hf. rewrite Hp in Hf.
  by rewrite bool_decide_eq_false_2 in Hf.
Qed.

(** X13: a write from a new source invalidates the old artifact.  For
    an id with extension [.js] or [.css], after [write(id, s2, content)]
    succeeds, [read(id, s1)] for a source [s1] with another checksum finds
    nothing, whatever artifact of [s1] was there before. *)
Theorem cache_write_invalidates_other_source `{Hash} (c : Cache) (id : list string)
    (s1 s2 content : string) (fs fs' : gmap (list string) fnode) :
  fs_wf fs -> id <> [] ->
  has_ext ".js" (basename id) \/ has_ext ".css" (basename id) ->
  is_hex32 (md5_hex s1) = true ->
  md5_hex s1 <> md5_hex s2 ->
  Cache_write c id s2 content fs = Ok fs' ->
  Cache_read c id s1 fs' = Ok None.
Proof.
  intros Hwf Hid Hext Hhex Hmd5 Hw.
  assert (Hstrip : strip_checksum (replace_ext ("-" +:+ md5_hex s1) (basename id))
                   = basename id)
    by (apply strip_checksum_artifact; [done|by exists (md5_hex s1)]).
  unfold Cache_write in Hw.
  destruct (Cache_remove c id fs) as [fs1| |] eqn:Hr; simpl in Hw; try done.
  destruct (mkdirp fs1 _) as [fs2| |] eqn:Hm; simpl in Hw; try done.
  apply fs_writeFile_ok in Hw as [Hne ->].
  apply Cache_remove_spec in Hr as [Habsent Hpresent].
  unfold Cache_read.
  rewrite (cache_name_split id s1 Hid). rewrite (cache_name_split id s2 Hid) in *.
  set (n1 := replace_ext ("-" +:+ md5_hex s1) (basename id)) in *.
  set (n2 := replace_ext ("-" +:+ md5_hex s2) (basename id)) in *.
  assert (Hn : n1 <> n2).
  { intros Heq. apply Hmd5.
    destruct Hext as [[stem Hs]|[stem Hs]]; eapply replace_ext_inj; eauto. }
  assert (H1 : fs1 !! (dest c ++ dirname id ++ [n1]) = None).
  { destruct (fs_exists fs (dest c ++ dirname id)) eqn:He.
    - destruct (Hpresent eq_refl) as [Hgone _]. by apply Hgone.
    - rewrite (Habsent eq_refl).
      destruct (fs !! (dest c ++ dirname id ++ [n1])) as [x|] eqn:Hx; [|done].
      assert (Hs : is_Some (fs !! (dest c ++ dirname id ++ [n1]))) by eauto.
      apply Hwf in Hs. unfold dirname at 1 in Hs.
      rewrite app_assoc, removelast_last in Hs.
      unfold fs_exists in He. by rewrite Hs in He. }
  assert (H2 : fs2 !! (dest c ++ dirname id ++ [n1]) = None).
  { rewrite <- H1. eapply mkdirp_from_deep; [exact Hm|].
    unfold dirname at 1. rewrite (app_assoc (dest c)), removelast_last.
    rewrite !length_app. simpl. lia. }
  rewrite fs_exists_absent; [done| |].
  - intros Heq. apply (f_equal length) in Heq. rewrite !length_app in Heq.
    simpl in Heq. lia.
  - rewrite lookup_insert_ne; [done|]. intros Heq.
    rewrite !app_assoc in Heq. by apply app_inj_tail in Heq as [_ ?].
Qed.

Lemma cache_write_invalidates_other_source_witness :
  exists fs' : gmap (list string) fnode,
    Cache_write sample_cache ["yen"; "1.2.4"; "index.js"] "b" "compiled b"
      disk_with_artifact = Ok fs' /\
    Cache_read sample_cache ["yen"; "1.2.4"; "index.js"] "a" disk_with_artifact
      = Ok (Some (Text "compiled a")) /\
    Cache_read sample_cache ["yen"; "1.2.4"; "index.js"] "a" fs' = Ok None.
Proof.
  assert (Hok : is_Ok (Cache_write sample_cache ["yen"; "1.2.4"; "index.js"] "b"
                         "compiled b" disk_with_artifact) = true)
    by (vm_compute; reflexivity).
  destruct (Cache_write sample_cache ["yen"; "1.2.4"; "index.js"] "b" "compiled b"
              disk_with_artifact) as [fs'| |] eqn:E; try discriminate Hok.
  exists fs'. split; [reflexivity|]. split; [by vm_compute|].
  refine (cache_write_invalidates_other_source sample_cache ["yen"; "1.2.4"; "index.js"]
            "a" "b" "compiled b" disk_with_artifact fs' _ _ _ _ _ E).
  - intros p [x Hx]. unfold dirname. unfold disk_with_artifact, empty_disk in Hx.
    repeat (apply lookup_insert_Some in Hx as [[<- _]|[_ Hx]]; [reflexivity|]).
    by rewrite lookup_empty in Hx.
  - discriminate.
  - left. eexists. reflexivity.
  - reflexivity.
  - intros Heq. vm_compute in Heq. discriminate Heq.
Defined.

Lemma map_last_id f (p : list string) :
  f (basename p) = basename p -> map_last f p = p.
Proof.
  destruct (decide (p = [])) as [->|Hne]; [done|].
  intros Hf. rewrite (path_split p Hne). by rewrite map_last_snoc, Hf.
Qed.

(** X14: an id without extension is cached under its own name.  [RE_EXT]
    does not match, no checksum enters the file name, and after
    [write(id, s1, c1)] a [read(id, s2)] finds the file written, for every
    source [s2], changed or not: it returns what [readFile] makes of [c1]
    under the encoding of the cache, which is the string [c1] itself when
    the cache reads UTF-8. *)
Theorem cache_extensionless_id_never_invalidated `{Hash} (c : Cache) (id : list string)
    (s1 c1 : string) (fs fs' : gmap (list string) fnode) :
  split_ext (basename id) = None ->
  Cache_write c id s1 c1 fs = Ok fs' ->
  fs' !! (dest c ++ id) = Some (File c1) /\
  (forall s2,
     Cache_read c id s2 fs'
     = (content ← fs_readFile_as fs' (dest c ++ id) (encoding c); Ok (Some content))) /\
  (utf8_cache c -> forall s2, Cache_read c id s2 fs' = Ok (Some (Text c1))).
Proof.
  intros Hext Hw.
  assert (Hname : forall s, cache_name id s = id).
  { intros s. unfold cache_name. apply map_last_id. unfold replace_ext. by rewrite Hext. }
  unfold Cache_write in Hw. rewrite Hname in Hw.
  destruct (Cache_remove c id fs) as [fs1| |]; simpl in Hw; try done.
  destruct (mkdirp fs1 _) as [fs2| |]; simpl in Hw; try done.
  apply fs_writeFile_ok in Hw as [Hne ->].
  assert (Hread : forall s2,
    Cache_read c id s2 (<[dest c ++ id := File c1]> fs2)
    = (content ← fs_readFile_as (<[dest c ++ id := File c1]> fs2) (dest c ++ id)
                   (encoding c);
       Ok (Some content))).
  { intros s2. unfold Cache_read, fs_exists. rewrite Hname, is_file_insert by done.
    by rewrite orb_true_r. }
  split; [apply lookup_insert_eq|]. split; [exact Hread|].
  intros Hu s2. rewrite Hread.
  rewrite (fs_readFile_as_utf8 c _ _ c1 Hu Hne); [done|apply lookup_insert_eq].
Qed.

Lemma cache_extensionless_id_never_invalidated_witness :
  exists fs' : gmap (list string) fnode,
    Cache_write sample_cache ["yen"; "1.2.4"; "index"] "a" "compiled a" empty_disk
      = Ok fs' /\
    fs' !! (dest sample_cache ++ ["yen"; "1.2.4"; "index"]) = Some (File "compiled a") /\
    forall s2, Cache_read sample_cache ["yen"; "1.2.4"; "index"] s2 fs'
               = Ok (Some (Text "compiled a")).
Proof.
  assert (Hok : is_Ok (Cache_write sample_cache ["yen"; "1.2.4"; "index"] "a"
                         "compiled a" empty_disk) = true)
    by (vm_compute; reflexivity).
  destruct (Cache_write sample_cache ["yen"; "1.2.4"; "index"] "a" "compiled a"
              empty_disk) as [fs'| |] eqn:E; try discriminate Hok.
  destruct (cache_extensionless_id_never_invalidated sample_cache
              ["yen"; "1.2.4"; "index"] "a" "compiled a" empty_disk fs' eq_refl E)
    as (Hfile & _ & Hutf8).
  exists fs'. split; [reflexivity|]. split; [exact Hfile|].
  apply Hutf8. exists "utf8". split; reflexivity.
Defined.

(** X15: [Cache.write] touches no other file.  A file that is neither
    the artifact being written nor an entry its [remove] step matches (an
    entry of the id's directory whose stripped name is the id's base name)
    is the same after a successful write as before. *)
Theorem cache_write_keeps_other_files `{Hash} (c : Cache) (id : list string)
    (source content : string) (fs fs' : gmap (list string) fnode) p x :
  Cache_write c id source content fs = Ok fs' ->
  p <> [] -> fs !! p = Some (File x) ->
  p <> dest c ++ cache_name id source ->
  (forall name, strip_checksum name = basename id ->
                p <> dest c ++ dirname id ++ [name]) ->
  fs' !! p = Some (File x).
Proof.
  intros Hw Hne Hp Hart Hrem. unfold Cache_write in Hw.
  destruct (Cache_remove c id fs) as [fs1| |] eqn:Hr; simpl in Hw; try done.
  destruct (mkdirp fs1 _) as [fs2| |] eqn:Hm; simpl in Hw; try done.
  apply fs_writeFile_ok in Hw as [_ ->].
  apply Cache_remove_spec in Hr as [Habsent Hpresent].
  rewrite lookup_insert_ne by done.
  eapply mkdirp_from_keeps_files; [exact Hm|done|].
  destruct (fs_exists fs (dest c ++ dirname id)) eqn:He.
  - destruct (Hpresent eq_refl) as [_ Hkeep]. by rewrite Hkeep.
  - by rewrite (Habsent eq_refl).
Qed.

Lemma cache_write_keeps_other_files_witness :
  exists fs' : gmap (list string) fnode,
    Cache_write sample_cache ["yen"; "1.2.4"; "index.js"] "b" "compiled b"
      disk_with_artifact = Ok fs' /\
    fs' !! ["cache"; "yen"; "1.2.4"; "other.js"] = Some (File "other").
Proof.
  assert (Hok : is_Ok (Cache_write sample_cache ["yen"; "1.2.4"; "index.js"] "b"
                         "compiled b" disk_with_artifact) = true)
    by (vm_compute; reflexivity).
  destruct (Cache_write sample_cache ["yen"; "1.2.4"; "index.js"] "b" "compiled b"
              disk_with_artifact) as [fs'| |] eqn:E; try discriminate Hok.
  exists fs'. split; [reflexivity|].
  refine (cache_write_keeps_other_files sample_cache ["yen"; "1.2.4"; "index.js"]
            "b" "compiled b" disk_with_artifact fs'
            ["cache"; "yen"; "1.2.4"; "other.js"] "other" E _ _ _ _).
  - done.
  - by vm_compute.
  - by vm_compute.
  - intros name Hs [= <-]. by vm_compute in Hs.
Defined.

(** ** [_compileFile] *)

Lemma append_name_snoc suffix (p : list string) n :
  append_name suffix (p ++ [n]) = p ++ [n +:+ suffix].
Proof.
  unfold append_name. rewrite map_last_snoc. by destruct p.
Qed.

Lemma append_name_split suffix (id : list string) :
  append_name suffix id = dirname id ++ [basename id +:+ suffix].
Proof.
  destruct (decide (id = [])) as [->|Hne]; [done|].
  rewrite (path_split id Hne) at 1. apply append_name_snoc.
Qed.

Lemma string_app_length s1 s2 :
  String.length (s1 +:+ s2) = String.length s1 + String.length s2.
Proof.
  induction s1 as [|c s1 IH]; [done|].
  change (String c s1 +:+ s2) with (String c (s1 +:+ s2)). simpl. by rewrite IH.
Qed.

Lemma string_app_assoc s1 s2 s3 : (s1 +:+ s2) +:+ s3 = s1 +:+ (s2 +:+ s3).
Proof.
  induction s1 as [|c s1 IH]; [done|].
  change ((String c s1 +:+ s2) +:+ s3) with (String c ((s1 +:+ s2) +:+ s3)).
  change (String c s1 +:+ (s2 +:+ s3)) with (String c (s1 +:+ (s2 +:+ s3))).
  by rewrite IH.
Qed.

(** X16: the source map is where the script says it is.  After a
    successful [_compileFile(id, { dest, js, map })] the file [<id>.js]
    under [dest] holds [js] followed by a [sourceMappingURL] comment, and
    the file this comment names, [<basename of id>.js.map] in the same
    directory, holds [map]. *)
Theorem compileFile_writes_script_and_map (id dest : list string) (js map : string)
    (fs fs' : gmap (list string) fnode) :
  _compileFile id dest js map fs = Ok fs' ->
  fs_readFile fs' (dest ++ dirname id ++ [basename id +:+ ".js"])
  = Ok (js +:+ newline +:+ "//# sourceMappingURL=./" +:+ basename id +:+ ".js.map") /\
  fs_readFile fs' (dest ++ dirname id ++ [basename id +:+ ".js.map"]) = Ok map.
Proof.
  unfold _compileFile. rewrite (append_name_split ".js" id).
  rewrite (app_assoc dest), append_name_snoc, string_app_assoc.
  change (".js" +:+ ".map") with ".js.map". rewrite <- !(app_assoc dest).
  set (script := dest ++ dirname id ++ [basename id +:+ ".js"]).
  set (smap := dest ++ dirname id ++ [basename id +:+ ".js.map"]).
  intros Hc.
  destruct (mkdirp fs _) as [fs1| |]; simpl in Hc; try done.
  destruct (fs_writeFile fs1 script _) as [fs2| |] eqn:Hw1; simpl in Hc; try done.
  apply fs_writeFile_ok in Hw1 as [Hne1 ->].
  apply fs_writeFile_ok in Hc as [Hne2 ->].
  assert (Hdiff : smap <> script).
  { unfold smap, script. rewrite !app_assoc. intros Heq.
    apply app_inj_tail in Heq as [_ Heq]. apply (f_equal String.length) in Heq.
    rewrite !string_app_length in Heq. simpl in Heq. lia. }
  split; unfold fs_readFile, is_file.
  - rewrite lookup_insert_ne, lookup_insert_eq by done.
    by rewrite bool_decide_eq_false_2.
  - rewrite lookup_insert_eq. by rewrite bool_decide_eq_false_2.
Qed.

Lemma compileFile_writes_script_and_map_witness :
  exists fs' : gmap (list string) fnode,
    _compileFile ["yen"; "1.2.4"; "index"] ["public"] "js" "map" empty_disk = Ok fs' /\
    fs_readFile fs' (["public"] ++ dirname ["yen"; "1.2.4"; "index"]
                     ++ [basename ["yen"; "1.2.4"; "index"] +:+ ".js"])
    = Ok ("js" +:+ newline +:+ "//# sourceMappingURL=./"
          +:+ basename ["yen"; "1.2.4"; "index"] +:+ ".js.map") /\
    fs_readFile fs' (["public"] ++ dirname ["yen"; "1.2.4"; "index"]
                     ++ [basename ["yen"; "1.2.4"; "index"] +:+ ".js.map"])
    = Ok "map".
Proof.
  assert (Hok : is_Ok (_compileFile ["yen"; "1.2.4"; "index"] ["public"] "js" "map"
                         empty_disk) = true)
    by (vm_compute; reflexivity).
  destruct (_compileFile ["yen"; "1.2.4"; "index"] ["public"] "js" "map" empty_disk)
    as [fs'| |] eqn:E; try discriminate Hok.
  exists fs'. split; [reflexivity|].
  exact (compileFile_writes_script_and_map ["yen"; "1.2.4"; "index"] ["public"]
           "js" "map" empty_disk fs' E).
Defined.

(** ** The precompile queue *)

Lemma tick_precompiling `{PrecompileEnv} st : precompiling (tick st) = precompiling st.
Proof.
  unfold tick. destruct (current st); try done.
  destruct (pending st) as [|j rest]; [done|].
  destruct (settled st); [|done]. by destruct (precompile_start j).
Qed.

Lemma tick_in_flight `{PrecompileEnv} st : in_flight (tick st) ⊆ in_flight st.
Proof.
  unfold tick. destruct (current st) eqn:Hc; try done.
  destruct (pending st) as [|j rest] eqn:Hp; [done|].
  assert (Hfl : in_flight st = j :: rest) by (unfold in_flight; by rewrite Hc, Hp).
  rewrite Hfl.
  destruct (settled st); [destruct (precompile_start j)|];
    unfold in_flight; simpl; try done; intros x Hx; apply elem_of_cons; by right.
Qed.

Lemma Cache_precompile_marks c m o st :
  mod_key m ∈ precompiling (Cache_precompile c m o st).1 /\
  (forall k, k ∈ precompiling st -> k ∈ precompiling (Cache_precompile c m o st).1).
Proof.
  unfold Cache_precompile. case_bool_decide as Hin; [done|].
  assert (Hk : mod_key m ∈ precompiling st ++ [mod_key m])
    by (apply elem_of_app; right; by apply list_elem_of_singleton).
  assert (Hs : forall k, k ∈ precompiling st -> k ∈ precompiling st ++ [mod_key m])
    by (intros k Hk'; apply elem_of_app; by left).
  destruct (opt_system o !! mod_name m) as [versions|]; [|done].
  destruct (versions !! mod_version m) as [data_main|]; [|done].
  by destruct (negb _).
Qed.

Lemma Cache_precompile_in_flight_keys c m o st j :
  j ∈ in_flight (Cache_precompile c m o st).1 ->
  j ∈ in_flight st \/
  (job_key j = mod_key m /\ (mod_key m ∉ precompiling st) /\ job_dest j = dest c).
Proof.
  unfold Cache_precompile. case_bool_decide as Hin; [by left|].
  destruct (opt_system o !! mod_name m) as [versions|]; [|by left].
  destruct (versions !! mod_version m) as [data_main|]; [|by left].
  destruct (negb _); [by left|]. unfold in_flight. simpl.
  rewrite app_assoc. intros [Hj|Hj]%elem_of_app; [by left|].
  apply list_elem_of_singleton in Hj as ->. by right.
Qed.

Lemma child_exit_in_flight code st : in_flight (child_exit code st) ⊆ in_flight st.
Proof.
  unfold child_exit. destruct (current st) as [|j|j] eqn:Hc; try done.
  assert (Hfl : in_flight st = j :: pending st) by (unfold in_flight; by rewrite Hc).
  rewrite Hfl. case_bool_decide; unfold in_flight; simpl;
    intros x Hx; apply elem_of_cons; by right.
Qed.

Lemma stuck_step `{PrecompileEnv} c k st e : stuck k st -> stuck k (step c st e).
Proof.
  intros [Hk Hfree]. destruct e as [m o| |code]; simpl.
  - split; [by apply Cache_precompile_marks|].
    intros j [Hj|(Hj & Hm & _)]%Cache_precompile_in_flight_keys; [by apply Hfree|].
    intros Hjk. apply Hm. by rewrite <- Hj, Hjk.
  - split; [by rewrite tick_precompiling|].
    intros j Hj. by apply Hfree, tick_in_flight.
  - split; [|intros j Hj; apply Hfree; by apply (child_exit_in_flight code st)].
    unfold child_exit. destruct (current st) as [|j|j] eqn:Hc; try done.
    case_bool_decide; [|done]. simpl. apply list_elem_of_filter. split; [|done].
    intros Heq. apply (Hfree j); [|done]. unfold in_flight. rewrite Hc. by left.
Qed.

Lemma stuck_run `{PrecompileEnv} c k events : forall st,
  stuck k st -> stuck k (run c events st).
Proof.
  induction events as [|e events IH]; intros st Hst; [done|].
  unfold run. simpl. apply IH. by apply stuck_step.
Qed.

Lemma sched_inv_fresh_key st k :
  sched_inv st -> k ∉ precompiling st -> forall j, j ∈ in_flight st -> job_key j <> k.
Proof. intros [_ Hsub] Hk j Hj Heq. apply Hk. rewrite <- Heq. by apply Hsub. Qed.

(** X17: an identity leaves the in-flight set in one way only.  If an
    identity is in [precompiling] before a call of [Cache.precompile], a
    handler firing or a process exit and is not in it afterwards, then the
    event was the exit, with code 0, of the child process of the job that
    carries this identity. *)
Theorem precompile_identity_leaves_only_on_success `{PrecompileEnv} (c : Cache) st e k :
  k ∈ precompiling st -> k ∉ precompiling (step c st e) ->
  exists j, e = EExit 0 /\ current st = Waiting j /\ job_key j = k.
Proof.
  intros Hk Hgone. destruct e as [m o| |code]; simpl in Hgone.
  - destruct Hgone. by apply Cache_precompile_marks.
  - by rewrite tick_precompiling in Hgone.
  - unfold child_exit in Hgone. destruct (current st) as [|j|j] eqn:Hc; try done.
    case_bool_decide as Hcode; [|done]. subst code. exists j.
    split; [done|]. split; [done|].
    destruct (decide (job_key j = k)) as [|Hne]; [done|].
    destruct Hgone. simpl. apply list_elem_of_filter. split; [congruence|done].
Qed.

Lemma precompile_identity_leaves_only_on_success_witness :
  exists j,
    EExit 0 = EExit 0 /\
    current (run sample_cache [EPrecompile mod_yen sample_system; ETick] sched_init)
    = Waiting j /\
    job_key j = "yen/1.2.4".
Proof.
  apply (precompile_identity_leaves_only_on_success sample_cache
           (run sample_cache [EPrecompile mod_yen sample_system; ETick] sched_init)
           (EExit 0) "yen/1.2.4").
  - vm_compute. apply list_elem_of_singleton. reflexivity.
  - vm_compute. apply not_elem_of_nil.
Defined.

(** X18: an identity that is marked while no job carries it never
    recovers.  Whatever calls, handler firings and process exits follow, it
    stays in [precompiling] and no job for it is ever in the queue: every
    later [Cache.precompile] for it returns at once, for as long as the
    process lives.  This is the state a failed child process leaves. *)
Theorem stuck_identity_never_recovers `{PrecompileEnv} (c : Cache) k st events :
  k ∈ precompiling st ->
  (forall j, j ∈ in_flight st -> job_key j <> k) ->
  k ∈ precompiling (run c events st) /\
  (forall j, j ∈ in_flight (run c events st) -> job_key j <> k).
Proof. intros Hk Hfree. by apply (stuck_run c k events st). Qed.

Lemma stuck_identity_never_recovers_witness :
  let failed :=
    run sample_cache [EPrecompile mod_yen sample_system; ETick; EExit 1] sched_init in
  let later :=
    [EPrecompile mod_yen sample_system; ETick; EExit 0;
     EPrecompile mod_yen sample_system; ETick] in
  "yen/1.2.4" ∈ precompiling (run sample_cache later failed) /\
  (forall j, j ∈ in_flight (run sample_cache later failed) -> job_key j <> "yen/1.2.4").
Proof.
  intros failed later.
  apply (stuck_identity_never_recovers sample_cache "yen/1.2.4" failed later).
  - vm_compute. apply list_elem_of_singleton. reflexivity.
  - intros j Hj. vm_compute in Hj. by apply elem_of_nil in Hj.
Defined.

(** X19: every call marks its identity, whatever becomes of it.  After a
    call of [Cache.precompile] for a package version (one that enqueued a
    job, returned because the entry is not the main file, or threw because
    [system.modules] does not list the package) a second call for the same
    name and version changes nothing and returns. *)
Theorem precompile_second_call_is_noop (c : Cache) m o m' o' st :
  mod_key m' = mod_key m ->
  Cache_precompile c m' o' (Cache_precompile c m o st).1
  = ((Cache_precompile c m o st).1, Ok ()).
Proof.
  intros Hkey. apply Cache_precompile_in_flight. rewrite Hkey.
  exact (proj1 (Cache_precompile_marks c m o st)).
Qed.

Lemma precompile_second_call_is_noop_witness :
  (Cache_precompile sample_cache mod_unlisted sample_system sched_init).2
  = Throw TypeError /\
  Cache_precompile sample_cache mod_unlisted sample_system
    (Cache_precompile sample_cache mod_unlisted sample_system sched_init).1
  = ((Cache_precompile sample_cache mod_unlisted sample_system sched_init).1, Ok ()).
Proof.
  split; [reflexivity|].
  apply (precompile_second_call_is_noop sample_cache mod_unlisted sample_system
           mod_unlisted sample_system sched_init).
  reflexivity.
Defined.

(** X20: asking for a file that is not the main file of its package
    blocks the package.  Such a call (for an identity not yet marked)
    returns without enqueuing anything, but it has marked the identity; so
    no job for this package version is ever enqueued afterwards, not even
    by a call for its main file. *)
Theorem precompile_non_main_entry_blocks_package `{PrecompileEnv} (c : Cache)
    m o st versions data_main :
  sched_inv st ->
  mod_key m ∉ precompiling st ->
  opt_system o !! mod_name m = Some versions ->
  versions !! mod_version m = Some data_main ->
  main_of data_main +:+ ".js" <> mod_entry m ->
  (Cache_precompile c m o st).2 = Ok () /\
  in_flight (Cache_precompile c m o st).1 = in_flight st /\
  forall events,
    mod_key m ∈ precompiling (run c events (Cache_precompile c m o st).1) /\
    (forall j, j ∈ in_flight (run c events (Cache_precompile c m o st).1) ->
               job_key j <> mod_key m).
Proof.
  intros Hinv Hfresh Hsys Hver Hmain.
  assert (Hcall : Cache_precompile c m o st
    = ({| precompiling := precompiling st ++ [mod_key m]; settled := settled st;
          current := current st; pending := pending st; spawned := spawned st;
          log := log st |}, Ok ())).
  { unfold Cache_precompile. rewrite bool_decide_eq_false_2 by done.
    rewrite Hsys, Hver. fold (main_of data_main).
    destruct (String.eqb_spec (main_of data_main +:+ ".js") (mod_entry m)); done. }
  rewrite Hcall. simpl. split; [done|]. split; [done|].
  intros events. apply stuck_run. split.
  - simpl. apply elem_of_app. right. by apply list_elem_of_singleton.
  - intros j Hj. by apply (sched_inv_fresh_key st).
Qed.

Lemma precompile_non_main_entry_blocks_package_witness :
  (Cache_precompile sample_cache mod_yen_util sample_system sched_init).2 = Ok () /\
  in_flight (Cache_precompile sample_cache mod_yen_util sample_system sched_init).1
  = in_flight sched_init /\
  forall events,
    mod_key mod_yen_util
      ∈ precompiling (run sample_cache events
           (Cache_precompile sample_cache mod_yen_util sample_system sched_init).1) /\
    (forall j,
       j ∈ in_flight (run sample_cache events
             (Cache_precompile sample_cache mod_yen_util sample_system sched_init).1) ->
       job_key j <> mod_key mod_yen_util).
Proof.
  apply (precompile_non_main_entry_blocks_package sample_cache mod_yen_util
           sample_system sched_init {[ "1.2.4" := Some "index.js" ]} (Some "index.js")).
  - apply sched_inv_init.
  - apply not_elem_of_nil.
  - reflexivity.
  - reflexivity.
  - discriminate.
Defined.



Lemma climb_spec rev_fpath : forall p,
  climb rev_fpath = Some p ->
  exists below s up,
    rev_fpath = below ++ s :: up /\
    Forall (fun s => ends_with "node_modules" s = false) below /\
    ends_with "node_modules" s = true /\
    p = reverse (s :: up).
Proof.
  induction rev_fpath as [|s up IH]; intros p; simpl; [done|].
  destruct (ends_with "node_modules" s) eqn:Hs.
  - intros [= <-]. by exists [], s, up.
  - intros Hc. destruct (IH p Hc) as (below & s' & up' & -> & Hb & Hs' & ->).
    exists (s :: below), s', up'. repeat split; try done. by constructor.
Qed.

Lemma climb_none rev_fpath :
  climb rev_fpath = None <->
  Forall (fun s => ends_with "node_modules" s = false) rev_fpath.
Proof.
  induction rev_fpath as [|s up IH]; simpl; [done|].
  destruct (ends_with "node_modules" s) eqn:Hs.
  - split; [done|]. intros Hf. apply Forall_cons in Hf as [Hf _]. congruence.
  - rewrite IH. split; [by constructor|]. by intros [_ ?]%Forall_cons.
Qed.

(** X22: where the climb stops.  The loop that follows [findModule] walks
    up from the installation path of the module and stops at the nearest
    ancestor, the path itself included, whose name ends in [node_modules]:
    no segment below the result does. *)
Theorem climb_stops_at_nearest_node_modules fpath p :
  climb (reverse fpath) = Some p ->
  exists below,
    fpath = p ++ below /\
    (exists s, last p = Some s /\ ends_with "node_modules" s = true) /\
    Forall (fun s => ends_with "node_modules" s = false) below.
Proof.
  intros Hc. apply climb_spec in Hc as (below & s & up & Hr & Hb & Hs & ->).
  exists (reverse below). split; [|split].
  - rewrite <- (reverse_involutive fpath), Hr, reverse_app. done.
  - exists s. split; [|done]. rewrite reverse_cons. apply last_snoc.
  - by apply Forall_reverse.
Qed.

Lemma climb_stops_at_nearest_node_modules_witness :
  exists below,
    ["proj"; "node_modules"; "yen"; "lib"] = ["proj"; "node_modules"] ++ below /\
    (exists s, last ["proj"; "node_modules"] = Some s /\
               ends_with "node_modules" s = true) /\
    Forall (fun s => ends_with "node_modules" s = false) below.
Proof.
  apply (climb_stops_at_nearest_node_modules ["proj"; "node_modules"; "yen"; "lib"]
           ["proj"; "node_modules"]).
  reflexivity.
Defined.

Lemma climb_test_snoc (fpath : list string) s :
  climb_test (fpath ++ [s]) = negb (ends_with "node_modules" s).
Proof. unfold climb_test. by rewrite last_snoc. Qed.

Lemma climb_loop_running rounds : forall fpath,
  Forall (fun s => ends_with "node_modules" s = false) fpath ->
  climb_loop rounds fpath = None.
Proof.
  induction rounds as [|rounds IH]; intros fpath Hf;
    destruct fpath as [|s fpath _] using rev_ind; simpl; try done.
  - rewrite climb_test_snoc. apply Forall_app in Hf as [_ Hs].
    rewrite Forall_singleton in Hs. by rewrite Hs.
  - by apply IH.
  - rewrite climb_test_snoc. apply Forall_app in Hf as [Hf Hs].
    rewrite Forall_singleton in Hs. rewrite Hs. simpl.
    unfold dirname. rewrite removelast_last. by apply IH.
Qed.

Lemma climb_loop_stops (p : list string) s below :
  last p = Some s -> ends_with "node_modules" s = true ->
  Forall (fun s => ends_with "node_modules" s = false) below ->
  climb_loop (length below) (p ++ below) = Some p.
Proof.
  intros Hp Hs. induction below as [|x below IH] using rev_ind; intros Hb.
  - rewrite app_nil_r. simpl. unfold climb_test. by rewrite Hp, Hs.
  - apply Forall_app in Hb as [Hb Hx]. rewrite Forall_singleton in Hx.
    rewrite length_app, Nat.add_1_r, app_assoc. simpl.
    rewrite climb_test_snoc, Hx. simpl.
    unfold dirname. rewrite removelast_last. by apply IH.
Qed.

Lemma climb_loop_sound rounds : forall fpath p,
  climb_loop rounds fpath = Some p -> climb (reverse fpath) = Some p.
Proof.
  induction rounds as [|rounds IH]; intros fpath p;
    destruct fpath as [|s fpath _] using rev_ind; simpl; try done.
  - rewrite climb_test_snoc, reverse_snoc. simpl.
    destruct (ends_with "node_modules" s); simpl; [|done].
    intros [= <-]. by rewrite <- reverse_snoc, reverse_involutive.
  - apply IH.
  - rewrite climb_test_snoc, reverse_snoc. simpl.
    destruct (ends_with "node_modules" s); simpl.
    + intros [= <-]. by rewrite <- reverse_snoc, reverse_involutive.
    + unfold dirname. rewrite removelast_last. apply IH.
Qed.

Lemma climb_loop_complete fpath p :
  climb (reverse fpath) = Some p -> exists rounds, climb_loop rounds fpath = Some p.
Proof.
  intros Hc. apply climb_spec in Hc as (below & s & up & Hr & Hb & Hs & ->).
  exists (length (reverse below)).
  replace fpath with (reverse (s :: up) ++ reverse below)
    by (by rewrite <- reverse_app, <- Hr, reverse_involutive).
  apply (climb_loop_stops _ s); [|done|by apply Forall_reverse].
  rewrite reverse_cons. apply last_snoc.
Qed.

(** X23: when the climb does not stop.  Run round by round, the loop
    after [findModule] is still running after any number of rounds exactly
    when no segment of the installation path ends in [node_modules]: at
    the root [path.dirname] returns its argument and the test holds for
    ever.  [climb] gives the path at which the loop stops when it does, and
    [None] exactly when it never does. *)
Theorem climb_never_ends_without_node_modules fpath :
  ((forall rounds, climb_loop rounds fpath = None) <->
   Forall (fun s => ends_with "node_modules" s = false) fpath) /\
  (forall p, climb (reverse fpath) = Some p <->
             exists rounds, climb_loop rounds fpath = Some p) /\
  (climb (reverse fpath) = None <-> forall rounds, climb_loop rounds fpath = None).
Proof.
  assert (Hsome : forall p, climb (reverse fpath) = Some p <->
                            exists rounds, climb_loop rounds fpath = Some p).
  { intros p. split; [apply climb_loop_complete|].
    intros [rounds Hl]. by apply (climb_loop_sound rounds). }
  assert (Hnone : climb (reverse fpath) = None <->
                  forall rounds, climb_loop rounds fpath = None).
  { split.
    - intros Hc rounds. apply climb_loop_running.
      apply Forall_reverse. by apply climb_none.
    - intros Hrun. destruct (climb (reverse fpath)) as [p|] eqn:Hc; [|done].
      apply climb_loop_complete in Hc as [rounds Hl]. by rewrite Hrun in Hl. }
  split; [|by split].
  rewrite <- Hnone, climb_none. apply Forall_reverse.
Qed.

Lemma precompile_start_spawn `{PrecompileEnv} j a :
  precompile_start j = StartSpawn a ->
  sp_dest a = job_dest j /\
  sp_source_root a = "/" /\
  (exists s, last (sp_paths a) = Some s /\ ends_with "node_modules" s = true) /\
  probe_exists (sp_paths a) = true.
Proof.
  unfold precompile_start.
  destruct (findModule_path _ _) as [fpath|]; [|done].
  destruct (climb (reverse fpath)) as [p|] eqn:Hc; [|done].
  destruct (probe_exists p) eqn:He; simpl; [|done].
  destruct (probe_symlink _) as [[|]|]; try done.
  intros [= <-]. simpl. repeat split; try done.
  apply climb_spec in Hc as (_ & s & up & _ & _ & Hs & ->).
  exists s. split; [|done]. rewrite reverse_cons. apply last_snoc.
Qed.

Lemma spawn_ok_step `{PrecompileEnv} c st e :
  (forall j, j ∈ in_flight st -> job_dest j = dest c) ->
  (forall a, a ∈ spawned st -> spawn_ok c a) ->
  (forall j, j ∈ in_flight (step c st e) -> job_dest j = dest c) /\
  (forall a, a ∈ spawned (step c st e) -> spawn_ok c a).
Proof.
  intros Hd Hs. destruct e as [m o| |code]; simpl.
  - split.
    + intros j [Hj|(_ & _ & Hj)]%Cache_precompile_in_flight_keys; [by apply Hd|done].
    + unfold Cache_precompile. case_bool_decide; [done|].
      destruct (opt_system o !! mod_name m) as [versions|]; [|done].
      destruct (versions !! mod_version m) as [data_main|]; [|done].
      by destruct (negb _).
  - split; [intros j Hj; apply Hd; by apply tick_in_flight|].
    unfold tick. destruct (current st) eqn:Hc; try done.
    destruct (pending st) as [|j rest] eqn:Hp; [done|].
    destruct (settled st); [|done].
    destruct (precompile_start j) as [|msg| |a'] eqn:Hstart; try done.
    simpl. intros a [Ha|Ha]%elem_of_app; [by apply Hs|].
    apply list_elem_of_singleton in Ha as ->.
    apply precompile_start_spawn in Hstart as (H1 & H2 & H3 & H4).
    repeat split; try done. rewrite H1. apply Hd.
    unfold in_flight. rewrite Hc, Hp. by left.
  - split; [intros j Hj; apply Hd; by apply (child_exit_in_flight code st)|].
    unfold child_exit. destruct (current st); try done. by case_bool_decide.
Qed.

Lemma spawn_ok_run `{PrecompileEnv} c events :
  (forall j, j ∈ in_flight (run c events sched_init) -> job_dest j = dest c) /\
  (forall a, a ∈ spawned (run c events sched_init) -> spawn_ok c a).
Proof.
  induction events as [|e events [IH1 IH2]] using rev_ind.
  { split; intros x Hx; by apply elem_of_nil in Hx. }
  unfold run in *. rewrite foldl_app. simpl. by apply spawn_ok_step.
Qed.

(** X24: what a child process is started with.  Whatever calls, handler
    firings and process exits have happened, every process spawned so far
    was given the folder of the cache as [--dest], [/] as [--source-root],
    and as [--paths] a directory that exists and whose name ends in
    [node_modules]. *)
Theorem precompile_spawns_in_node_modules `{PrecompileEnv} (c : Cache) events a :
  a ∈ spawned (run c events sched_init) ->
  sp_dest a = dest c /\
  sp_source_root a = "/" /\
  (exists s, last (sp_paths a) = Some s /\ ends_with "node_modules" s = true) /\
  probe_exists (sp_paths a) = true.
Proof. intros Ha. by apply (spawn_ok_run c events). Qed.

Lemma precompile_spawns_in_node_modules_witness :
  sp_dest (spawn_of mod_ez) = dest sample_cache /\
  sp_source_root (spawn_of mod_ez) = "/" /\
  (exists s, last (sp_paths (spawn_of mod_ez)) = Some s /\
             ends_with "node_modules" s = true) /\
  probe_exists (sp_paths (spawn_of mod_ez)) = true.
Proof.
  apply (precompile_spawns_in_node_modules sample_cache
           [EPrecompile mod_yen sample_system; EPrecompile mod_ez sample_system;
            ETick; EExit 0; ETick]).
  vm_compute. apply elem_of_cons. right. apply list_elem_of_singleton. reflexivity.
Defined.

(** ** [walk] of [compileAll] *)

Lemma walk_grows_refl {W} (st : walk_state W) : walk_grows st st.
Proof. by split. Qed.

Lemma walk_grows_trans {W} (st1 st2 st3 : walk_state W) :
  walk_grows st1 st2 -> walk_grows st2 st3 -> walk_grows st1 st3.
Proof. intros [Hd1 Hi1] [Hd2 Hi2]. split; auto. Qed.

Lemma walk_grows_compile {W} (st : walk_state W) name version id paths w :
  version ∉ default ∅ (doneModules st !! name) ->
  walk_grows st
    {| doneModules :=
         <[name := {[version]} ∪ default ∅ (doneModules st !! name)]> (doneModules st);
       calls := calls st ++
         [ {| call_name := name; call_version := version;
              call_id := id; call_paths := paths |} ];
       world := w |}.
Proof.
  intros Hnew.
  assert (Hmono : forall n v, done_version st n v ->
    v ∈ default ∅ (<[name := {[version]} ∪ default ∅ (doneModules st !! name)]>
                     (doneModules st) !! n)).
  { intros n v Hd. unfold done_version in Hd.
    destruct (decide (n = name)) as [->|Hne].
    - rewrite lookup_insert_eq. simpl. apply elem_of_union. by right.
    - by rewrite lookup_insert_ne. }
  split; [exact Hmono|].
  intros [Hnd Hdone]. split; simpl.
  - rewrite fmap_app. apply NoDup_app. split; [done|]. split; [|apply NoDup_singleton].
    intros k Hk Hk'. apply list_elem_of_singleton in Hk' as ->.
    apply list_elem_of_fmap in Hk as (c & Hc & Hin).
    apply Hdone in Hin. unfold call_key in Hc.
    injection Hc as Hn Hv. rewrite <- Hn, <- Hv in Hin. by apply Hnew.
  - intros c [Hc|Hc]%elem_of_app; unfold done_version; simpl.
    + by apply Hmono, Hdone.
    + apply list_elem_of_singleton in Hc as ->. simpl.
      rewrite lookup_insert_eq. simpl. apply elem_of_union. left.
      by apply elem_of_singleton.
Qed.

Section WalkProps.
Context `{BundleEnv} {W : Type}.
Variable compileModule : string -> string -> W -> outcome W.
Variable rec : value -> walk_state W -> outcome (walk_state W).
Hypothesis rec_grows : forall deps st st', rec deps st = Ok st' -> walk_grows st st'.

Lemma walk_entries_grows h entries : forall st st',
  walk_entries compileModule rec h entries st = Ok st' ->
  walk_grows st st' /\
  (forall name mod_ version,
     (name, mod_) ∈ entries -> get h mod_ "version" = Ok version ->
     done_version st' name (to_key version)).
Proof.
  induction entries as [|[name mod_] rest IH]; intros st st'; simpl.
  { intros [= <-]. split; [apply walk_grows_refl|].
    intros name mod_ version Hin. by apply elem_of_nil in Hin. }
  destruct (get h mod_ "main") as [main| |]; simpl; try done.
  destruct (main_name main) as [main'| |]; simpl; try done.
  destruct (get h mod_ "dir") as [[| |dir|]| |]; simpl; try done.
  destruct (get h mod_ "version") as [version| |] eqn:Hv; simpl; try done.
  match goal with
  | |- mbind _ ?m = _ -> _ => destruct m as [st1| |] eqn:Hstep; simpl; try done
  end.
  intros Hrest. destruct (IH _ _ Hrest) as [Hgrow Hcover].
  assert (Hhere : walk_grows st st1 /\ done_version st1 name (to_key version)).
  { case_bool_decide as Hdone.
    - injection Hstep as <-. split; [apply walk_grows_refl|done].
    - destruct version as [| |version|]; try done.
      destruct (compileModule _ _ _) as [w| |]; simpl in Hstep; try done.
      destruct (get h mod_ "dependencies") as [deps| |]; simpl in Hstep; try done.
      apply rec_grows in Hstep.
      pose proof (walk_grows_compile st name version
                    (path_join [name; version; main']) (pkgBase_of name dir) w Hdone)
        as Hc.
      split; [by eapply walk_grows_trans|].
      apply Hstep. unfold done_version. simpl. rewrite lookup_insert_eq. simpl.
      apply elem_of_union. left. by apply elem_of_singleton. }
  destruct Hhere as [Hgrow1 Hdone1].
  split; [by eapply walk_grows_trans|].
  intros name' mod' version' [Hin|Hin]%elem_of_cons Hv'; [|by eapply Hcover].
  injection Hin as -> ->. rewrite Hv in Hv'. injection Hv' as <-.
  by apply Hgrow.
Qed.

End WalkProps.

Lemma walk_grows_fuel `{BundleEnv} {W} (compileModule : string -> string -> W -> outcome W)
    fuel h : forall deps st st',
  walk compileModule fuel h deps st = Ok st' -> walk_grows st st'.
Proof.
  induction fuel as [|fuel IH]; intros deps st st'; destruct deps as [| |s|l]; simpl;
    try (intros [= <-]; apply walk_grows_refl); try done;
    try (destruct (String.eqb s ""); [intros [= <-]; apply walk_grows_refl|done]).
  intros Hw. by apply (walk_entries_grows compileModule _ IH) in Hw as [? _].
Qed.

(** X25: [walk] compiles a package version once.  Started with an empty
    [doneModules], a walk that succeeds has called [compileModule] at most
    once for each name and version, however often the version occurs in the
    dependencies map, and has marked every version it compiled. *)
Theorem walk_compiles_each_version_once `{BundleEnv} {W}
    (compileModule : string -> string -> W -> outcome W) fuel h deps w st' :
  walk compileModule fuel h deps (fresh_walk w) = Ok st' ->
  NoDup (call_key <$> calls st') /\
  (forall c, c ∈ calls st' -> done_version st' (call_name c) (call_version c)).
Proof.
  intros Hw. apply walk_grows_fuel in Hw as [_ Hinv]. apply Hinv.
  split; [constructor|]. intros c Hc. by apply elem_of_nil in Hc.
Qed.

Lemma walk_compiles_each_version_once_witness :
  exists st',
    walk sample_compileModule 3 shared_store (VRef 0) (fresh_walk 0) = Ok st' /\
    world st' = 2 /\
    NoDup (call_key <$> calls st') /\
    (forall c, c ∈ calls st' -> done_version st' (call_name c) (call_version c)).
Proof.
  assert (Hok : is_Ok (walk sample_compileModule 3 shared_store (VRef 0) (fresh_walk 0))
                = true) by (vm_compute; reflexivity).
  assert (Hworld : match walk sample_compileModule 3 shared_store (VRef 0)
                           (fresh_walk 0) with
                   | Ok st => world st
                   | _ => 0
                   end = 2) by (vm_compute; reflexivity).
  destruct (walk sample_compileModule 3 shared_store (VRef 0) (fresh_walk 0))
    as [st'| |] eqn:E; try discriminate Hok.
  exists st'. split; [reflexivity|]. split; [exact Hworld|].
  exact (walk_compiles_each_version_once sample_compileModule 3 shared_store (VRef 0)
           0 st' E).
Defined.

(** X26: [walk] leaves no package of the top level out.  After a walk of
    a map that succeeds, every entry of the map has its version marked
    done: it was compiled by this walk, as an entry or as a dependency
    met earlier, or it was done before. *)
Theorem walk_covers_top_level `{BundleEnv} {W}
    (compileModule : string -> string -> W -> outcome W)
    fuel h l o st st' name mod_ version :
  walk compileModule fuel h (VRef l) st = Ok st' ->
  h !! l = Some o -> (name, mod_) ∈ o ->
  get h mod_ "version" = Ok (VStr version) ->
  done_version st' name version.
Proof.
  intros Hw Hl Hin Hv. destruct fuel as [|fuel]; [done|]. simpl in Hw.
  rewrite Hl in Hw. simpl in Hw.
  apply (walk_entries_grows compileModule _ (walk_grows_fuel compileModule fuel h))
    in Hw as [_ Hcover].
  exact (Hcover name mod_ (VStr version) Hin Hv).
Qed.

Lemma walk_covers_top_level_witness :
  exists st',
    walk sample_compileModule 3 shared_store (VRef 0) (fresh_walk 0) = Ok st' /\
    done_version st' "b" "2.0.0".
Proof.
  assert (Hok : is_Ok (walk sample_compileModule 3 shared_store (VRef 0) (fresh_walk 0))
                = true) by (vm_compute; reflexivity).
  destruct (walk sample_compileModule 3 shared_store (VRef 0) (fresh_walk 0))
    as [st'| |] eqn:E; try discriminate Hok.
  exists st'. split; [reflexivity|].
  apply (walk_covers_top_level sample_compileModule 3 shared_store 0
           [("a", VRef 1); ("b", VRef 3)] (fresh_walk 0) st' "b" (VRef 3) "2.0.0" E).
  - reflexivity.
  - apply elem_of_cons. right. apply list_elem_of_singleton. reflexivity.
  - reflexivity.
Defined.

(** ** [Cache.writeFile] and [Cache.remove] *)

Lemma fs_writeFile_parent (fs fs' : gmap (list string) fnode) p content :
  fs_writeFile fs p content = Ok fs' -> is_dir fs' (dirname p) = true.
Proof.
  unfold fs_writeFile. destruct (is_dir fs p) eqn:Hp; [done|].
  destruct (is_dir fs (dirname p)) eqn:Hd; [|done]. intros [= <-].
  unfold is_dir in *. destruct (decide (dirname p = [])) as [->|Hne]; [done|].
  rewrite lookup_insert_ne; [done|].
  intros Heq. rewrite <- Heq in Hd. by rewrite Hd in Hp.
Qed.

Lemma dirname_app (base id : list string) :
  id <> [] -> dirname (base ++ id) = base ++ dirname id.
Proof. intros Hne. unfold dirname. by apply removelast_app. Qed.

(** X27: [remove] takes the plain file too.  The pattern of [remove]
    leaves a name without checksum as it is, so the file that
    [writeFile(id, ...)] stored under the id itself is among those that
    [remove(id)], and with it every [write(id, ...)], deletes. *)
Theorem cache_remove_deletes_plain_file (c : Cache) (id : list string)
    (content : string) (fs fs1 fs2 : gmap (list string) fnode) :
  id <> [] ->
  strip_checksum (basename id) = basename id ->
  Cache_writeFile c id content fs = Ok fs1 ->
  Cache_remove c id fs1 = Ok fs2 ->
  fs_readFile fs1 (dest c ++ id) = Ok content /\
  fs_exists fs2 (dest c ++ id) = false.
Proof.
  intros Hid Hplain Hw Hr. unfold Cache_writeFile in Hw.
  destruct (mkdirp fs _) as [fs0| |]; simpl in Hw; try done.
  pose proof (fs_writeFile_parent _ _ _ _ Hw) as Hdir.
  apply fs_writeFile_ok in Hw as [Hne ->].
  rewrite (dirname_app _ _ Hid) in Hdir. split.
  - unfold fs_readFile. rewrite is_file_insert by done. by rewrite lookup_insert_eq.
  - apply Cache_remove_spec in Hr as [_ Hpresent].
    destruct Hpresent as [Hgone _]; [unfold fs_exists; by rewrite Hdir|].
    apply fs_exists_absent; [done|].
    rewrite (path_split id Hid) at 1. by apply Hgone.
Qed.

Lemma cache_remove_deletes_plain_file_witness :
  exists fs1 fs2 : gmap (list string) fnode,
    Cache_writeFile sample_cache ["yen"; "1.2.4"; "index.css"] "body {}" empty_disk
      = Ok fs1 /\
    Cache_remove sample_cache ["yen"; "1.2.4"; "index.css"] fs1 = Ok fs2 /\
    fs_readFile fs1 (dest sample_cache ++ ["yen"; "1.2.4"; "index.css"]) = Ok "body {}" /\
    fs_exists fs2 (dest sample_cache ++ ["yen"; "1.2.4"; "index.css"]) = false.
Proof.
  assert (Hok : is_Ok (fs1 ← Cache_writeFile sample_cache ["yen"; "1.2.4"; "index.css"]
                               "body {}" empty_disk;
                       Cache_remove sample_cache ["yen"; "1.2.4"; "index.css"] fs1)
                = true) by (vm_compute; reflexivity).
  destruct (Cache_writeFile sample_cache ["yen"; "1.2.4"; "index.css"] "body {}"
              empty_disk) as [fs1| |] eqn:E1; try discriminate Hok.
  simpl in Hok.
  destruct (Cache_remove sample_cache ["yen"; "1.2.4"; "index.css"] fs1)
    as [fs2| |] eqn:E2; try discriminate Hok.
  exists fs1, fs2. split; [reflexivity|]. split; [exact E2|].
  apply (cache_remove_deletes_plain_file sample_cache ["yen"; "1.2.4"; "index.css"]
           "body {}" empty_disk fs1 fs2); [discriminate|reflexivity|exact E1|exact E2].
Defined.
